(** * Optimal meeting point: a shallow embedding of [optimal_meeting_point.py]

    The three functions of the module, [min_total_distance],
    [_fast_total_distance] and [_bfs_total_distance], are embedded as
    functions over Python-style lists of integers, with [IndexError] made
    explicit and the [while] loop of the traversal driven by fuel. A second
    embedding, [Store], keeps the lists as shared objects in a store; it is
    related to the first by simulation and used for what a call leaves
    unchanged. *)

From Stdlib Require Import ZArith Lia Bool String.
From stdpp Require Import base list.

Local Open Scope Z_scope.

(** ** Outcomes of a call *)

(** A call returns a value, raises [IndexError], or (in the model only)
    exhausts the fuel given to a [while] loop. *)
Inductive result (A : Type) : Type :=
| Ok (a : A)
| IndexError
| OutOfFuel.
Arguments Ok {A} a.
Arguments IndexError {A}.
Arguments OutOfFuel {A}.

Definition bind {A B : Type} (r : result A) (k : A -> result B) : result B :=
  match r with
  | Ok a => k a
  | IndexError => IndexError
  | OutOfFuel => OutOfFuel
  end.

Notation "'let*' x := e 'in' k" := (bind e (fun x => k))
  (at level 10, x name, e at level 100, k at level 200).

(** ** Python lists *)

(** [l[i]]: indices [-len l <= i < 0] count from the end, anything outside
    [-len l <= i < len l] raises [IndexError]. *)
Definition py_index {A : Type} (l : list A) (i : Z) : option nat :=
  let len := Z.of_nat (length l) in
  if (0 <=? i) && (i <? len) then Some (Z.to_nat i)
  else if (- len <=? i) && (i <? 0) then Some (Z.to_nat (len + i))
  else None.

Definition getitem {A : Type} (l : list A) (i : Z) : result A :=
  match py_index l i with
  | Some k => match l !! k with Some x => Ok x | None => IndexError end
  | None => IndexError
  end.

Definition setitem {A : Type} (l : list A) (i : Z) (x : A) : result (list A) :=
  match py_index l i with
  | Some k => Ok (<[k:=x]> l)
  | None => IndexError
  end.

Abbreviation matrix := (list (list Z)).

(** [a[i][j]] *)
Definition get2 (a : matrix) (i j : Z) : result Z :=
  let* row := getitem a i in getitem row j.

(** [a[i][j] = v]; the rows of the arrays written by the program are
    distinct objects ([[0] * n for _ in range(m)]), so updating one row
    leaves the others as they are. *)
Definition set2 (a : matrix) (i j v : Z) : result matrix :=
  let* row := getitem a i in
  let* row' := setitem row j v in
  setitem a i row'.

(** [range(n)] *)
Definition range (n : nat) : list Z := map Z.of_nat (seq 0 n).

(** [for x in xs: body], threading the variables the body assigns. *)
Fixpoint for_each {A S : Type} (xs : list A) (body : A -> S -> result S) (s : S)
  : result S :=
  match xs with
  | [] => Ok s
  | x :: xs' => let* s' := body x s in for_each xs' body s'
  end.

(** [any(p(x) for x in xs)]: stops at the first true element. *)
Fixpoint any_of {A : Type} (xs : list A) (p : A -> result bool) : result bool :=
  match xs with
  | [] => Ok false
  | x :: xs' => let* b := p x in if b then Ok true else any_of xs' p
  end.

(** [sum(xs)] *)
Definition sum (xs : list Z) : Z := fold_left Z.add xs 0.

(** [[[0] * n for _ in range(m)]] *)
Definition zeros (m n : nat) : matrix := replicate m (replicate n 0).

(** ** The module *)

Abbreviation cell := (Z * Z)%type.

(** [min_distance] starts at [float('inf')], here [None]. *)
Definition min_inf (cur : option Z) (v : Z) : option Z :=
  match cur with
  | None => Some v
  | Some u => Some (Z.min u v)
  end.

(** [min_distance if min_distance != float('inf') else -1] *)
Definition or_sentinel (cur : option Z) : Z :=
  match cur with
  | Some v => v
  | None => -1
  end.

Definition manhattan (h : cell) (i j : Z) : Z :=
  Z.abs (fst h - i) + Z.abs (snd h - j).

Definition _fast_total_distance (grid : matrix) (houses : list cell) : result Z :=
  let* row0 := getitem grid 0 in
  let m := length grid in
  let n := length row0 in
  let* min_distance :=
    for_each (range m) (fun i md =>
      for_each (range n) (fun j md =>
        let* g := get2 grid i j in
        if g =? 0 then
          let total_dist := sum (map (fun h => manhattan h i j) houses) in
          Ok (min_inf md total_dist)
        else Ok md) md) None in
  Ok (or_sentinel min_distance).

Record bfs_state : Type := BfsState {
  total_distances : matrix;
  reach_count : matrix;
  visit_id : matrix
}.

Definition directions : list (Z * Z) := [(0, 1); (1, 0); (0, -1); (-1, 0)].

Abbreviation entry := (Z * Z * Z)%type.

(** The body of [for dr, dc in directions], acting on [visit_id] and
    [queue]. *)
Definition visit_neighbor (grid : matrix) (m n current_visit_id : Z)
    (row col dist : Z) (d : Z * Z) (s : matrix * list entry)
  : result (matrix * list entry) :=
  let new_row := row + fst d in
  let new_col := col + snd d in
  if (0 <=? new_row) && (new_row <? m) && (0 <=? new_col) && (new_col <? n) then
    let* g := get2 grid new_row new_col in
    if (g =? 0) || (g =? 1) then
      let* v := get2 (fst s) new_row new_col in
      if negb (v =? current_visit_id) then
        let* visit := set2 (fst s) new_row new_col current_visit_id in
        Ok (visit, snd s ++ [(new_row, new_col, dist + 1)])
      else Ok s
    else Ok s
  else Ok s.

(** The first statement of the [while] body: accumulate at empty cells. *)
Definition accumulate (grid : matrix) (row col dist : Z) (st : bfs_state)
  : result (matrix * matrix) :=
  let* g := get2 grid row col in
  if g =? 0 then
    let* t := get2 (total_distances st) row col in
    let* td := set2 (total_distances st) row col (t + dist) in
    let* r := get2 (reach_count st) row col in
    let* rc := set2 (reach_count st) row col (r + 1) in
    Ok (td, rc)
  else Ok (total_distances st, reach_count st).

(** [while queue: ...] *)
Fixpoint bfs_while (fuel : nat) (grid : matrix) (m n current_visit_id : Z)
    (st : bfs_state) (queue : list entry) : result bfs_state :=
  match fuel with
  | O => OutOfFuel
  | S fuel' =>
    match queue with
    | [] => Ok st
    | (row, col, dist) :: rest =>
      let* acc := accumulate grid row col dist st in
      let* vq := for_each directions
              (visit_neighbor grid m n current_visit_id row col dist)
              (visit_id st, rest) in
      bfs_while fuel' grid m n current_visit_id
        (BfsState (fst acc) (snd acc) (fst vq)) (snd vq)
    end
  end.

(** The body of [for house_idx, (start_row, start_col) in enumerate(houses)],
    acting on the three arrays and [current_visit_id]. Every cell enters the
    queue at most once per house, so [m * n] iterations and a last test of
    the empty queue are enough. *)
Definition bfs_house (grid : matrix) (m n : nat) (h : cell) (s : bfs_state * Z)
  : result (bfs_state * Z) :=
  let st := fst s in
  let current_visit_id := snd s in
  let* visit := set2 (visit_id st) (fst h) (snd h) current_visit_id in
  let* st' := bfs_while (S (m * n)) grid (Z.of_nat m) (Z.of_nat n) current_visit_id
           (BfsState (total_distances st) (reach_count st) visit)
           [(fst h, snd h, 0)] in
  Ok (st', current_visit_id + 1).

Definition _bfs_total_distance (grid : matrix) (houses : list cell) : result Z :=
  let* row0 := getitem grid 0 in
  let m := length grid in
  let n := length row0 in
  let num_houses := Z.of_nat (length houses) in
  let* s := for_each houses (bfs_house grid m n)
         (BfsState (zeros m n) (zeros m n) (zeros m n), 1) in
  let st := fst s in
  let* min_distance :=
    for_each (range m) (fun i md =>
      for_each (range n) (fun j md =>
        let* g := get2 grid i j in
        if g =? 0 then
          let* r := get2 (reach_count st) i j in
          if r =? num_houses then
            let* t := get2 (total_distances st) i j in
            Ok (min_inf md t)
          else Ok md
        else Ok md) md) None in
  Ok (or_sentinel min_distance).

(** The generator [... for i in range(m) for j in range(n)]. *)
Definition cells (m n : nat) : list cell :=
  i ← range m; j ← range n; [(i, j)].

Definition min_total_distance (grid : matrix) : result Z :=
  match grid with
  | [] => Ok (-1)
  | [] :: _ => Ok (-1)
  | row0 :: _ =>
    let m := length grid in
    let n := length row0 in
    let* houses :=
      for_each (range m) (fun i hs =>
        for_each (range n) (fun j hs =>
          let* g := get2 grid i j in
          Ok (if g =? 1 then hs ++ [(i, j)] else hs)) hs) [] in
    match houses with
    | [] => Ok (-1)
    | _ =>
      let* has_obstacles :=
        any_of (cells m n) (fun c =>
          let* g := get2 grid (fst c) (snd c) in
          Ok (negb ((g =? 0) || (g =? 1)))) in
      if negb has_obstacles then _fast_total_distance grid houses
      else _bfs_total_distance grid houses
    end
  end.

(** ** The module over a store of row objects

    Python lists are objects, and a list of lists holds references to its
    rows. To see what a call does to the list it was handed, the module is
    embedded a second time over a store of row objects: an address is an
    index of the store, a list of lists is the list of the addresses of its
    rows, [a[i][j] = v] replaces the row object at address [a[i]], and
    [[[0] * n for _ in range(m)]] allocates [m] new row objects. *)

Module Store.

Definition deref (h : list (list Z)) (l : nat) : list Z := default [] (h !! l).

(** [a[i][j]] *)
Definition get2 (h : list (list Z)) (a : list nat) (i j : Z) : result Z :=
  let* l := getitem a i in getitem (deref h l) j.

(** [a[i][j] = v] *)
Definition set2 (h : list (list Z)) (a : list nat) (i j v : Z)
  : result (list (list Z)) :=
  let* l := getitem a i in
  let* row := setitem (deref h l) j v in
  Ok (<[l := row]> h).

(** [[[0] * n for _ in range(m)]] *)
Definition zeros (h : list (list Z)) (m n : nat) : list (list Z) * list nat :=
  (h ++ replicate m (replicate n 0), seq (length h) m).

(** The three arrays of the traversal, by reference. *)
Record arrays : Type := Arrays {
  total_distances : list nat;
  reach_count : list nat;
  visit_id : list nat
}.

Definition visit_neighbor (grid : list nat) (m n current_visit_id : Z)
    (refs : arrays) (row col dist : Z) (d : Z * Z)
    (s : list (list Z) * list entry) : result (list (list Z) * list entry) :=
  let new_row := row + fst d in
  let new_col := col + snd d in
  if (0 <=? new_row) && (new_row <? m) && (0 <=? new_col) && (new_col <? n) then
    let* g := get2 (fst s) grid new_row new_col in
    if (g =? 0) || (g =? 1) then
      let* v := get2 (fst s) (visit_id refs) new_row new_col in
      if negb (v =? current_visit_id) then
        let* h := set2 (fst s) (visit_id refs) new_row new_col current_visit_id in
        Ok (h, snd s ++ [(new_row, new_col, dist + 1)])
      else Ok s
    else Ok s
  else Ok s.

Definition accumulate (grid : list nat) (refs : arrays) (row col dist : Z)
    (h : list (list Z)) : result (list (list Z)) :=
  let* g := get2 h grid row col in
  if g =? 0 then
    let* t := get2 h (total_distances refs) row col in
    let* h1 := set2 h (total_distances refs) row col (t + dist) in
    let* r := get2 h1 (reach_count refs) row col in
    let* h2 := set2 h1 (reach_count refs) row col (r + 1) in
    Ok h2
  else Ok h.

Fixpoint bfs_while (fuel : nat) (grid : list nat) (m n current_visit_id : Z)
    (refs : arrays) (h : list (list Z)) (queue : list entry)
  : result (list (list Z)) :=
  match fuel with
  | O => OutOfFuel
  | S fuel' =>
    match queue with
    | [] => Ok h
    | (row, col, dist) :: rest =>
      let* h1 := accumulate grid refs row col dist h in
      let* hq := for_each directions
                   (visit_neighbor grid m n current_visit_id refs row col dist)
                   (h1, rest) in
      bfs_while fuel' grid m n current_visit_id refs (fst hq) (snd hq)
    end
  end.

Definition bfs_house (grid : list nat) (m n : nat) (refs : arrays) (c : cell)
    (s : list (list Z) * Z) : result (list (list Z) * Z) :=
  let current_visit_id := snd s in
  let* h := set2 (fst s) (visit_id refs) (fst c) (snd c) current_visit_id in
  let* h' := bfs_while (S (m * n)) grid (Z.of_nat m) (Z.of_nat n)
               current_visit_id refs h [(fst c, snd c, 0)] in
  Ok (h', current_visit_id + 1).

Definition _bfs_total_distance (h : list (list Z)) (grid : list nat)
    (houses : list cell) : result (list (list Z) * Z) :=
  let* l0 := getitem grid 0 in
  let m := length grid in
  let n := length (deref h l0) in
  let num_houses := Z.of_nat (length houses) in
  let total := zeros h m n in
  let reach := zeros (fst total) m n in
  let visit := zeros (fst reach) m n in
  let refs := Arrays (snd total) (snd reach) (snd visit) in
  let* s := for_each houses (bfs_house grid m n refs) (fst visit, 1) in
  let* min_distance :=
    for_each (range m) (fun i md =>
      for_each (range n) (fun j md =>
        let* g := get2 (fst s) grid i j in
        if g =? 0 then
          let* r := get2 (fst s) (reach_count refs) i j in
          if r =? num_houses then
            let* t := get2 (fst s) (total_distances refs) i j in
            Ok (min_inf md t)
          else Ok md
        else Ok md) md) None in
  Ok (fst s, or_sentinel min_distance).

(** The scanner assigns to no list element: the store is only read. *)
Definition _fast_total_distance (h : list (list Z)) (grid : list nat)
    (houses : list cell) : result Z :=
  let* l0 := getitem grid 0 in
  let m := length grid in
  let n := length (deref h l0) in
  let* min_distance :=
    for_each (range m) (fun i md =>
      for_each (range n) (fun j md =>
        let* g := get2 h grid i j in
        if g =? 0 then
          let total_dist := sum (map (fun c => manhattan c i j) houses) in
          Ok (min_inf md total_dist)
        else Ok md) md) None in
  Ok (or_sentinel min_distance).

Definition min_total_distance (h : list (list Z)) (grid : list nat)
  : result (list (list Z) * Z) :=
  match grid with
  | [] => Ok (h, -1)
  | l0 :: _ =>
    match deref h l0 with
    | [] => Ok (h, -1)
    | _ :: _ =>
      let m := length grid in
      let n := length (deref h l0) in
      let* houses :=
        for_each (range m) (fun i hs =>
          for_each (range n) (fun j hs =>
            let* g := get2 h grid i j in
            Ok (if g =? 1 then hs ++ [(i, j)] else hs)) hs) [] in
      match houses with
      | [] => Ok (h, -1)
      | _ =>
        let* has_obstacles :=
          any_of (cells m n) (fun c =>
            let* g := get2 h grid (fst c) (snd c) in
            Ok (negb ((g =? 0) || (g =? 1)))) in
        if negb has_obstacles then
          let* v := _fast_total_distance h grid houses in Ok (h, v)
        else _bfs_total_distance h grid houses
      end
    end
  end.

End Store.

(** The worked example in a store that holds its three rows, and a grid
    whose two rows are one and the same object. *)
Example store_worked :
  exists h',
    Store.min_total_distance
      [[1; 0; 2; 0; 1]; [0; 0; 0; 0; 0]; [0; 0; 1; 0; 0]] [0; 1; 2]%nat
    = Ok (h', 7).
Proof. eexists. vm_compute. reflexivity. Qed.

Example store_shared_row :
  exists h', Store.min_total_distance [[1; 0; 1]] [0; 0]%nat = Ok (h', 6).
Proof. eexists. vm_compute. reflexivity. Qed.

(** ** The benchmark runner's calls into the module

    [benchmark_algorithm] of [benchmarks/benchmarks_run.py] returns
    [(mean_time, std_time, result)]. The two times are clock readings; the
    embedding keeps [result] and the exceptions the call can end in. *)

Inductive benchmark_outcome : Type :=
| Returned (res : option Z)
| RaisedIndexError
| RaisedStatisticsError
| RanOutOfFuel.

(** [[(i, j) for i in range(len(grid)) for j in range(len(grid[0]))
      if grid[i][j] == 1]] *)
Definition house_list (grid : matrix) : result (list cell) :=
  for_each (range (length grid)) (fun i hs =>
    let* row0 := getitem grid 0 in
    for_each (range (length row0)) (fun j hs =>
      let* g := get2 grid i j in
      Ok (if g =? 1 then hs ++ [(i, j)] else hs)) hs) [].

(** One iteration of [for _ in range(num_runs)], acting on [result]. *)
Definition benchmark_run (grid : matrix) (algorithm_name : string)
    (res : option Z) : result (option Z) :=
  if String.eqb algorithm_name "main" then
    let* v := min_total_distance grid in Ok (Some v)
  else if String.eqb algorithm_name "fast" then
    let* houses := house_list grid in
    match houses with
    | [] => Ok (Some (-1))
    | _ => let* v := _fast_total_distance grid houses in Ok (Some v)
    end
  else if String.eqb algorithm_name "bfs" then
    let* houses := house_list grid in
    match houses with
    | [] => Ok (Some (-1))
    | _ => let* v := _bfs_total_distance grid houses in Ok (Some v)
    end
  else Ok res.

(** [statistics.mean(times)] raises [StatisticsError] when no run was
    timed. *)
Definition benchmark_algorithm (grid : matrix) (algorithm_name : string)
    (num_runs : Z) : benchmark_outcome :=
  match for_each (range (Z.to_nat num_runs))
          (fun _ res => benchmark_run grid algorithm_name res) None with
  | Ok res => if num_runs <=? 0 then RaisedStatisticsError else Returned res
  | IndexError => RaisedIndexError
  | OutOfFuel => RanOutOfFuel
  end.

(** ** The scenarios of the test suite *)

Example scenario_single_house :
  min_total_distance [[0;0;0];[0;1;0];[0;0;0]] = Ok 1.
Proof. vm_compute. reflexivity. Qed.

Example scenario_fenced :
  min_total_distance [[1;2;1];[2;2;2];[1;2;1]] = Ok (-1).
Proof. vm_compute. reflexivity. Qed.

Example scenario_line :
  min_total_distance [[1;0;1;0;1]] = Ok 5.
Proof. vm_compute. reflexivity. Qed.

Example scenario_unreachable_cell :
  min_total_distance [[1;2;1];[2;0;2];[1;2;1]] = Ok (-1).
Proof. vm_compute. reflexivity. Qed.

(** Coordinates outside the grid are not house coordinates of it: the
    scanner takes them as numbers, the traversal as list indices, where a
    negative index counts from the end and a large one raises. *)
Example outside_the_grid :
  _fast_total_distance [[0; 0]] [(0, -1)] = Ok 1 /\
  _bfs_total_distance [[0; 0]] [(0, -1)] = Ok 0 /\
  _fast_total_distance [[0; 0]] [(0, 5)] = Ok 4 /\
  _bfs_total_distance [[0; 0]] [(0, 5)] = IndexError.
Proof. vm_compute. repeat split; reflexivity. Qed.

Example scenario_unreachable_houses :
  min_total_distance [[1;2;0];[2;2;0];[1;2;0]] = Ok (-1).
Proof. vm_compute. reflexivity. Qed.

(** ** Arrays of a known shape *)

(** The cell [(i, j)] of an array, [0] outside it. *)
Definition cell_at (a : matrix) (c : cell) : Z :=
  match a !! Z.to_nat (fst c) with
  | Some row => default 0 (row !! Z.to_nat (snd c))
  | None => 0
  end.

(** [m] rows of [n] columns each. *)
Definition shape (m n : nat) (a : matrix) : Prop :=
  length a = m /\ Forall (fun row => length row = n) a.

Definition inb (m n : nat) (c : cell) : Prop :=
  (0 <= fst c < Z.of_nat m) /\ (0 <= snd c < Z.of_nat n).

(** The effect of [a[i][j] = v] inside the array. *)
Definition upd2 (a : matrix) (c : cell) (v : Z) : matrix :=
  alter (fun row => <[Z.to_nat (snd c) := v]> row) (Z.to_nat (fst c)) a.

Lemma bind_Ok {A B : Type} (r : result A) (k : A -> result B) (b : B) :
  bind r k = Ok b -> exists a, r = Ok a /\ k a = Ok b.
Proof. destruct r; simpl; intros H; try discriminate. eauto. Qed.

Lemma py_index_inb {A : Type} (l : list A) (i : Z) :
  0 <= i < Z.of_nat (length l) -> py_index l i = Some (Z.to_nat i).
Proof.
  intros [H0 H1]. unfold py_index.
  apply Z.leb_le in H0. apply Z.ltb_lt in H1. by rewrite H0, H1.
Qed.

Lemma getitem_inb {A : Type} (l : list A) (i : Z) (x : A) :
  0 <= i -> l !! Z.to_nat i = Some x -> getitem l i = Ok x.
Proof.
  intros H0 Hx. unfold getitem.
  rewrite py_index_inb; [by rewrite Hx |].
  apply lookup_lt_Some in Hx. lia.
Qed.

Lemma setitem_inb {A : Type} (l : list A) (i : Z) (x : A) :
  0 <= i < Z.of_nat (length l) -> setitem l i x = Ok (<[Z.to_nat i := x]> l).
Proof. intros H. unfold setitem. by rewrite py_index_inb. Qed.

Lemma shape_row (m n : nat) (a : matrix) (i : nat) :
  shape m n a -> (i < m)%nat -> exists row, a !! i = Some row /\ length row = n.
Proof.
  intros [Hm Hn] Hi.
  destruct (lookup_lt_is_Some_2 a i) as [row Hrow]; [lia |].
  exists row. split; [done |].
  rewrite Forall_forall in Hn. apply Hn.
  by eapply list_elem_of_lookup_2.
Qed.

Lemma get2_inb (m n : nat) (a : matrix) (c : cell) :
  shape m n a -> inb m n c -> get2 a (fst c) (snd c) = Ok (cell_at a c).
Proof.
  intros Ha [Hi Hj].
  destruct (shape_row m n a (Z.to_nat (fst c)) Ha) as (row & Hrow & Hlen); [lia |].
  unfold get2, cell_at. rewrite (getitem_inb a (fst c) row); [| lia | done].
  simpl. rewrite Hrow.
  destruct (lookup_lt_is_Some_2 row (Z.to_nat (snd c))) as [v Hv]; [lia |].
  rewrite (getitem_inb row (snd c) v); [| lia | done]. by rewrite Hv.
Qed.

Lemma set2_inb (m n : nat) (a : matrix) (c : cell) (v : Z) :
  shape m n a -> inb m n c -> set2 a (fst c) (snd c) v = Ok (upd2 a c v).
Proof.
  intros Ha [Hi Hj].
  destruct (shape_row m n a (Z.to_nat (fst c)) Ha) as (row & Hrow & Hlen); [lia |].
  unfold set2, upd2. rewrite (getitem_inb a (fst c) row); [| lia | done].
  simpl. rewrite setitem_inb; [| lia]. simpl.
  rewrite setitem_inb; [| destruct Ha; lia]. f_equal.
  apply list_eq. intros k.
  destruct (decide (k = Z.to_nat (fst c))) as [-> | Hne].
  - rewrite list_lookup_insert_eq; [| destruct Ha; lia].
    rewrite list_lookup_alter_eq, Hrow. done.
  - rewrite list_lookup_insert_ne; [| done].
    rewrite list_lookup_alter_ne; done.
Qed.

Lemma get2_at (m n : nat) (a : matrix) (i j : Z) :
  shape m n a -> inb m n (i, j) -> get2 a i j = Ok (cell_at a (i, j)).
Proof. apply (get2_inb m n a (i, j)). Qed.

Lemma set2_at (m n : nat) (a : matrix) (i j v : Z) :
  shape m n a -> inb m n (i, j) -> set2 a i j v = Ok (upd2 a (i, j) v).
Proof. apply (set2_inb m n a (i, j)). Qed.

Lemma shape_upd2 (m n : nat) (a : matrix) (c : cell) (v : Z) :
  shape m n a -> shape m n (upd2 a c v).
Proof.
  intros [Hm Hn]. unfold upd2. split; [by rewrite length_alter |].
  apply Forall_alter; [done |].
  intros row _ Hrow. by rewrite length_insert.
Qed.

Lemma cell_at_upd2_eq (m n : nat) (a : matrix) (c : cell) (v : Z) :
  shape m n a -> inb m n c -> cell_at (upd2 a c v) c = v.
Proof.
  intros Ha [Hi Hj].
  destruct (shape_row m n a (Z.to_nat (fst c)) Ha) as (row & Hrow & Hlen); [lia |].
  unfold cell_at, upd2. rewrite list_lookup_alter_eq, Hrow. simpl.
  rewrite list_lookup_insert_eq; [done | lia].
Qed.

Lemma cell_at_upd2_ne (a : matrix) (c c' : cell) (v : Z) :
  0 <= fst c -> 0 <= snd c -> 0 <= fst c' -> 0 <= snd c' -> c <> c' ->
  cell_at (upd2 a c v) c' = cell_at a c'.
Proof.
  intros Hi Hj Hi' Hj' Hne. unfold cell_at, upd2.
  destruct (decide (Z.to_nat (fst c) = Z.to_nat (fst c'))) as [Heq | Hrow].
  - rewrite <- Heq, list_lookup_alter_eq.
    destruct (a !! Z.to_nat (fst c)) as [row |]; [| done]. simpl.
    rewrite list_lookup_insert_ne; [done |].
    intros Hcol. apply Hne. destruct c, c'; simpl in *. f_equal; lia.
  - rewrite list_lookup_alter_ne; done.
Qed.

Lemma shape_zeros (m n : nat) : shape m n (zeros m n).
Proof.
  split; [apply length_replicate |].
  apply Forall_replicate. apply length_replicate.
Qed.

Lemma cell_at_zeros (m n : nat) (c : cell) : cell_at (zeros m n) c = 0.
Proof.
  unfold cell_at, zeros.
  destruct (replicate m (replicate n 0) !! Z.to_nat (fst c)) as [row |] eqn:Hrow;
    [| done].
  apply lookup_replicate in Hrow as [-> _].
  destruct (replicate n 0 !! Z.to_nat (snd c)) as [v |] eqn:Hv; [| done].
  by apply lookup_replicate in Hv as [-> _].
Qed.

(** ** Loops *)

Lemma for_each_app {A S : Type} (xs ys : list A) (body : A -> S -> result S) (s : S) :
  for_each (xs ++ ys) body s = let* s' := for_each xs body s in for_each ys body s'.
Proof.
  revert s. induction xs as [| x xs IH]; intros s; simpl; [done |].
  destruct (body x s); simpl; auto.
Qed.

Lemma range_S (n : nat) : range (S n) = range n ++ [Z.of_nat n].
Proof. unfold range. by rewrite seq_S, map_app. Qed.

Lemma elem_of_range (n : nat) (i : Z) : i ∈ range n <-> 0 <= i < Z.of_nat n.
Proof.
  unfold range. rewrite list_elem_of_In, in_map_iff. split.
  - intros (k & <- & Hk). apply in_seq in Hk. lia.
  - intros Hi. exists (Z.to_nat i). split; [lia |]. apply in_seq. lia.
Qed.

Lemma length_range (n : nat) : length (range n) = n.
Proof. unfold range. by rewrite length_map, length_seq. Qed.

Lemma NoDup_range (n : nat) : NoDup (range n).
Proof.
  unfold range. apply NoDup_fmap_2; [intros ? ? ?; lia |]. apply NoDup_seq.
Qed.

(** A loop over [range(n)] whose body keeps an invariant indexed by the
    number of iterations done. *)
Lemma for_each_range_inv {S : Type} (n : nat) (body : Z -> S -> result S)
    (P : nat -> S -> Prop) (s0 : S) :
  P 0%nat s0 ->
  (forall k s, (k < n)%nat -> P k s ->
     exists s', body (Z.of_nat k) s = Ok s' /\ P (Datatypes.S k) s') ->
  exists s', for_each (range n) body s0 = Ok s' /\ P n s'.
Proof.
  intros H0 Hstep. induction n as [| n IH].
  - exists s0. by split.
  - destruct IH as (s1 & Hs1 & HP1); [intros k s Hk; apply Hstep; lia |].
    destruct (Hstep n s1) as (s2 & Hs2 & HP2); [lia | done |].
    exists s2. rewrite range_S, for_each_app, Hs1. simpl. rewrite Hs2. by split.
Qed.

(** A loop whose body cannot fail is a left fold. *)
Lemma for_each_pure {A S : Type} (xs : list A) (body : A -> S -> result S)
    (step : S -> A -> S) (s : S) :
  (forall x s, x ∈ xs -> body x s = Ok (step s x)) ->
  for_each xs body s = Ok (foldl step s xs).
Proof.
  revert s. induction xs as [| x xs IH]; intros s Hbody; simpl; [done |].
  rewrite Hbody; [| left]. simpl. apply IH. intros y s' Hy. apply Hbody. by right.
Qed.

Lemma foldl_bind {A B S : Type} (step : S -> B -> S) (g : A -> list B)
    (xs : list A) (s : S) :
  foldl step s (xs ≫= g) = foldl (fun s x => foldl step s (g x)) s xs.
Proof.
  revert s. induction xs as [| x xs IH]; intros s; simpl; [done |].
  by rewrite foldl_app, IH.
Qed.

Lemma elem_of_cells (m n : nat) (c : cell) : c ∈ cells m n <-> inb m n c.
Proof.
  unfold cells, inb. rewrite list_elem_of_bind. split.
  - intros (i & Hc & Hi). apply list_elem_of_bind in Hc as (j & Hc & Hj).
    apply list_elem_of_singleton in Hc as ->. simpl.
    by rewrite <- !elem_of_range.
  - intros [Hi Hj]. exists (fst c). rewrite elem_of_range. split; [| done].
    apply list_elem_of_bind. exists (snd c). rewrite elem_of_range. split; [| done].
    destruct c. apply list_elem_of_singleton. done.
Qed.

Lemma length_cells (m n : nat) : length (cells m n) = (m * n)%nat.
Proof.
  unfold cells. induction m as [| m IH]; [done |].
  rewrite range_S, bind_app, length_app, IH. simpl. rewrite app_nil_r.
  assert (forall l : list Z, length (l ≫= fun j => [(Z.of_nat m, j)]) = length l)
    as ->; [| rewrite length_range; lia].
  intros l. induction l; simpl; [done | by f_equal].
Qed.

(** The two nested loops over the cells of the grid, when the body cannot
    fail inside the grid. *)
Lemma scan_cells {S : Type} (m n : nat) (body : Z -> Z -> S -> result S)
    (step : S -> cell -> S) (s0 : S) :
  (forall c s, inb m n c -> body (fst c) (snd c) s = Ok (step s c)) ->
  for_each (range m) (fun i s => for_each (range n) (fun j s => body i j s) s) s0
  = Ok (foldl step s0 (cells m n)).
Proof.
  intros Hbody. unfold cells. rewrite foldl_bind.
  apply for_each_pure. intros i s Hi.
  rewrite foldl_bind. apply for_each_pure. intros j s' Hj. simpl.
  apply (Hbody (i, j)). split; simpl; by apply elem_of_range.
Qed.

(** ** Minimum of a scan *)

(** One iteration of a scan for the minimum of [val] over the cells
    selected by [cand]. *)
Definition scan_step (cand : cell -> bool) (val : cell -> Z)
    (md : option Z) (c : cell) : option Z :=
  if cand c then min_inf md (val c) else md.

Lemma scan_min_spec (cand : cell -> bool) (val : cell -> Z) (l : list cell)
    (md : option Z) :
  match foldl (scan_step cand val) md l with
  | None => md = None /\ forall c, c ∈ l -> cand c = false
  | Some v =>
      (md = Some v \/ exists c, c ∈ l /\ cand c = true /\ val c = v) /\
      (forall u, md = Some u -> v <= u) /\
      (forall c, c ∈ l -> cand c = true -> v <= val c)
  end.
Proof.
  revert md. induction l as [| c l IH]; intros md; simpl.
  - destruct md as [v |].
    + split; [by left |]. split; [intros u [= ->]; lia |].
      intros c Hc. by apply elem_of_nil in Hc.
    + split; [done |]. intros c Hc. by apply elem_of_nil in Hc.
  - specialize (IH (scan_step cand val md c)).
    destruct (foldl (scan_step cand val) (scan_step cand val md c) l) as [v |].
    + destruct IH as (Hatt & Hle & Hall). unfold scan_step in Hatt, Hle.
      destruct (cand c) eqn:Hc.
      * split; [| split].
        -- destruct Hatt as [Hmd | (c' & Hin & Hc' & Hv)].
           ++ destruct md as [u |]; simpl in Hmd; injection Hmd as Hmd.
              ** destruct (Z.min_spec u (val c)) as [[_ Hm] | [_ Hm]];
                   rewrite Hm in Hmd.
                 --- left. by subst.
                 --- right. exists c. split; [left | done].
              ** right. exists c. split; [left | done].
           ++ right. exists c'. split; [by right | done].
        -- intros u ->. specialize (Hle (Z.min u (val c)) eq_refl). lia.
        -- intros c' Hin Hc'. apply elem_of_cons in Hin as [-> | Hin]; [| by apply Hall].
           destruct md as [u |]; simpl in Hle.
           ++ specialize (Hle _ eq_refl). lia.
           ++ specialize (Hle _ eq_refl). lia.
      * split; [| split].
        -- destruct Hatt as [Hmd | (c' & Hin & Hc' & Hv)]; [by left |].
           right. exists c'. split; [by right | done].
        -- done.
        -- intros c' Hin Hc'. apply elem_of_cons in Hin as [-> | Hin]; [congruence |].
           by apply Hall.
    + destruct IH as (Hmd & Hall). unfold scan_step in Hmd.
      destruct (cand c) eqn:Hc.
      * destruct md; discriminate.
      * split; [done |]. intros c' Hin.
        apply elem_of_cons in Hin as [-> | Hin]; [done | by apply Hall].
Qed.

(** [v] is the least [u] with [R c u] for some cell [c], or the sentinel
    [-1] when [R] relates nothing. *)
Definition minimum_or_sentinel (R : cell -> Z -> Prop) (v : Z) : Prop :=
  (v = -1 /\ forall c u, ~ R c u) \/
  ((exists c, R c v) /\ forall c u, R c u -> v <= u).

Lemma scan_minimum (cand : cell -> bool) (val : cell -> Z) (m n : nat)
    (R : cell -> Z -> Prop) :
  (forall c u, R c u <-> inb m n c /\ cand c = true /\ val c = u) ->
  minimum_or_sentinel R (or_sentinel (foldl (scan_step cand val) None (cells m n))).
Proof.
  intros HR. pose proof (scan_min_spec cand val (cells m n) None) as H.
  destruct (foldl (scan_step cand val) None (cells m n)) as [v |]; simpl.
  - destruct H as (Hatt & _ & Hall). right. split.
    + destruct Hatt as [? | (c & Hin & Hc & Hv)]; [done |].
      exists c. apply HR. by rewrite <- elem_of_cells.
    + intros c u (Hin & Hc & <-)%HR. apply Hall; [by apply elem_of_cells | done].
  - destruct H as (_ & Hall). left. split; [done |].
    intros c u (Hin & Hc & _)%HR. apply elem_of_cells in Hin.
    specialize (Hall c Hin). congruence.
Qed.

(** ** Grids *)

(** Every row is as long as the first one. *)
Definition rectangular (grid : matrix) : Prop :=
  Forall (fun row => length row = length (default [] (head grid))) grid.

(** [len(grid[0])], for a grid with a first row. *)
Definition width (grid : matrix) : nat := length (default [] (head grid)).

(** The cells of the grid. *)
Definition in_grid (grid : matrix) (c : cell) : Prop :=
  inb (length grid) (width grid) c.

Lemma getitem_first (grid : matrix) :
  grid <> [] -> getitem grid 0 = Ok (default [] (head grid)).
Proof.
  destruct grid as [| row0 rest]; [done |]. intros _.
  by apply getitem_inb.
Qed.

Lemma rectangular_shape (grid : matrix) :
  rectangular grid -> shape (length grid) (width grid) grid.
Proof. intros H. by split. Qed.

Lemma sum_from (l : list Z) (a : Z) : fold_left Z.add l a = a + sum l.
Proof.
  unfold sum. revert a. induction l as [| x l IH]; intros a; simpl; [lia |].
  rewrite (IH (a + x)), (IH (0 + x)). lia.
Qed.

Lemma sum_cons (x : Z) (l : list Z) : sum (x :: l) = x + sum l.
Proof. unfold sum at 1. simpl. apply sum_from. Qed.

Lemma sum_app (l k : list Z) : sum (l ++ k) = sum l + sum k.
Proof.
  induction l as [| x l IH]; simpl; [done |]. rewrite !sum_cons, IH. lia.
Qed.

(** The total Manhattan distance from the houses to a cell. *)
Definition manhattan_sum (houses : list cell) (c : cell) : Z :=
  sum (map (fun h => manhattan h (fst c) (snd c)) houses).

(** What the scan of [_fast_total_distance] computes. *)
Definition fast_scan (grid : matrix) (houses : list cell) : Z :=
  or_sentinel
    (foldl (scan_step (fun c => cell_at grid c =? 0) (manhattan_sum houses))
       None (cells (length grid) (width grid))).

Lemma fast_total_distance_scan (grid : matrix) (houses : list cell) :
  rectangular grid -> grid <> [] ->
  _fast_total_distance grid houses = Ok (fast_scan grid houses).
Proof.
  intros Hrect Hne. unfold _fast_total_distance.
  rewrite getitem_first; [| done]. simpl.
  rewrite (scan_cells (length grid) (width grid)
             (fun i j md =>
                let* g := get2 grid i j in
                if g =? 0
                then Ok (min_inf md (sum (map (fun h => manhattan h i j) houses)))
                else Ok md)
             (scan_step (fun c => cell_at grid c =? 0) (manhattan_sum houses))).
  - done.
  - intros c md Hc.
    rewrite (get2_inb _ _ grid c (rectangular_shape grid Hrect) Hc). simpl.
    unfold scan_step. by destruct (cell_at grid c =? 0).
Qed.

(** The statement of the scanner: the result is the least total Manhattan
    distance over the empty cells of the grid, [-1] without any. *)
Definition fast_spec (grid : matrix) (houses : list cell) (v : Z) : Prop :=
  minimum_or_sentinel
    (fun c u => in_grid grid c /\ cell_at grid c = 0 /\ u = manhattan_sum houses c) v.

Lemma fast_scan_spec (grid : matrix) (houses : list cell) :
  fast_spec grid houses (fast_scan grid houses).
Proof.
  apply scan_minimum. intros c u. unfold in_grid. rewrite Z.eqb_eq.
  split; [intros (? & ? & ->) | intros (? & ? & <-)]; auto.
Qed.

(** ** Walks through the grid *)

(** A cell that can be entered: inside the grid, empty or a house. *)
Definition open_cell (grid : matrix) (c : cell) : Prop :=
  in_grid grid c /\ (cell_at grid c = 0 \/ cell_at grid c = 1).

(** One of the four unit steps. *)
Definition adjacent (a b : cell) : Prop :=
  exists d, d ∈ directions /\ b = (fst a + fst d, snd a + snd d).

(** [walk grid a b k]: [k] unit steps lead from [a] to [b], each of them
    entering an open cell. *)
Inductive walk (grid : matrix) (a : cell) : cell -> nat -> Prop :=
| walk_here : walk grid a a 0
| walk_step (b c : cell) (k : nat) :
    walk grid a b k -> adjacent b c -> open_cell grid c -> walk grid a c (S k).

Definition reachable (grid : matrix) (a b : cell) : Prop :=
  exists k, walk grid a b k.

(** [k] is the shortest-path edge count from [a] to [b]. *)
Definition shortest (grid : matrix) (a b : cell) (k : nat) : Prop :=
  walk grid a b k /\ forall j, walk grid a b j -> (k <= j)%nat.

Lemma shortest_unique (grid : matrix) (a b : cell) (k k' : nat) :
  shortest grid a b k -> shortest grid a b k' -> k = k'.
Proof.
  intros [Hw Hmin] [Hw' Hmin']. apply Hmin in Hw'. apply Hmin' in Hw. lia.
Qed.

Lemma shortest_here (grid : matrix) (a : cell) : shortest grid a a 0.
Proof. split; [constructor | intros; lia]. Qed.

Lemma walk_zero (grid : matrix) (a b : cell) : walk grid a b 0 -> b = a.
Proof. by inversion 1. Qed.

(** ** The queue of the traversal *)

(** The distances in the queue take at most two consecutive values, the
    smaller ones first. *)
Definition levels_from (d : Z) (q : list entry) : Prop :=
  exists q1 q2, q = q1 ++ q2 /\
    Forall (fun e => snd e = d) q1 /\ Forall (fun e => snd e = d + 1) q2.

Definition levels (q : list entry) : Prop := exists d, levels_from d q.

Lemma levels_pop (c : cell) (d : Z) (rest : list entry) :
  levels ((c, d) :: rest) -> levels_from d rest.
Proof.
  intros (d0 & q1 & q2 & Hq & H1 & H2).
  destruct q1 as [| e q1]; simpl in Hq.
  - subst q2. apply Forall_cons in H2 as [Hd H2]. simpl in Hd.
    exists rest, []. rewrite app_nil_r. split; [done |]. split; [| done].
    eapply Forall_impl; [exact H2 |]. simpl. intros e He. lia.
  - injection Hq as <- ->. apply Forall_cons in H1 as [Hd H1]. simpl in Hd.
    subst d0. by exists q1, q2.
Qed.

Lemma levels_from_ge (d : Z) (q : list entry) (e : entry) :
  levels_from d q -> e ∈ q -> d <= snd e.
Proof.
  intros (q1 & q2 & -> & H1 & H2) He.
  rewrite Forall_forall in H1, H2.
  apply elem_of_app in He as [He | He]; [apply H1 in He | apply H2 in He]; lia.
Qed.

Lemma levels_from_push (d : Z) (q : list entry) (new : list cell) :
  levels_from d q -> levels_from d (q ++ ((fun x => (x, d + 1)) <$> new)).
Proof.
  intros (q1 & q2 & -> & H1 & H2).
  exists q1, (q2 ++ ((fun x => (x, d + 1)) <$> new)).
  rewrite app_assoc. split; [done |]. split; [done |].
  apply Forall_app. split; [done |].
  apply Forall_fmap, Forall_forall. done.
Qed.

(** ** One traversal *)

Lemma bounds_check (grid : matrix) (x : cell) :
  (0 <=? fst x) && (fst x <? Z.of_nat (length grid)) &&
  (0 <=? snd x) && (snd x <? Z.of_nat (width grid)) = true <-> in_grid grid x.
Proof.
  unfold in_grid, inb.
  rewrite !andb_true_iff, !Z.leb_le, !Z.ltb_lt. tauto.
Qed.

Lemma open_check (grid : matrix) (x : cell) :
  in_grid grid x ->
  (cell_at grid x =? 0) || (cell_at grid x =? 1) = true <-> open_cell grid x.
Proof.
  intros Hx. unfold open_cell. rewrite orb_true_iff, !Z.eqb_eq. tauto.
Qed.

Section Traversal.
Variable grid : matrix.
Hypothesis Hrect : rectangular grid.
(** The house the traversal starts from, and [current_visit_id]. *)
Variable s : cell.
Variable g : Z.

Local Abbreviation m := (length grid).
Local Abbreviation n := (width grid).

(** [visit'] differs from [visit] only by cells now tagged [g]. *)
Definition marks (visit visit' : matrix) : Prop :=
  forall x, in_grid grid x ->
    cell_at visit' x = g \/ cell_at visit' x = cell_at visit x.

(** The cells found while the neighbours of a popped entry are visited,
    with the distance they are queued with. *)
Definition enqueue (d : Z) (new : list cell) : list entry :=
  (fun x => (x, d + 1)) <$> new.

Section Neighbors.
(** The popped entry, the rest of the queue and the cells visited when
    it was popped. *)
Variables row col d : Z.
Variable rest : list entry.
Variable vs0 : list cell.

Definition found (visit : matrix) (new : list cell) : Prop :=
  shape m n visit /\
  (forall x, in_grid grid x -> (cell_at visit x = g <-> x ∈ new \/ x ∈ vs0)) /\
  NoDup new /\
  (forall x, x ∈ new ->
     (x ∉ vs0) /\ adjacent (row, col) x /\ open_cell grid x).

Lemma visit_neighbor_spec (dir : Z * Z) (visit : matrix) (new : list cell) :
  dir ∈ directions -> found visit new ->
  exists visit' ext,
    visit_neighbor grid (Z.of_nat m) (Z.of_nat n) g row col d dir
      (visit, rest ++ enqueue d new)
    = Ok (visit', rest ++ enqueue d (new ++ ext)) /\
    found visit' (new ++ ext) /\ marks visit visit' /\
    (open_cell grid (row + fst dir, col + snd dir) ->
       (row + fst dir, col + snd dir) ∈ new ++ ext \/
       (row + fst dir, col + snd dir) ∈ vs0).
Proof.
  intros Hdir (Hshape & Hvis & Hnd & Hnew).
  set (x := (row + fst dir, col + snd dir)).
  assert (Hstay : found visit (new ++ []) /\ marks visit visit).
  { rewrite app_nil_r. split; [done |]. intros y _. by right. }
  unfold visit_neighbor. simpl.
  pose proof (bounds_check grid x) as Hb. simpl in Hb.
  destruct ((0 <=? row + fst dir) && (row + fst dir <? Z.of_nat m) &&
            (0 <=? col + snd dir) && (col + snd dir <? Z.of_nat n)) eqn:Hin.
  2: { exists visit, []. rewrite app_nil_r. split; [done |].
       rewrite app_nil_r in Hstay. destruct Hstay. split; [done |].
       split; [done |]. intros [Hx _]. apply Hb in Hx. discriminate. }
  assert (Hx : in_grid grid x) by by apply Hb.
  rewrite (get2_at m n grid _ _ (rectangular_shape grid Hrect) Hx). simpl.
  change (row + fst dir, col + snd dir) with x.
  pose proof (open_check grid x Hx) as Ho.
  destruct ((cell_at grid x =? 0) || (cell_at grid x =? 1)) eqn:Hopen.
  2: { exists visit, []. rewrite app_nil_r. split; [done |].
       rewrite app_nil_r in Hstay. destruct Hstay. split; [done |].
       split; [done |]. intros Hx'. apply Ho in Hx'. discriminate. }
  assert (Hxo : open_cell grid x) by by apply Ho.
  rewrite (get2_at m n visit _ _ Hshape Hx). simpl.
  change (row + fst dir, col + snd dir) with x.
  destruct (cell_at visit x =? g) eqn:Hv; simpl.
  { exists visit, []. rewrite app_nil_r. split; [done |].
    rewrite app_nil_r in Hstay. destruct Hstay. split; [done |].
    split; [done |]. intros _. apply Hvis; [done |]. by apply Z.eqb_eq. }
  apply Z.eqb_neq in Hv.
  rewrite (set2_at m n visit _ _ g Hshape Hx). simpl.
  change (row + fst dir, col + snd dir) with x.
  exists (upd2 visit x g), [x]. split; [| split; [| split]].
  - unfold enqueue. by rewrite fmap_app, app_assoc.
  - assert (Hfresh : (x ∉ new) /\ (x ∉ vs0)).
    { split; intros Hmem; apply Hv, Hvis; auto. }
    split; [by apply shape_upd2 |]. split; [| split].
    + intros y Hy. rewrite elem_of_app, list_elem_of_singleton.
      destruct (decide (y = x)) as [-> | Hne].
      * rewrite (cell_at_upd2_eq m n); [tauto | done | done].
      * rewrite cell_at_upd2_ne;
          [| apply Hx | apply Hx | apply Hy | apply Hy | congruence].
        rewrite (Hvis y Hy). tauto.
    + apply NoDup_app. split; [done |]. split; [| apply NoDup_singleton].
      intros y Hy ->%list_elem_of_singleton. tauto.
    + intros y [Hy | ->%list_elem_of_singleton]%elem_of_app; [by apply Hnew |].
      split; [tauto |]. split; [| done]. by exists dir.
  - intros y Hy. destruct (decide (y = x)) as [-> | Hne].
    + left. by apply (cell_at_upd2_eq m n).
    + right. apply cell_at_upd2_ne;
        [apply Hx | apply Hx | apply Hy | apply Hy | congruence].
  - intros _. left. rewrite elem_of_app, list_elem_of_singleton. by right.
Qed.

Lemma neighbors_loop (ds : list (Z * Z)) (visit : matrix) (new : list cell) :
  ds ⊆ directions -> found visit new ->
  exists visit' ext,
    for_each ds (visit_neighbor grid (Z.of_nat m) (Z.of_nat n) g row col d)
      (visit, rest ++ enqueue d new)
    = Ok (visit', rest ++ enqueue d (new ++ ext)) /\
    found visit' (new ++ ext) /\ marks visit visit' /\
    (forall dir, dir ∈ ds -> open_cell grid (row + fst dir, col + snd dir) ->
       (row + fst dir, col + snd dir) ∈ new ++ ext \/
       (row + fst dir, col + snd dir) ∈ vs0).
Proof.
  revert visit new. induction ds as [| dir ds IH]; intros visit new Hds Hfound.
  - exists visit, []. rewrite app_nil_r. split; [done |]. split; [done |].
    split; [intros y _; by right |]. intros dir Hdir. by apply elem_of_nil in Hdir.
  - destruct (visit_neighbor_spec dir visit new) as
      (visit1 & ext1 & Hrun1 & Hfound1 & Hmarks1 & Hdir1);
      [apply Hds; left | done |].
    destruct (IH visit1 (new ++ ext1)) as
      (visit2 & ext2 & Hrun2 & Hfound2 & Hmarks2 & Hdir2);
      [intros y Hy; apply Hds; by right | done |].
    exists visit2, (ext1 ++ ext2). rewrite app_assoc.
    split; [| split; [| split]].
    + simpl. rewrite Hrun1. simpl. exact Hrun2.
    + done.
    + intros y Hy. destruct (Hmarks2 y Hy) as [? | Heq]; [by left |].
      rewrite Heq. by apply Hmarks1.
    + intros dir' [-> | Hdir']%elem_of_cons Hopen.
      * destruct (Hdir1 Hopen) as [Hin | ?]; [| by right].
        left. apply elem_of_app. by left.
      * by apply Hdir2.
Qed.
End Neighbors.

(** The invariant of the [while] loop: [vs] lists the cells tagged [g],
    the queue holds visited cells with their shortest distance from [s],
    each once, and every visited cell that left the queue has its open
    neighbours visited. *)
Record bfs_inv (vs : list cell) (visit : matrix) (q : list entry) : Prop := {
  inv_shape : shape m n visit;
  inv_visited : forall x, x ∈ vs <-> in_grid grid x /\ cell_at visit x = g;
  inv_nodup : NoDup vs;
  inv_start : s ∈ vs;
  inv_queue : forall e, e ∈ q ->
    fst e ∈ vs /\ exists k, snd e = Z.of_nat k /\ shortest grid s (fst e) k;
  inv_queue_nodup : NoDup (fst <$> q);
  inv_closed : forall x y,
    x ∈ vs -> (x ∉ fst <$> q) -> adjacent x y -> open_cell grid y -> y ∈ vs;
  inv_levels : levels q
}.

Lemma visited_bound (vs : list cell) (visit : matrix) (q : list entry) :
  bfs_inv vs visit q -> (length vs <= m * n)%nat.
Proof.
  intros Hinv. rewrite <- length_cells. apply submseteq_length.
  apply NoDup_submseteq; [apply (inv_nodup _ _ _ Hinv) |].
  intros x Hx. apply elem_of_cells. by apply (inv_visited _ _ _ Hinv).
Qed.

(** Every cell closer to [s] than the head of the queue is visited. *)
Lemma near_cells_visited (vs : list cell) (visit : matrix) (c : cell) (k : nat)
    (rest : list entry) (x : cell) (j : nat) :
  bfs_inv vs visit ((c, Z.of_nat k) :: rest) ->
  walk grid s x j -> (j <= k)%nat -> x ∈ vs.
Proof.
  intros Hinv Hwalk. induction Hwalk as [| b x j Hwalk IH Hadj Hopen]; intros Hj.
  - apply (inv_start _ _ _ Hinv).
  - apply (inv_closed _ _ _ Hinv b x); [apply IH; lia | | done | done].
    intros (e & Hb & He)%list_elem_of_fmap.
    destruct (inv_queue _ _ _ Hinv e He) as (_ & ke & Hke & Hshort).
    rewrite <- Hb in Hshort. destruct Hshort as [_ Hmin]. apply Hmin in Hwalk.
    apply elem_of_cons in He as [-> | He]; simpl in Hke; [lia |].
    pose proof (levels_from_ge _ _ e (levels_pop _ _ _ (inv_levels _ _ _ Hinv)) He).
    lia.
Qed.

(** An unvisited open neighbour of the head of the queue is one step
    further from [s] than the head. *)
Lemma new_cell_shortest (vs : list cell) (visit : matrix) (c : cell) (k : nat)
    (rest : list entry) (x : cell) :
  bfs_inv vs visit ((c, Z.of_nat k) :: rest) ->
  x ∉ vs -> adjacent c x -> open_cell grid x -> shortest grid s x (S k).
Proof.
  intros Hinv Hx Hadj Hopen.
  destruct (inv_queue _ _ _ Hinv (c, Z.of_nat k)) as (_ & k' & Hk' & Hwalk & _);
    [left |]. simpl in Hk', Hwalk. apply Nat2Z.inj in Hk' as <-.
  split; [by apply (walk_step grid s c x k) |].
  intros j Hj. destruct (decide (j <= k)%nat) as [Hle | ?]; [| lia].
  exfalso. apply Hx. by eapply near_cells_visited.
Qed.

Lemma fst_enqueue (d : Z) (new : list cell) : fst <$> enqueue d new = new.
Proof.
  unfold enqueue. induction new as [| x new IH]; simpl; [done | by f_equal].
Qed.

Lemma elem_of_enqueue (d : Z) (new : list cell) (e : entry) :
  e ∈ enqueue d new <-> fst e ∈ new /\ snd e = d + 1.
Proof.
  unfold enqueue. rewrite list_elem_of_fmap. split.
  - intros (x & -> & Hx). done.
  - intros [Hx Hd]. exists (fst e). split; [| done]. destruct e; simpl in *. by subst.
Qed.

(** The invariant after the neighbours of the popped entry are visited. *)
Lemma bfs_inv_step (vs : list cell) (visit : matrix) (row col : Z) (k : nat)
    (rest : list entry) (visit' : matrix) (new : list cell) :
  bfs_inv vs visit ((row, col, Z.of_nat k) :: rest) ->
  found row col vs visit' new ->
  (forall dir, dir ∈ directions ->
     open_cell grid (row + fst dir, col + snd dir) ->
     (row + fst dir, col + snd dir) ∈ new \/ (row + fst dir, col + snd dir) ∈ vs) ->
  bfs_inv (new ++ vs) visit' (rest ++ enqueue (Z.of_nat k) new).
Proof.
  intros Hinv (Hshape & Hvis & Hnd & Hnew) Hdirs.
  assert (Hrest : forall e, e ∈ rest -> fst e ∈ vs).
  { intros e He. apply (inv_queue _ _ _ Hinv). by right. }
  pose proof (inv_queue_nodup _ _ _ Hinv) as Hqnd. simpl in Hqnd.
  apply NoDup_cons in Hqnd as [Hhead Hqnd].
  split.
  - done.
  - intros x. rewrite elem_of_app. split.
    + intros [Hx | Hx].
      * split; [apply (Hnew x Hx) |]. apply Hvis; [apply (Hnew x Hx) | by left].
      * apply (inv_visited _ _ _ Hinv) in Hx as Hx'. split; [apply Hx' |].
        apply Hvis; [apply Hx' | by right].
    + intros [Hx Hg]. by apply Hvis.
  - apply NoDup_app. split; [done |]. split; [| apply (inv_nodup _ _ _ Hinv)].
    intros x Hx. apply (Hnew x Hx).
  - apply elem_of_app. right. apply (inv_start _ _ _ Hinv).
  - intros e [He | He]%elem_of_app.
    + destruct (inv_queue _ _ _ Hinv e) as [Hin Hk]; [by right |].
      split; [| done]. apply elem_of_app. by right.
    + apply elem_of_enqueue in He as [Hx Hd].
      split; [apply elem_of_app; by left |].
      exists (S k). split; [lia |].
      destruct (Hnew _ Hx) as (Hfresh & Hadj & Hopen).
      by eapply new_cell_shortest.
  - rewrite fmap_app, fst_enqueue. apply NoDup_app. split; [done |]. split; [| done].
    intros x (e & -> & He)%list_elem_of_fmap Hx.
    destruct (Hnew _ Hx) as [Hfresh _]. apply Hfresh. by apply Hrest.
  - intros x y Hx Hq Hadj Hopen. rewrite fmap_app, fst_enqueue in Hq.
    apply not_elem_of_app in Hq as [Hq1 Hq2].
    apply elem_of_app in Hx as [Hx | Hx]; [done |].
    apply elem_of_app.
    destruct (decide (x = (row, col))) as [-> | Hne].
    + destruct Hadj as (dir & Hdir & ->). simpl. by apply Hdirs.
    + right. apply (inv_closed _ _ _ Hinv x y); [done | | done | done].
      simpl. intros [-> | Hin]%elem_of_cons; done.
  - exists (Z.of_nat k). apply levels_from_push.
    apply (levels_pop (row, col)). apply (inv_levels _ _ _ Hinv).
Qed.

(** The first statement of the loop body. *)
Lemma accumulate_spec (row col d : Z) (st : bfs_state) :
  in_grid grid (row, col) ->
  shape m n (total_distances st) -> shape m n (reach_count st) ->
  exists total reach,
    accumulate grid row col d st = Ok (total, reach) /\
    shape m n total /\ shape m n reach /\
    (forall x, in_grid grid x -> x <> (row, col) ->
       cell_at total x = cell_at (total_distances st) x /\
       cell_at reach x = cell_at (reach_count st) x) /\
    (cell_at grid (row, col) = 0 ->
       cell_at total (row, col) = cell_at (total_distances st) (row, col) + d /\
       cell_at reach (row, col) = cell_at (reach_count st) (row, col) + 1).
Proof.
  intros Hc Htotal Hreach. unfold accumulate.
  rewrite (get2_at m n grid _ _ (rectangular_shape grid Hrect) Hc). simpl.
  destruct (cell_at grid (row, col) =? 0) eqn:Hg.
  - rewrite (get2_at m n _ _ _ Htotal Hc). simpl.
    rewrite (set2_at m n _ _ _ _ Htotal Hc). simpl.
    rewrite (get2_at m n _ _ _ Hreach Hc). simpl.
    rewrite (set2_at m n _ _ _ _ Hreach Hc). simpl.
    eexists _, _. split; [done |].
    split; [by apply shape_upd2 |]. split; [by apply shape_upd2 |]. split.
    + intros x Hx Hne.
      split; apply cell_at_upd2_ne; try apply Hc; try apply Hx; congruence.
    + intros _. split; by apply (cell_at_upd2_eq m n).
  - exists (total_distances st), (reach_count st). split; [done |].
    split; [done |]. split; [done |]. split; [done |].
    apply Z.eqb_neq in Hg. done.
Qed.

(** With an empty queue the visited cells are closed under steps, so
    they include every cell a walk from [s] leads to. *)
Lemma reachable_visited (vs : list cell) (visit : matrix) (x : cell) :
  bfs_inv vs visit [] -> reachable grid s x -> x ∈ vs.
Proof.
  intros Hinv [j Hwalk]. induction Hwalk as [| b x j Hwalk IH Hadj Hopen].
  - apply (inv_start _ _ _ Hinv).
  - apply (inv_closed _ _ _ Hinv b x); [done | | done | done].
    simpl. apply not_elem_of_nil.
Qed.

(** A cell still to be tallied: queued, or not yet visited, at distance
    [k] from [s]. *)
Definition pending (vs : list cell) (q : list entry) (x : cell) (k : nat) : Prop :=
  (x, Z.of_nat k) ∈ q \/ ((x ∉ vs) /\ shortest grid s x k).

(** What the rest of the loop does to the accumulators of cell [x]. *)
Definition tallied (vs : list cell) (q : list entry)
    (total reach total' reach' : matrix) (x : cell) : Prop :=
  (exists k, pending vs q x k /\
     cell_at total' x = cell_at total x + Z.of_nat k /\
     cell_at reach' x = cell_at reach x + 1) \/
  ((x ∉ fst <$> q) /\ (x ∈ vs \/ ~ reachable grid s x) /\
     cell_at total' x = cell_at total x /\ cell_at reach' x = cell_at reach x).

Lemma bfs_while_cons (fuel : nat) (st : bfs_state) (row col dist : Z)
    (rest : list entry) :
  bfs_while (S fuel) grid (Z.of_nat m) (Z.of_nat n) g st ((row, col, dist) :: rest)
  = let* acc := accumulate grid row col dist st in
    let* vq := for_each directions
                 (visit_neighbor grid (Z.of_nat m) (Z.of_nat n) g row col dist)
                 (visit_id st, rest) in
    bfs_while fuel grid (Z.of_nat m) (Z.of_nat n) g
      (BfsState (fst acc) (snd acc) (fst vq)) (snd vq).
Proof. reflexivity. Qed.

Lemma bfs_while_spec (fuel : nat) :
  forall (vs : list cell) (visit : matrix) (q : list entry) (total reach : matrix),
  bfs_inv vs visit q -> shape m n total -> shape m n reach ->
  (m * n + length q < fuel + length vs)%nat ->
  exists st',
    bfs_while fuel grid (Z.of_nat m) (Z.of_nat n) g
      (BfsState total reach visit) q = Ok st' /\
    shape m n (total_distances st') /\ shape m n (reach_count st') /\
    shape m n (visit_id st') /\ marks visit (visit_id st') /\
    forall x, in_grid grid x -> cell_at grid x = 0 ->
      tallied vs q total reach (total_distances st') (reach_count st') x.
Proof.
  induction fuel as [| fuel IH]; intros vs visit q total reach Hinv Htotal Hreach Hfuel.
  { pose proof (visited_bound _ _ _ Hinv). lia. }
  destruct q as [| [[row col] d] rest].
  { exists (BfsState total reach visit). simpl.
    split; [done |]. split; [done |]. split; [done |].
    split; [apply (inv_shape _ _ _ Hinv) |]. split; [intros x _; by right |].
    intros x Hx _. right. split; [apply not_elem_of_nil |]. split; [| done].
    destruct (decide (cell_at visit x = g)) as [Hg | Hg].
    - left. by apply (inv_visited _ _ _ Hinv).
    - right. intros Hreachable. apply Hg.
      by apply (inv_visited _ _ _ Hinv), (reachable_visited vs visit). }
  destruct (inv_queue _ _ _ Hinv (row, col, d)) as (Hc & k & Hd & Hshort); [left |].
  simpl in Hc, Hd, Hshort. subst d.
  apply (inv_visited _ _ _ Hinv) in Hc as Hc'. destruct Hc' as [Hcin Hcg].
  destruct (accumulate_spec row col (Z.of_nat k) (BfsState total reach visit))
    as (total1 & reach1 & Hacc & Htotal1 & Hreach1 & Hother & Hhere);
    [done | done | done |].
  simpl in Hother, Hhere.
  destruct (neighbors_loop row col (Z.of_nat k) rest vs directions visit [])
    as (visit1 & new & Hrun & Hfound & Hmarks & Hdirs); [done | |].
  { split; [apply (inv_shape _ _ _ Hinv) |]. split; [| split].
    - intros x Hx. pose proof (inv_visited _ _ _ Hinv x) as Hv.
      split; [intros ?; right; tauto |].
      intros [Hnil | ?]; [by apply elem_of_nil in Hnil | tauto].
    - apply NoDup_nil_2.
    - intros x Hnil. by apply elem_of_nil in Hnil. }
  simpl in Hrun, Hfound, Hdirs. unfold enqueue at 1 in Hrun. simpl in Hrun.
  rewrite app_nil_r in Hrun.
  pose proof (bfs_inv_step _ _ _ _ _ _ _ _ Hinv Hfound Hdirs) as Hinv1.
  destruct (IH (new ++ vs) visit1 (rest ++ enqueue (Z.of_nat k) new) total1 reach1)
    as (st' & Hloop & Htotal' & Hreach' & Hvisit' & Hmarks' & Htally);
    [done | done | done | |].
  { rewrite !length_app. unfold enqueue. rewrite length_fmap.
    simpl in Hfuel. lia. }
  exists st'. rewrite bfs_while_cons, Hacc. simpl. rewrite Hrun. simpl.
  split; [done |]. split; [done |]. split; [done |]. split; [done |]. split.
  { intros x Hx. destruct (Hmarks' x Hx) as [? | Heq]; [by left |].
    rewrite Heq. by apply Hmarks. }
  pose proof (inv_queue_nodup _ _ _ Hinv) as Hqnd. simpl in Hqnd.
  apply NoDup_cons in Hqnd as [Hhead Hqnd].
  destruct Hfound as (_ & _ & _ & Hnew).
  intros x Hx Hempty. destruct (Htally x Hx Hempty) as
    [(j & Hpend & Ht & Hr) | (Hq & Hvs & Ht & Hr)].
  - assert (Hxc : x <> (row, col) /\ pending vs ((row, col, Z.of_nat k) :: rest) x j).
    { destruct Hpend as [[Hin | Hin]%elem_of_app | [Hfresh Hsh]].
      - split; [| left; by right].
        intros ->. apply Hhead. apply list_elem_of_fmap. by exists (row, col, Z.of_nat j).
      - apply elem_of_enqueue in Hin as [Hin Hj]. simpl in Hin, Hj.
        destruct (Hnew x Hin) as (Hfresh & Hadj & Hopen).
        split; [congruence |]. right. split; [done |].
        replace j with (S k) by lia. by eapply new_cell_shortest.
      - rewrite elem_of_app in Hfresh. split; [intros ->; tauto |].
        right. split; [tauto | done]. }
    destruct Hxc as [Hne Hpend0]. destruct (Hother x Hx Hne) as [Ht1 Hr1].
    left. exists j. split; [done |]. by rewrite Ht, Hr, Ht1, Hr1.
  - rewrite fmap_app, fst_enqueue in Hq. apply not_elem_of_app in Hq as [Hq1 Hq2].
    destruct (decide (x = (row, col))) as [-> | Hne].
    + left. exists k. split; [left; left |].
      destruct (Hhere Hempty) as [Ht1 Hr1]. by rewrite Ht, Hr, Ht1, Hr1.
    + destruct (Hother x Hx Hne) as [Ht1 Hr1].
      right. split; [| split].
      * simpl. intros [-> | Hin]%elem_of_cons; done.
      * destruct Hvs as [[Hin | Hin]%elem_of_app | Hun]; [done | by left | by right].
      * by rewrite Ht, Hr, Ht1, Hr1.
Qed.

(** The three arrays have the dimensions of the grid. *)
Definition state_shape (st : bfs_state) : Prop :=
  shape m n (total_distances st) /\ shape m n (reach_count st) /\
  shape m n (visit_id st).

(** No cell carries the tag [g] or a later one. *)
Definition fresh_tag (visit : matrix) (g : Z) : Prop :=
  forall x, in_grid grid x -> cell_at visit x < g.

(** The traversal from one house: every empty cell the house reaches
    gets its shortest distance added and its counter incremented, and
    the others are left as they were. *)
Lemma bfs_house_spec (st : bfs_state) :
  in_grid grid s -> state_shape st -> fresh_tag (visit_id st) g ->
  exists st',
    bfs_house grid m n s (st, g) = Ok (st', g + 1) /\
    state_shape st' /\ fresh_tag (visit_id st') (g + 1) /\
    forall x, in_grid grid x -> cell_at grid x = 0 ->
      (exists k, shortest grid s x k /\
         cell_at (total_distances st') x = cell_at (total_distances st) x + Z.of_nat k /\
         cell_at (reach_count st') x = cell_at (reach_count st) x + 1) \/
      (~ reachable grid s x /\
         cell_at (total_distances st') x = cell_at (total_distances st) x /\
         cell_at (reach_count st') x = cell_at (reach_count st) x).
Proof.
  intros Hs (Htotal & Hreach & Hvisit) Hfresh. destruct s as [row col] eqn:Es.
  unfold bfs_house. cbn [fst snd].
  rewrite (set2_at m n _ _ _ _ Hvisit Hs). cbn [bind].
  assert (Hinv : bfs_inv [(row, col)] (upd2 (visit_id st) (row, col) g)
                   [(row, col, Z.of_nat 0)]).
  { split.
    - by apply shape_upd2.
    - intros x. rewrite list_elem_of_singleton. split.
      + intros ->. split; [done |]. by apply (cell_at_upd2_eq m n).
      + intros [Hx Hg]. destruct (decide (x = (row, col))) as [| Hne]; [done |].
        rewrite cell_at_upd2_ne in Hg;
          [| apply Hs | apply Hs | apply Hx | apply Hx | congruence].
        specialize (Hfresh x Hx). lia.
    - apply NoDup_singleton.
    - by apply list_elem_of_singleton.
    - intros e ->%list_elem_of_singleton. simpl.
      split; [by apply list_elem_of_singleton |].
      exists 0%nat. split; [done |]. rewrite <- Es. apply shortest_here.
    - simpl. apply NoDup_singleton.
    - intros x y ->%list_elem_of_singleton Hq. exfalso. apply Hq. simpl. left.
    - exists 0, [(row, col, 0)], []. split; [done |].
      split; [by apply Forall_singleton | done]. }
  destruct (bfs_while_spec (S (m * n)) _ _ _ _ _ Hinv Htotal Hreach)
    as (st' & Hloop & Htotal' & Hreach' & Hvisit' & Hmarks & Htally);
    [simpl; lia |].
  change (Z.of_nat 0) with 0 in Hloop.
  exists st'. rewrite Hloop. cbn [bind]. split; [done |].
  split; [done |]. split.
  { intros x Hx. destruct (Hmarks x Hx) as [-> | ->]; [lia |].
    destruct (decide (x = (row, col))) as [-> | Hne].
    - rewrite (cell_at_upd2_eq m n); [lia | done | done].
    - rewrite cell_at_upd2_ne;
        [| apply Hs | apply Hs | apply Hx | apply Hx | congruence].
      specialize (Hfresh x Hx). lia. }
  intros x Hx Hempty.
  destruct (Htally x Hx Hempty) as [(k & Hpend & Ht & Hr) | (Hq & Hvs & Ht & Hr)].
  - left. exists k. split; [| done].
    destruct Hpend as [Hin | [_ Hsh]]; [| by rewrite <- Es].
    apply list_elem_of_singleton in Hin. injection Hin as -> Hk.
    replace k with 0%nat by lia. rewrite <- Es. apply shortest_here.
  - right. split; [| done]. simpl in Hq.
    destruct Hvs as [Hin | Hun]; [| by rewrite <- Es].
    exfalso. apply Hq. done.
Qed.
End Traversal.

(** ** All traversals *)

(** What a house contributes at a cell: its shortest distance, or nothing
    when no walk leads from the house to the cell. *)
Definition outcome (grid : matrix) (x h : cell) (o : option nat) : Prop :=
  match o with
  | Some k => shortest grid h x k
  | None => ~ reachable grid h x
  end.

Lemma houses_loop (grid : matrix) (hs : list cell) :
  rectangular grid -> Forall (in_grid grid) hs ->
  forall (st : bfs_state) (g : Z),
  state_shape grid st -> fresh_tag grid (visit_id st) g ->
  exists st',
    for_each hs (bfs_house grid (length grid) (width grid)) (st, g)
    = Ok (st', g + Z.of_nat (length hs)) /\
    state_shape grid st' /\
    forall x, in_grid grid x -> cell_at grid x = 0 ->
      exists os, Forall2 (outcome grid x) hs os /\
        cell_at (total_distances st') x
        = cell_at (total_distances st) x + sum (Z.of_nat <$> omap id os) /\
        cell_at (reach_count st') x
        = cell_at (reach_count st) x + Z.of_nat (length (omap id os)).
Proof.
  intros Hrect Hhs. induction Hhs as [| h hs Hh Hhs IH]; intros st g Hshape Hfresh.
  - exists st. simpl. rewrite Z.add_0_r. split; [done |]. split; [done |].
    intros x _ _. exists []. split; [constructor |]. simpl.
    change (sum []) with 0. lia.
  - destruct (bfs_house_spec grid Hrect h g st Hh Hshape Hfresh)
      as (st1 & Hrun1 & Hshape1 & Hfresh1 & Htally1).
    destruct (IH st1 (g + 1) Hshape1 Hfresh1) as (st2 & Hrun2 & Hshape2 & Htally2).
    exists st2. simpl for_each. rewrite Hrun1. simpl bind. rewrite Hrun2.
    split; [f_equal; f_equal; simpl length; lia |]. split; [done |].
    intros x Hx Hempty.
    destruct (Htally2 x Hx Hempty) as (os & Hos & Ht2 & Hr2).
    destruct (Htally1 x Hx Hempty) as [(k & Hk & Ht1 & Hr1) | (Hun & Ht1 & Hr1)].
    + exists (Some k :: os). split; [by constructor |].
      change (omap id (Some k :: os)) with (k :: omap id os).
      rewrite fmap_cons, sum_cons, Ht2, Hr2, Ht1, Hr1. cbn [length]. lia.
    + exists (None :: os). split; [by constructor |].
      change (omap id (None :: os)) with (omap id os).
      rewrite Ht2, Hr2, Ht1, Hr1. lia.
Qed.

Lemma length_omap_id (os : list (option nat)) :
  (length (omap id os) <= length os)%nat.
Proof.
  induction os as [| [k |] os IH]; [done | |].
  - change (omap id (Some k :: os)) with (k :: omap id os). simpl. lia.
  - change (omap id (None :: os)) with (omap id os). simpl. lia.
Qed.

(** When every house contributes, the contributions are the shortest
    distances of all houses. *)
Lemma outcomes_all (grid : matrix) (x : cell) (hs : list cell)
    (os : list (option nat)) :
  Forall2 (outcome grid x) hs os -> length (omap id os) = length hs ->
  Forall2 (fun h k => shortest grid h x k) hs (omap id os).
Proof.
  induction 1 as [| h o hs os Ho Hos IH]; intros Hlen; [constructor |].
  destruct o as [k |].
  - change (omap id (Some k :: os)) with (k :: omap id os) in *.
    constructor; [done |]. apply IH. simpl in Hlen. lia.
  - change (omap id (None :: os)) with (omap id os) in *.
    pose proof (length_omap_id os). apply Forall2_length in Hos.
    simpl in Hlen. lia.
Qed.

Lemma outcomes_reachable (grid : matrix) (x : cell) (hs : list cell)
    (os : list (option nat)) :
  Forall2 (outcome grid x) hs os -> (forall h, h ∈ hs -> reachable grid h x) ->
  length (omap id os) = length hs.
Proof.
  induction 1 as [| h o hs os Ho Hos IH]; intros Hreach; [done |].
  destruct o as [k |].
  - change (omap id (Some k :: os)) with (k :: omap id os). simpl. f_equal.
    apply IH. intros h' Hh'. apply Hreach. by right.
  - exfalso. apply Ho, Hreach. left.
Qed.

Lemma shortest_all_unique (grid : matrix) (x : cell) (hs : list cell)
    (ks ks' : list nat) :
  Forall2 (fun h k => shortest grid h x k) hs ks ->
  Forall2 (fun h k => shortest grid h x k) hs ks' -> ks = ks'.
Proof.
  intros H. revert ks'. induction H as [| h k hs ks Hk Hks IH]; intros ks' H'.
  - by inversion H'.
  - inversion H' as [| h' k' hs' ks'' Hk' Hks']; subst. f_equal.
    + by eapply shortest_unique.
    + by apply IH.
Qed.

(** ** The traversal algorithm as a whole *)

(** An empty cell every house reaches. *)
Definition meeting_cell (grid : matrix) (houses : list cell) (c : cell) : Prop :=
  in_grid grid c /\ cell_at grid c = 0 /\
  forall h, h ∈ houses -> reachable grid h c.

(** [u] is the sum over the houses of the shortest-path edge count to [c]. *)
Definition total_distance (grid : matrix) (houses : list cell) (c : cell) (u : Z)
  : Prop :=
  exists ks, Forall2 (fun h k => shortest grid h c k) houses ks /\
    u = sum (Z.of_nat <$> ks).

(** The statement of the traversal: the result is the least total
    distance of a meeting cell, [-1] without any. *)
Definition bfs_spec (grid : matrix) (houses : list cell) (v : Z) : Prop :=
  (v = -1 /\ forall c, ~ meeting_cell grid houses c) \/
  ((exists c, meeting_cell grid houses c /\ total_distance grid houses c v) /\
   forall c u, meeting_cell grid houses c -> total_distance grid houses c u -> v <= u).

(** What the final scan of [_bfs_total_distance] computes from the
    accumulators. *)
Definition bfs_scan (grid : matrix) (num_houses : Z) (st : bfs_state) : Z :=
  or_sentinel
    (foldl (scan_step
              (fun c => (cell_at grid c =? 0) &&
                        (cell_at (reach_count st) c =? num_houses))
              (cell_at (total_distances st)))
       None (cells (length grid) (width grid))).

(** The accumulators after all traversals, at the empty cells. *)
Definition tallies (grid : matrix) (houses : list cell) (st : bfs_state) : Prop :=
  forall x, in_grid grid x -> cell_at grid x = 0 ->
    exists os, Forall2 (outcome grid x) houses os /\
      cell_at (total_distances st) x = sum (Z.of_nat <$> omap id os) /\
      cell_at (reach_count st) x = Z.of_nat (length (omap id os)).

Lemma bfs_total_distance_run (grid : matrix) (houses : list cell) :
  rectangular grid -> grid <> [] -> Forall (in_grid grid) houses ->
  exists st,
    _bfs_total_distance grid houses
    = Ok (bfs_scan grid (Z.of_nat (length houses)) st) /\
    tallies grid houses st.
Proof.
  intros Hrect Hne Hhouses. unfold _bfs_total_distance.
  rewrite getitem_first; [| done]. cbn [bind]. fold (width grid).
  destruct (houses_loop grid houses Hrect Hhouses
              (BfsState (zeros (length grid) (width grid))
                 (zeros (length grid) (width grid))
                 (zeros (length grid) (width grid))) 1)
    as (st & Hrun & (Htotal & Hreach & _) & Htally).
  { repeat split; apply shape_zeros. }
  { intros x _. simpl. rewrite cell_at_zeros. lia. }
  exists st. rewrite Hrun. cbn [bind fst]. split.
  - rewrite (scan_cells (length grid) (width grid)
               (fun i j md =>
                  let* g := get2 grid i j in
                  if g =? 0 then
                    let* r := get2 (reach_count st) i j in
                    if r =? Z.of_nat (length houses) then
                      let* t := get2 (total_distances st) i j in
                      Ok (min_inf md t)
                    else Ok md
                  else Ok md)
               (scan_step
                  (fun c => (cell_at grid c =? 0) &&
                            (cell_at (reach_count st) c =? Z.of_nat (length houses)))
                  (cell_at (total_distances st)))).
    + done.
    + intros c md Hc. unfold scan_step.
      rewrite (get2_inb _ _ grid c (rectangular_shape grid Hrect) Hc). cbn [bind].
      destruct (cell_at grid c =? 0); [| done].
      rewrite (get2_inb _ _ _ c Hreach Hc). cbn [bind andb].
      destruct (cell_at (reach_count st) c =? Z.of_nat (length houses)); [| done].
      by rewrite (get2_inb _ _ _ c Htotal Hc).
  - intros x Hx Hempty. destruct (Htally x Hx Hempty) as (os & Hos & Ht & Hr).
    exists os. simpl in Ht, Hr. rewrite !cell_at_zeros in *. by split.
Qed.

Lemma bfs_scan_spec (grid : matrix) (houses : list cell) (st : bfs_state) :
  tallies grid houses st ->
  bfs_spec grid houses (bfs_scan grid (Z.of_nat (length houses)) st).
Proof.
  intros Htally.
  set (cand := fun c => (cell_at grid c =? 0) &&
                        (cell_at (reach_count st) c =? Z.of_nat (length houses))).
  assert (Hcand : forall c, in_grid grid c ->
            (cand c = true <-> meeting_cell grid houses c)).
  { intros c Hc. unfold cand. rewrite andb_true_iff, !Z.eqb_eq. split.
    - intros [Hempty Hcount]. split; [done |]. split; [done |].
      destruct (Htally c Hc Hempty) as (os & Hos & _ & Hr).
      rewrite Hr in Hcount. apply Nat2Z.inj in Hcount.
      pose proof (outcomes_all _ _ _ _ Hos Hcount) as Hall.
      intros h (i & Hi)%list_elem_of_lookup.
      destruct (Forall2_lookup_l _ _ _ _ _ Hall Hi) as (k & _ & [Hwalk _]).
      by exists k.
    - intros (_ & Hempty & Hreach). split; [done |].
      destruct (Htally c Hc Hempty) as (os & Hos & _ & ->).
      f_equal. by eapply outcomes_reachable. }
  assert (Hval : forall c u, meeting_cell grid houses c ->
            (total_distance grid houses c u <-> cell_at (total_distances st) c = u)).
  { intros c u (Hc & Hempty & Hreach).
    destruct (Htally c Hc Hempty) as (os & Hos & Ht & _).
    pose proof (outcomes_all _ _ _ _ Hos (outcomes_reachable _ _ _ _ Hos Hreach))
      as Hall.
    split.
    - intros (ks & Hks & ->). rewrite Ht. f_equal. f_equal.
      by eapply shortest_all_unique.
    - intros <-. by exists (omap id os). }
  pose proof (scan_minimum cand (cell_at (total_distances st))
                (length grid) (width grid)
                (fun c u => in_grid grid c /\ cand c = true /\
                            cell_at (total_distances st) c = u)) as Hmin.
  destruct Hmin as [[Hv Hnone] | [(c & Hc & Hcc & Hcv) Hleast]]; [done | |].
  - left. split; [exact Hv |]. intros c Hc.
    apply (Hnone c (cell_at (total_distances st) c)).
    split; [apply Hc |]. split; [| done]. apply Hcand; [apply Hc | done].
  - right. apply Hcand in Hcc; [| done]. split.
    + exists c. split; [done |]. by apply Hval.
    + intros c' u Hc' Hu. apply (Hleast c').
      split; [apply Hc' |]. split; [apply Hcand; [apply Hc' | done] |].
      by apply Hval.
Qed.

(** ** Walks and Manhattan distance *)

(** Membership in a list that is written out. *)
Ltac in_list := repeat first [by left | right].

Lemma adjacent_cases (a b : cell) :
  adjacent a b ->
  b = (fst a, snd a + 1) \/ b = (fst a + 1, snd a) \/
  b = (fst a, snd a - 1) \/ b = (fst a - 1, snd a).
Proof.
  intros (d & Hd & ->). unfold directions in Hd.
  repeat (apply elem_of_cons in Hd as [-> | Hd]); simpl;
    [| | | | by apply elem_of_nil in Hd].
  - left. f_equal; lia.
  - right; left. f_equal; lia.
  - right; right; left. f_equal; lia.
  - right; right; right. f_equal; lia.
Qed.

(** A walk is never shorter than the Manhattan distance of its ends. *)
Lemma walk_manhattan (grid : matrix) (a b : cell) (k : nat) :
  walk grid a b k -> manhattan a (fst b) (snd b) <= Z.of_nat k.
Proof.
  unfold manhattan. induction 1 as [| b c k Hwalk IH Hadj Hopen]; [lia |].
  apply adjacent_cases in Hadj as [-> | [-> | [-> | ->]]]; simpl; lia.
Qed.

(** A walk leaves its start only by entering another cell. *)
Lemma walk_zero_iff (grid : matrix) (a b : cell) (k : nat) :
  walk grid a b k -> a <> b -> (1 <= k)%nat.
Proof. destruct 1; [done | lia]. Qed.

(** Every cell of the grid is empty or a house. *)
Definition obstacle_free (grid : matrix) : Prop :=
  Forall (Forall (fun v => v = 0 \/ v = 1)) grid.

Lemma obstacle_free_cell (grid : matrix) (c : cell) :
  obstacle_free grid -> cell_at grid c = 0 \/ cell_at grid c = 1.
Proof.
  intros Hfree. unfold cell_at.
  destruct (grid !! Z.to_nat (fst c)) as [row |] eqn:Hrow; [| by left].
  destruct (row !! Z.to_nat (snd c)) as [v |] eqn:Hv; [| by left]. simpl.
  eapply Forall_lookup_1 in Hfree; [| exact Hrow].
  eapply Forall_lookup_1 in Hfree; [| exact Hv]. done.
Qed.

(** Without obstacles a walk as long as the Manhattan distance exists. *)
Lemma manhattan_walk (grid : matrix) (a : cell) (k : nat) :
  obstacle_free grid -> in_grid grid a ->
  forall b, in_grid grid b -> manhattan a (fst b) (snd b) = Z.of_nat k ->
  walk grid a b k.
Proof.
  intros Hfree Ha. induction k as [| k IH]; intros [i j] Hb Hk;
    unfold manhattan in Hk; simpl in Hk.
  - replace (i, j) with a; [constructor |].
    destruct a; simpl in *; f_equal; lia.
  - assert (Hstep : forall b', in_grid grid b' -> adjacent b' (i, j) ->
              Z.abs (fst a - fst b') + Z.abs (snd a - snd b') = Z.of_nat k ->
              walk grid a (i, j) (S k)).
    { intros b' Hb' Hadj Hk'. apply (walk_step grid a b'); [by apply IH | done |].
      split; [done | by apply obstacle_free_cell]. }
    destruct Ha as [Ha1 Ha2], Hb as [Hb1 Hb2]. simpl in Hb1, Hb2.
    destruct (Z.lt_trichotomy (fst a) i) as [Hlt | [Heq | Hgt]].
    + apply (Hstep (i - 1, j)); [split; simpl; lia | | simpl; lia].
      exists (1, 0). split; [in_list |]. simpl. f_equal; lia.
    + destruct (Z.lt_trichotomy (snd a) j) as [Hlt | [Heq' | Hgt]]; [| lia |].
      * apply (Hstep (i, j - 1)); [split; simpl; lia | | simpl; lia].
        exists (0, 1). split; [in_list |]. simpl. f_equal; lia.
      * apply (Hstep (i, j + 1)); [split; simpl; lia | | simpl; lia].
        exists (0, -1). split; [in_list |]. simpl. f_equal; lia.
    + apply (Hstep (i + 1, j)); [split; simpl; lia | | simpl; lia].
      exists (-1, 0). split; [in_list |]. simpl. f_equal; lia.
Qed.

Lemma manhattan_shortest (grid : matrix) (a b : cell) :
  obstacle_free grid -> in_grid grid a -> in_grid grid b ->
  shortest grid a b (Z.to_nat (manhattan a (fst b) (snd b))).
Proof.
  intros Hfree Ha Hb. split.
  - apply manhattan_walk; [done | done | done |]. unfold manhattan. lia.
  - intros j Hj. apply walk_manhattan in Hj. lia.
Qed.

(** Without obstacles the accumulators hold the Manhattan sums. *)
Lemma tallies_manhattan (grid : matrix) (houses : list cell) (st : bfs_state) :
  obstacle_free grid -> Forall (in_grid grid) houses -> tallies grid houses st ->
  forall x, in_grid grid x -> cell_at grid x = 0 ->
    cell_at (reach_count st) x = Z.of_nat (length houses) /\
    cell_at (total_distances st) x = manhattan_sum houses x.
Proof.
  intros Hfree Hhouses Htally x Hx Hempty.
  destruct (Htally x Hx Hempty) as (os & Hos & Ht & Hr).
  assert (Hman : Forall2 (fun h k => shortest grid h x k) houses
                   ((fun h => Z.to_nat (manhattan h (fst x) (snd x))) <$> houses)).
  { apply Forall2_fmap_r, Forall_Forall2_diag.
    eapply Forall_impl; [exact Hhouses |]. intros h Hh. by apply manhattan_shortest. }
  assert (Hlen : length (omap id os) = length houses).
  { eapply outcomes_reachable; [exact Hos |].
    intros h (i & Hi)%list_elem_of_lookup.
    destruct (Forall2_lookup_l _ _ _ _ _ Hman Hi) as (k & _ & [Hwalk _]).
    by exists k. }
  split; [by rewrite Hr, Hlen |].
  rewrite Ht, (shortest_all_unique _ _ _ _ _ (outcomes_all _ _ _ _ Hos Hlen) Hman).
  unfold manhattan_sum. f_equal. rewrite <- list_fmap_compose.
  apply list_fmap_ext. intros _ h _. simpl. unfold manhattan. lia.
Qed.

Lemma scan_ext (cand cand' : cell -> bool) (val val' : cell -> Z)
    (l : list cell) (md : option Z) :
  (forall c, c ∈ l -> cand c = cand' c /\ (cand c = true -> val c = val' c)) ->
  foldl (scan_step cand val) md l = foldl (scan_step cand' val') md l.
Proof.
  revert md. induction l as [| c l IH]; intros md Hext; simpl; [done |].
  destruct (Hext c) as [Hc Hv]; [left |].
  rewrite IH; [| intros c' Hc'; apply Hext; by right]. f_equal.
  unfold scan_step. rewrite <- Hc. destruct (cand c); [| done]. by rewrite Hv.
Qed.

(** On a grid without obstacles the two algorithms agree. *)
Lemma fast_bfs_agree (grid : matrix) (houses : list cell) :
  rectangular grid -> obstacle_free grid -> Forall (in_grid grid) houses ->
  _fast_total_distance grid houses = _bfs_total_distance grid houses.
Proof.
  intros Hrect Hfree Hhouses. destruct (decide (grid = [])) as [-> | Hne]; [done |].
  destruct (bfs_total_distance_run grid houses Hrect Hne Hhouses)
    as (st & -> & Htally).
  rewrite fast_total_distance_scan; [| done | done]. f_equal.
  unfold fast_scan, bfs_scan. f_equal. apply scan_ext.
  intros c Hc%elem_of_cells.
  destruct (cell_at grid c =? 0) eqn:Hempty; [| done].
  apply Z.eqb_eq in Hempty.
  destruct (tallies_manhattan grid houses st Hfree Hhouses Htally c Hc Hempty)
    as [-> ->].
  by rewrite Z.eqb_refl.
Qed.

(** ** The dispatcher *)

(** The coordinates of the cells of value [1], in row-major order. *)
Definition houses_of (grid : matrix) : list cell :=
  filter (fun c => cell_at grid c = 1) (cells (length grid) (width grid)).

(** Some cell of the grid is neither empty nor a house. *)
Definition has_obstacles (grid : matrix) : bool :=
  existsb (fun c => negb ((cell_at grid c =? 0) || (cell_at grid c =? 1)))
    (cells (length grid) (width grid)).

Lemma elem_of_houses_of (grid : matrix) (c : cell) :
  c ∈ houses_of grid <-> in_grid grid c /\ cell_at grid c = 1.
Proof.
  unfold houses_of. rewrite list_elem_of_filter, elem_of_cells. unfold in_grid. tauto.
Qed.

Lemma houses_of_in_grid (grid : matrix) : Forall (in_grid grid) (houses_of grid).
Proof.
  apply Forall_forall. intros c Hc. apply elem_of_houses_of in Hc. tauto.
Qed.

Lemma collect_step (grid : matrix) (l : list cell) (hs : list cell) :
  foldl (fun hs c => if cell_at grid c =? 1 then hs ++ [c] else hs) hs l
  = hs ++ filter (fun c => cell_at grid c = 1) l.
Proof.
  revert hs. induction l as [| c l IH]; intros hs; simpl; [by rewrite app_nil_r |].
  rewrite IH, filter_cons. destruct (Z.eqb_spec (cell_at grid c) 1) as [Hc | Hc].
  - rewrite decide_True; [| done]. by rewrite <- app_assoc.
  - rewrite decide_False; done.
Qed.

Lemma any_of_pure {A : Type} (xs : list A) (p : A -> result bool) (f : A -> bool) :
  (forall x, x ∈ xs -> p x = Ok (f x)) -> any_of xs p = Ok (existsb f xs).
Proof.
  induction xs as [| x xs IH]; intros Hp; simpl; [done |].
  rewrite Hp; [| left]. simpl. destruct (f x); [done |].
  apply IH. intros y Hy. apply Hp. by right.
Qed.

Lemma has_obstacles_false (grid : matrix) :
  rectangular grid -> has_obstacles grid = false <-> obstacle_free grid.
Proof.
  intros Hrect. unfold has_obstacles. split.
  - intros Hnone. apply Forall_lookup. intros i row Hrow.
    apply Forall_lookup. intros j v Hv.
    assert (Hin : (Z.of_nat i, Z.of_nat j) ∈ cells (length grid) (width grid)).
    { apply elem_of_cells. split; simpl.
      - apply lookup_lt_Some in Hrow. lia.
      - apply lookup_lt_Some in Hv. unfold width.
        eapply Forall_lookup_1 in Hrect; [| exact Hrow]. simpl in Hrect. lia. }
    apply list_elem_of_In in Hin.
    assert (Hcell : cell_at grid (Z.of_nat i, Z.of_nat j) = v).
    { unfold cell_at. simpl. by rewrite !Nat2Z.id, Hrow, Hv. }
    destruct (existsb_exists
                (fun c => negb ((cell_at grid c =? 0) || (cell_at grid c =? 1)))
                (cells (length grid) (width grid))) as [_ Hex].
    destruct (Z.eqb_spec v 0) as [| H0]; [by left |].
    destruct (Z.eqb_spec v 1) as [| H1]; [by right |].
    rewrite Hex in Hnone; [done |].
    exists (Z.of_nat i, Z.of_nat j). split; [done |]. rewrite Hcell.
    apply Z.eqb_neq in H0, H1. by rewrite H0, H1.
  - intros Hfree. apply not_true_is_false. intros (c & _ & Hc)%existsb_exists.
    destruct (obstacle_free_cell grid c Hfree) as [Heq | Heq];
      rewrite Heq in Hc; done.
Qed.

(** The dispatcher on a rectangular grid, with the two loops over the
    cells evaluated. *)
Lemma min_total_distance_dispatch (grid : matrix) :
  rectangular grid ->
  min_total_distance grid =
    if decide (grid = [] \/ head grid = Some []) then Ok (-1)
    else if decide (houses_of grid = []) then Ok (-1)
    else if has_obstacles grid then _bfs_total_distance grid (houses_of grid)
    else _fast_total_distance grid (houses_of grid).
Proof.
  intros Hrect. destruct grid as [| [| v row0] rest].
  - rewrite decide_True; [done | by left].
  - rewrite decide_True; [done | by right].
  - rewrite decide_False; [| intros [? | ?]; done].
    unfold min_total_distance. cbv beta iota zeta.
    set (grid := (v :: row0) :: rest) in *.
    change (length (v :: row0)) with (width grid).
    rewrite (scan_cells (length grid) (width grid)
               (fun i j hs =>
                  let* g := get2 grid i j in
                  Ok (if g =? 1 then hs ++ [(i, j)] else hs))
               (fun hs c => if cell_at grid c =? 1 then hs ++ [c] else hs)).
    2: { intros c hs Hc.
         rewrite (get2_inb _ _ grid c (rectangular_shape grid Hrect) Hc).
         simpl. by destruct c. }
    cbn [bind]. rewrite collect_step, app_nil_l. fold (houses_of grid).
    destruct (houses_of grid) as [| h hs] eqn:Hhouses.
    { by rewrite decide_True. }
    rewrite decide_False; [| done].
    rewrite (any_of_pure _ _
               (fun c => negb ((cell_at grid c =? 0) || (cell_at grid c =? 1)))).
    2: { intros c Hc%elem_of_cells.
         by rewrite (get2_inb _ _ grid c (rectangular_shape grid Hrect) Hc). }
    cbn [bind]. fold (has_obstacles grid). by destruct (has_obstacles grid).
Qed.


(** ** Consequences used by several properties *)

Lemma in_grid_nonempty (grid : matrix) (c : cell) : in_grid grid c -> grid <> [].
Proof. intros [Hi _] ->. simpl in Hi. lia. Qed.

(** On a rectangular grid the dispatcher returns a value. *)
Lemma min_total_distance_total (grid : matrix) :
  rectangular grid -> exists v, min_total_distance grid = Ok v.
Proof.
  intros Hrect. rewrite min_total_distance_dispatch; [| done].
  destruct (decide (grid = [] \/ head grid = Some [])) as [| Hne]; [by eexists |].
  destruct (decide (houses_of grid = [])); [by eexists |].
  assert (grid <> []) by tauto.
  destruct (has_obstacles grid).
  - destruct (bfs_total_distance_run grid (houses_of grid)) as (st & -> & _);
      [done | done | apply houses_of_in_grid |]. by eexists.
  - rewrite fast_total_distance_scan; [by eexists | done | done].
Qed.

Lemma sum_at_least (f : cell -> Z) (hs : list cell) :
  (forall h, h ∈ hs -> 1 <= f h) -> Z.of_nat (length hs) <= sum (map f hs).
Proof.
  induction hs as [| h hs IH]; intros Hf; [done |].
  simpl map. rewrite sum_cons. simpl length.
  specialize (Hf h (list_elem_of_here _ _)) as Hh.
  assert (Z.of_nat (length hs) <= sum (map f hs)); [| lia].
  apply IH. intros h' Hh'. apply Hf. by right.
Qed.

Lemma sum_shortest_at_least (grid : matrix) (c : cell) (hs : list cell)
    (ks : list nat) (f : cell -> Z) :
  Forall2 (fun h k => shortest grid h c k) hs ks ->
  (forall h k, h ∈ hs -> walk grid h c k -> f h <= Z.of_nat k) ->
  sum (map f hs) <= sum (Z.of_nat <$> ks).
Proof.
  induction 1 as [| h k hs ks [Hk _] Hks IH]; intros Hf; [done |].
  simpl map. rewrite fmap_cons, !sum_cons.
  specialize (Hf h k (list_elem_of_here _ _) Hk) as Hh.
  assert (sum (map f hs) <= sum (Z.of_nat <$> ks)); [| lia].
  apply IH. intros h' k' Hh' Hk'. apply Hf; [by right | done].
Qed.

(** ** The three-way classification of cell values *)

(** A value with every obstacle code replaced by [2]. *)
Definition classify (v : Z) : Z := if (v =? 0) || (v =? 1) then v else 2.

Definition normalize (grid : matrix) : matrix :=
  (fun row : list Z => classify <$> row) <$> grid.

Lemma classify_empty (v : Z) : (classify v =? 0) = (v =? 0).
Proof.
  unfold classify. destruct (v =? 0) eqn:H0; simpl; [done |].
  destruct (v =? 1) eqn:H1; simpl; [exact H0 | done].
Qed.

Lemma classify_house (v : Z) : (classify v =? 1) = (v =? 1).
Proof.
  unfold classify. destruct (v =? 1) eqn:H1; [by rewrite orb_true_r |].
  rewrite orb_false_r. destruct (v =? 0) eqn:H0; [exact H1 | done].
Qed.

Lemma getitem_fmap {A B : Type} (f : A -> B) (l : list A) (i : Z) :
  getitem (f <$> l) i = let* x := getitem l i in Ok (f x).
Proof.
  unfold getitem, py_index. rewrite length_fmap.
  destruct ((0 <=? i) && (i <? Z.of_nat (length l)));
    [| destruct ((- Z.of_nat (length l) <=? i) && (i <? 0)); [| done]];
    rewrite list_lookup_fmap;
    match goal with |- context [l !! ?k] => by destruct (l !! k) end.
Qed.

Lemma length_normalize (grid : matrix) : length (normalize grid) = length grid.
Proof. unfold normalize. apply length_fmap. Qed.

Lemma getitem_normalize (grid : matrix) (i : Z) :
  getitem (normalize grid) i = let* row := getitem grid i in Ok (classify <$> row).
Proof. unfold normalize. apply getitem_fmap. Qed.

Lemma get2_normalize (grid : matrix) (i j : Z) :
  get2 (normalize grid) i j = let* v := get2 grid i j in Ok (classify v).
Proof.
  unfold get2, normalize. rewrite getitem_fmap.
  destruct (getitem grid i) as [row | |]; simpl; [| done | done].
  apply getitem_fmap.
Qed.

Lemma for_each_ext {A S : Type} (xs : list A) (body body' : A -> S -> result S)
    (s : S) :
  (forall x s, body x s = body' x s) -> for_each xs body s = for_each xs body' s.
Proof.
  intros Hext. revert s. induction xs as [| x xs IH]; intros s; simpl; [done |].
  rewrite Hext. destruct (body' x s); simpl; auto.
Qed.

Lemma any_of_ext {A : Type} (xs : list A) (p p' : A -> result bool) :
  (forall x, p x = p' x) -> any_of xs p = any_of xs p'.
Proof.
  intros Hext. induction xs as [| x xs IH]; simpl; [done |].
  rewrite Hext. destruct (p' x) as [[|] | |]; simpl; auto.
Qed.

Lemma fast_total_distance_normalize (grid : matrix) (houses : list cell) :
  _fast_total_distance (normalize grid) houses = _fast_total_distance grid houses.
Proof.
  unfold _fast_total_distance. rewrite getitem_normalize.
  destruct (getitem grid 0) as [row0 | |]; cbn [bind]; [| done | done].
  rewrite length_normalize, length_fmap. f_equal.
  apply for_each_ext. intros i md. apply for_each_ext. intros j md'.
  rewrite get2_normalize. destruct (get2 grid i j) as [v | |]; simpl; [| done | done].
  by rewrite classify_empty.
Qed.

Lemma accumulate_normalize (grid : matrix) (row col dist : Z) (st : bfs_state) :
  accumulate (normalize grid) row col dist st = accumulate grid row col dist st.
Proof.
  unfold accumulate. rewrite get2_normalize.
  destruct (get2 grid row col) as [v | |]; simpl; [| done | done].
  by rewrite classify_empty.
Qed.

Lemma visit_neighbor_normalize (grid : matrix) (m n cur row col dist : Z)
    (d : Z * Z) (s : matrix * list entry) :
  visit_neighbor (normalize grid) m n cur row col dist d s
  = visit_neighbor grid m n cur row col dist d s.
Proof.
  unfold visit_neighbor.
  destruct ((0 <=? row + fst d) && (row + fst d <? m) &&
            (0 <=? col + snd d) && (col + snd d <? n)); [| done].
  rewrite get2_normalize.
  destruct (get2 grid (row + fst d) (col + snd d)) as [v | |]; simpl; [| done | done].
  by rewrite classify_empty, classify_house.
Qed.

Lemma bfs_while_normalize (fuel : nat) (grid : matrix) (m n cur : Z) :
  forall (st : bfs_state) (queue : list entry),
  bfs_while fuel (normalize grid) m n cur st queue
  = bfs_while fuel grid m n cur st queue.
Proof.
  induction fuel as [| fuel IH]; intros st queue; [done |].
  destruct queue as [| [[row col] dist] rest]; [done |].
  cbn [bfs_while]. rewrite accumulate_normalize.
  destruct (accumulate grid row col dist st) as [acc | |]; cbn [bind]; [| done | done].
  rewrite (for_each_ext directions _
             (visit_neighbor grid m n cur row col dist));
    [| intros; apply visit_neighbor_normalize].
  destruct (for_each directions (visit_neighbor grid m n cur row col dist)
              (visit_id st, rest)) as [vq | |]; cbn [bind]; [| done | done].
  apply IH.
Qed.

Lemma bfs_total_distance_normalize (grid : matrix) (houses : list cell) :
  _bfs_total_distance (normalize grid) houses = _bfs_total_distance grid houses.
Proof.
  unfold _bfs_total_distance. rewrite getitem_normalize.
  destruct (getitem grid 0) as [row0 | |]; cbn [bind]; [| done | done].
  rewrite length_normalize, length_fmap.
  rewrite (for_each_ext houses _ (bfs_house grid (length grid) (length row0))).
  2: { intros h s. unfold bfs_house.
       destruct (set2 (visit_id (fst s)) (fst h) (snd h) (snd s));
         cbn [bind]; [| done | done].
       by rewrite bfs_while_normalize. }
  destruct (for_each houses (bfs_house grid (length grid) (length row0)) _)
    as [s | |]; cbn [bind]; [| done | done].
  f_equal. apply for_each_ext. intros i md. apply for_each_ext. intros j md'.
  rewrite get2_normalize. destruct (get2 grid i j) as [v | |]; simpl; [| done | done].
  by rewrite classify_empty.
Qed.

Lemma min_total_distance_normalize (grid : matrix) :
  min_total_distance (normalize grid) = min_total_distance grid.
Proof.
  destruct grid as [| [| v row0] rest]; [done | done |].
  unfold min_total_distance.
  change (normalize ((v :: row0) :: rest))
    with ((classify v :: (classify <$> row0)) :: normalize rest).
  cbv beta iota zeta.
  change ((classify v :: (classify <$> row0)) :: normalize rest)
    with (normalize ((v :: row0) :: rest)).
  set (grid := (v :: row0) :: rest).
  rewrite length_normalize.
  replace (length (classify v :: (classify <$> row0))) with (length (v :: row0))
    by (simpl; by rewrite length_fmap).
  rewrite (for_each_ext (range (length grid)) _
             (fun i hs =>
                for_each (range (length (v :: row0)))
                  (fun j hs =>
                     let* g := get2 grid i j in
                     Ok (if g =? 1 then hs ++ [(i, j)] else hs)) hs)).
  2: { intros i hs. apply for_each_ext. intros j hs'. rewrite get2_normalize.
       destruct (get2 grid i j) as [g | |]; simpl; [| done | done].
       by rewrite classify_house. }
  destruct (for_each (range (length grid)) _ []) as [houses | |];
    cbn [bind]; [| done | done].
  destruct houses as [| h hs]; [done |].
  rewrite (any_of_ext _ _
             (fun c => let* g := get2 grid (fst c) (snd c) in
                       Ok (negb ((g =? 0) || (g =? 1))))).
  2: { intros c. rewrite get2_normalize.
       destruct (get2 grid (fst c) (snd c)) as [g | |]; simpl; [| done | done].
       by rewrite classify_empty, classify_house. }
  destruct (any_of _ _) as [[|] | |]; cbn [bind negb]; [| | done | done].
  - apply bfs_total_distance_normalize.
  - apply fast_total_distance_normalize.
Qed.

(** ** Lower bounds on the result *)

(** A meeting cell found by the traversal is an empty cell whose total
    Manhattan distance is at most the result. *)
Lemma bfs_spec_manhattan (grid : matrix) (houses : list cell) (v : Z) :
  bfs_spec grid houses v -> v <> -1 ->
  exists c, in_grid grid c /\ cell_at grid c = 0 /\ manhattan_sum houses c <= v.
Proof.
  intros [[-> _] | [(c & (Hc & Hempty & _) & ks & Hks & ->) _]] Hv; [done |].
  exists c. split; [done |]. split; [done |].
  unfold manhattan_sum. eapply sum_shortest_at_least; [exact Hks |].
  intros h k _ Hwalk. by apply (walk_manhattan grid).
Qed.

Lemma manhattan_positive (h c : cell) : h <> c -> 1 <= manhattan h (fst c) (snd c).
Proof.
  intros Hne. unfold manhattan.
  destruct (decide (fst h = fst c)), (decide (snd h = snd c)); try lia.
  exfalso. apply Hne. destruct h, c; simpl in *; congruence.
Qed.

(** A result other than the sentinel counts at least one step per house. *)
Lemma result_at_least_houses (grid : matrix) (v : Z) :
  rectangular grid -> min_total_distance grid = Ok v -> v <> -1 ->
  Z.of_nat (length (houses_of grid)) <= v /\ 0 < v.
Proof.
  intros Hrect Hrun Hv. rewrite min_total_distance_dispatch in Hrun; [| done].
  destruct (decide (grid = [] \/ head grid = Some [])) as [| Hne];
    [by injection Hrun as <- |].
  destruct (decide (houses_of grid = [])) as [| Hhouses];
    [by injection Hrun as <- |].
  assert (Hgrid : grid <> []) by tauto.
  assert (Hlen : (1 <= length (houses_of grid))%nat).
  { destruct (houses_of grid); [done | simpl; lia]. }
  assert (Hfar : forall c h, cell_at grid c = 0 -> h ∈ houses_of grid -> h <> c).
  { intros c h Hempty [_ Hh]%elem_of_houses_of ->. lia. }
  cut (Z.of_nat (length (houses_of grid)) <= v); [lia |].
  destruct (has_obstacles grid).
  - destruct (bfs_total_distance_run grid (houses_of grid)) as (st & Hst & Htally);
      [done | done | apply houses_of_in_grid |].
    rewrite Hst in Hrun. injection Hrun as <-.
    destruct (bfs_scan_spec grid (houses_of grid) st Htally)
      as [[? _] | [(c & (Hc & Hempty & _) & ks & Hks & Hsum) _]]; [done |].
    rewrite Hsum.
    etrans; [apply (sum_at_least (fun _ => 1)); intros; lia |].
    eapply sum_shortest_at_least; [exact Hks |].
    intros h k Hh Hwalk. apply (walk_zero_iff grid h c k) in Hwalk; [lia |].
    by apply Hfar.
  - rewrite fast_total_distance_scan in Hrun; [| done | done].
    injection Hrun as <-.
    destruct (fast_scan_spec grid (houses_of grid))
      as [[? _] | [(c & Hc & Hempty & Hsum) _]]; [done |].
    rewrite Hsum. unfold manhattan_sum. apply sum_at_least.
    intros h Hh. apply manhattan_positive. by apply Hfar.
Qed.

(** ** Turning an empty cell into an obstacle *)

Lemma width_upd2 (grid : matrix) (c : cell) (v : Z) :
  width (upd2 grid c v) = width grid.
Proof.
  unfold width, upd2. destruct grid as [| row0 rest]; [done |].
  destruct (Z.to_nat (fst c)) as [| i]; simpl; [| done].
  apply length_insert.
Qed.

Lemma length_upd2 (grid : matrix) (c : cell) (v : Z) :
  length (upd2 grid c v) = length grid.
Proof. unfold upd2. apply length_alter. Qed.

Lemma rectangular_upd2 (grid : matrix) (c : cell) (v : Z) :
  rectangular grid -> rectangular (upd2 grid c v).
Proof.
  intros Hrect. pose proof (shape_upd2 _ _ grid c v (rectangular_shape grid Hrect))
    as [_ Hrows].
  unfold rectangular. fold (width (upd2 grid c v)). by rewrite width_upd2.
Qed.

Lemma in_grid_upd2 (grid : matrix) (c : cell) (v : Z) (x : cell) :
  in_grid (upd2 grid c v) x <-> in_grid grid x.
Proof. unfold in_grid. by rewrite length_upd2, width_upd2. Qed.

Lemma filter_ext_in {A : Type} (P Q : A -> Prop) `{!forall x, Decision (P x)}
    `{!forall x, Decision (Q x)} (l : list A) :
  (forall x, x ∈ l -> P x <-> Q x) -> filter P l = filter Q l.
Proof.
  induction l as [| x l IH]; intros Hext; [done |].
  rewrite !filter_cons, IH; [| intros y Hy; apply Hext; by right].
  destruct (Hext x) as [HPQ HQP]; [left |].
  destruct (decide (P x)), (decide (Q x)); tauto.
Qed.

Lemma houses_of_upd2 (grid : matrix) (c : cell) (v : Z) :
  rectangular grid -> in_grid grid c -> cell_at grid c = 0 -> v <> 1 ->
  houses_of (upd2 grid c v) = houses_of grid.
Proof.
  intros Hrect Hc Hempty Hv. unfold houses_of.
  rewrite length_upd2, width_upd2. apply filter_ext_in.
  intros x Hx%elem_of_cells. destruct (decide (x = c)) as [-> | Hne].
  - rewrite (cell_at_upd2_eq _ _ grid c v (rectangular_shape grid Hrect) Hc). lia.
  - rewrite cell_at_upd2_ne;
      [done | apply Hc | apply Hc | apply Hx | apply Hx | congruence].
Qed.

Lemma has_obstacles_upd2 (grid : matrix) (c : cell) (v : Z) :
  rectangular grid -> in_grid grid c -> v <> 0 -> v <> 1 ->
  has_obstacles (upd2 grid c v) = true.
Proof.
  intros Hrect Hc H0 H1. unfold has_obstacles. apply existsb_exists.
  exists c. split.
  - apply list_elem_of_In, elem_of_cells. by apply in_grid_upd2.
  - rewrite (cell_at_upd2_eq _ _ grid c v (rectangular_shape grid Hrect) Hc).
    apply Z.eqb_neq in H0, H1. by rewrite H0, H1.
Qed.

(** The result after an empty cell of an obstacle-free grid became an
    obstacle: the sentinel, or at least the result before. *)
Lemma obstacle_monotone (grid : matrix) (c : cell) (o : Z) :
  rectangular grid -> obstacle_free grid ->
  in_grid grid c -> cell_at grid c = 0 -> o <> 0 -> o <> 1 ->
  exists a b,
    min_total_distance grid = Ok a /\
    min_total_distance (upd2 grid c o) = Ok b /\
    (b = -1 \/ a <= b).
Proof.
  intros Hrect Hfree Hc Hempty H0 H1.
  pose proof (rectangular_upd2 grid c o Hrect) as Hrect'.
  destruct (min_total_distance_total grid Hrect) as [a Ha].
  destruct (min_total_distance_total _ Hrect') as [b Hb].
  exists a, b. split; [done |]. split; [done |].
  destruct (decide (b = -1)) as [| Hsent]; [by left |]. right.
  rewrite min_total_distance_dispatch in Ha, Hb; [| done | done].
  rewrite houses_of_upd2, has_obstacles_upd2 in Hb; try done.
  destruct (decide (upd2 grid c o = [] \/ head (upd2 grid c o) = Some []));
    [by injection Hb as <- |].
  destruct (decide (houses_of grid = [])); [by injection Hb as <- |].
  assert (Hne : grid <> []) by by eapply in_grid_nonempty.
  rewrite decide_False in Ha.
  2: { intros [? | Hhead]; [done |]. destruct Hc as [_ Hcol].
       unfold width in Hcol. rewrite Hhead in Hcol. simpl in Hcol. lia. }
  apply has_obstacles_false in Hfree; [| done]. rewrite Hfree in Ha.
  rewrite fast_total_distance_scan in Ha; [| done | done]. injection Ha as <-.
  destruct (bfs_total_distance_run (upd2 grid c o) (houses_of grid))
    as (st & Hst & Htally); [done | by intros ?%(f_equal length);
      rewrite length_upd2 in *; destruct grid | |].
  { rewrite <- (houses_of_upd2 grid c o); try done. apply houses_of_in_grid. }
  rewrite Hst in Hb. injection Hb as <-.
  destruct (bfs_spec_manhattan _ _ _ (bfs_scan_spec _ _ st Htally) Hsent)
    as (x & Hx & Hxempty & Hsum).
  rewrite (in_grid_upd2 grid c o x) in Hx.
  assert (Hxc : x <> c).
  { intros ->.
    rewrite (cell_at_upd2_eq _ _ grid c o (rectangular_shape grid Hrect) Hc)
      in Hxempty. done. }
  rewrite cell_at_upd2_ne in Hxempty;
    [| apply Hc | apply Hc | apply Hx | apply Hx | congruence].
  destruct (fast_scan_spec grid (houses_of grid)) as [[_ Hnone] | [_ Hleast]].
  - exfalso. by apply (Hnone x (manhattan_sum (houses_of grid) x)).
  - etrans; [| exact Hsum]. by apply (Hleast x).
Qed.


(** ** The store-level module computes what the value-level one does *)

(** The contents of a list of lists held by reference. *)
Definition view (h : list (list Z)) (a : list nat) : matrix :=
  Store.deref h <$> a.

(** The store [h'] has every object of [h], unchanged. *)
Definition extends (h h' : list (list Z)) : Prop :=
  forall l, (l < length h)%nat -> h' !! l = h !! l.

(** Two computations end the same way, with related values. *)
Definition sim {A B : Type} (R : A -> B -> Prop) (ra : result A) (rb : result B)
  : Prop :=
  match ra, rb with
  | Ok a, Ok b => R a b
  | IndexError, IndexError => True
  | OutOfFuel, OutOfFuel => True
  | _, _ => False
  end.

Lemma sim_bind {A B A' B' : Type} (R : A -> B -> Prop) (Q : A' -> B' -> Prop)
    (ra : result A) (rb : result B) (ka : A -> result A') (kb : B -> result B') :
  sim R ra rb -> (forall a b, R a b -> sim Q (ka a) (kb b)) ->
  sim Q (bind ra ka) (bind rb kb).
Proof. destruct ra, rb; simpl; intros Hr Hk; auto; done. Qed.

Lemma sim_for_each {X A B : Type} (R : A -> B -> Prop) (xs : list X)
    (f : X -> A -> result A) (g : X -> B -> result B) (a : A) (b : B) :
  (forall x a b, R a b -> sim R (f x a) (g x b)) -> R a b ->
  sim R (for_each xs f a) (for_each xs g b).
Proof.
  intros Hstep. revert a b. induction xs as [| x xs IH]; intros a b Hab; simpl.
  - done.
  - eapply sim_bind; [by apply Hstep | done].
Qed.

Lemma sim_weaken {A B : Type} (R R' : A -> B -> Prop) (ra : result A)
    (rb : result B) :
  sim R ra rb -> (forall a b, R a b -> R' a b) -> sim R' ra rb.
Proof. destruct ra, rb; simpl; auto. Qed.

Lemma get2_view (h : list (list Z)) (a : list nat) (i j : Z) :
  Store.get2 h a i j = get2 (view h a) i j.
Proof.
  unfold Store.get2, get2, view. rewrite getitem_fmap.
  by destruct (getitem a i).
Qed.

Lemma getitem_Ok_inv {A : Type} (l : list A) (i : Z) (x : A) :
  getitem l i = Ok x -> exists k, py_index l i = Some k /\ l !! k = Some x.
Proof.
  unfold getitem. destruct (py_index l i) as [k |]; [| done].
  destruct (l !! k) as [y |] eqn:Hy; [| done]. intros [= ->]. by exists k.
Qed.

Lemma py_index_length {A B : Type} (l : list A) (l' : list B) (i : Z) :
  length l = length l' -> py_index l i = py_index l' i.
Proof. unfold py_index. by intros ->. Qed.

Lemma view_ext (h h' : list (list Z)) (a : list nat) :
  (forall l, l ∈ a -> h' !! l = h !! l) -> view h' a = view h a.
Proof.
  intros Hsame. unfold view. apply list_fmap_ext. intros k l Hl.
  unfold Store.deref. rewrite Hsame; [done |]. by eapply list_elem_of_lookup_2.
Qed.

(** An assignment through a list of distinct references changes the row it
    names and no other object. *)
Lemma set2_sim (h : list (list Z)) (a : list nat) (i j v : Z) :
  NoDup a -> (forall l, l ∈ a -> (l < length h)%nat) ->
  sim (fun h' a' =>
         view h' a = a' /\ length h' = length h /\
         forall l, l ∉ a -> h' !! l = h !! l)
    (Store.set2 h a i j v) (set2 (view h a) i j v).
Proof.
  intros Hnd Hvalid. unfold Store.set2, set2, view. rewrite getitem_fmap.
  destruct (getitem a i) as [l | |] eqn:Hl; simpl; [| done | done].
  destruct (setitem (Store.deref h l) j v) as [row | |]; simpl; [| done | done].
  apply getitem_Ok_inv in Hl as (k & Hk & Hlk).
  unfold setitem. rewrite (py_index_length _ a); [| by rewrite length_fmap].
  rewrite Hk. simpl.
  assert (Hlh : (l < length h)%nat).
  { apply Hvalid. by eapply list_elem_of_lookup_2. }
  split; [| split].
  - apply list_eq. intros k'. rewrite list_lookup_fmap.
    destruct (decide (k' = k)) as [-> | Hne].
    + rewrite list_lookup_insert_eq;
        [| rewrite length_fmap; by eapply lookup_lt_Some].
      rewrite Hlk. simpl. unfold Store.deref.
      by rewrite list_lookup_insert_eq.
    + rewrite list_lookup_insert_ne; [| done]. rewrite list_lookup_fmap.
      destruct (a !! k') as [l' |] eqn:Hl'; [| done]. simpl. f_equal.
      unfold Store.deref. rewrite list_lookup_insert_ne; [done |].
      intros ->. apply Hne. by eapply NoDup_lookup.
  - apply length_insert.
  - intros l' Hl'. apply list_lookup_insert_ne. intros ->. apply Hl'.
    by eapply list_elem_of_lookup_2.
Qed.


Section Separation.
(** The store at the call, the grid handed over, and the arrays the
    traversal allocated: distinct objects, all newer than the store at the
    call, in a store of [size] objects. *)
Variable h0 : list (list Z).
Variable grid : list nat.
Variable refs : Store.arrays.
Variable size : nat.
Hypothesis Hgrid : forall l, l ∈ grid -> (l < length h0)%nat.
Hypothesis Hnodup :
  NoDup (Store.total_distances refs ++ Store.reach_count refs ++
         Store.visit_id refs).
Hypothesis Hfresh :
  forall l,
    l ∈ Store.total_distances refs ++ Store.reach_count refs ++
        Store.visit_id refs ->
    (length h0 <= l < size)%nat.

(** The store holds the three arrays of [st] and every object of [h0]. *)
Definition related (h : list (list Z)) (st : bfs_state) : Prop :=
  length h = size /\ extends h0 h /\
  view h (Store.total_distances refs) = total_distances st /\
  view h (Store.reach_count refs) = reach_count st /\
  view h (Store.visit_id refs) = visit_id st.

Lemma related_grid (h : list (list Z)) (st : bfs_state) :
  related h st -> view h grid = view h0 grid.
Proof.
  intros (_ & Hext & _). apply view_ext. intros l Hl. by apply Hext, Hgrid.
Qed.

(** An assignment into one of the new arrays. *)
Lemma write_sim (a : list nat) (h : list (list Z)) (i j v : Z) :
  NoDup a -> (forall l, l ∈ a -> (length h0 <= l < size)%nat) ->
  length h = size -> extends h0 h ->
  sim (fun h' a' =>
         view h' a = a' /\ length h' = size /\ extends h0 h' /\
         forall b, (forall l, l ∈ b -> l ∉ a) -> view h' b = view h b)
    (Store.set2 h a i j v) (set2 (view h a) i j v).
Proof.
  intros Hnd Hnew Hlen Hext.
  eapply sim_weaken; [apply set2_sim; [done |] |].
  - intros l Hl. apply Hnew in Hl. lia.
  - intros h' a' (Hview & Hlen' & Hother). split; [done |]. split; [lia |].
    split.
    + intros l Hl. rewrite Hother; [by apply Hext |].
      intros Hin. apply Hnew in Hin. lia.
    + intros b Hb. apply view_ext. intros l Hl. by apply Hother, Hb.
Qed.

Lemma arrays_separate :
  let T := Store.total_distances refs in
  let R := Store.reach_count refs in
  let V := Store.visit_id refs in
  (NoDup T /\ NoDup R /\ NoDup V) /\
  (forall l, l ∈ T -> (l ∉ R) /\ (l ∉ V)) /\
  (forall l, l ∈ R -> (l ∉ T) /\ (l ∉ V)) /\
  (forall l, l ∈ V -> (l ∉ T) /\ (l ∉ R)).
Proof.
  simpl. apply NoDup_app in Hnodup as (HT & HTRV & HRV).
  apply NoDup_app in HRV as (HR & HRV & HV).
  split; [done |]. repeat split.
  - intros Hin. apply (HTRV l); [done |]. apply elem_of_app. by left.
  - intros Hin. apply (HTRV l); [done |]. apply elem_of_app. by right.
  - intros Hin. apply (HTRV l); [done |]. apply elem_of_app. by left.
  - by apply HRV.
  - intros Hin. apply (HTRV l); [done |]. apply elem_of_app. by right.
  - intros Hin. by apply (HRV l).
Qed.

Lemma arrays_new :
  (forall l, l ∈ Store.total_distances refs -> (length h0 <= l < size)%nat) /\
  (forall l, l ∈ Store.reach_count refs -> (length h0 <= l < size)%nat) /\
  (forall l, l ∈ Store.visit_id refs -> (length h0 <= l < size)%nat).
Proof.
  repeat split; intros; apply Hfresh; rewrite !elem_of_app; auto.
Qed.

Lemma write_total (h : list (list Z)) (st : bfs_state) (i j v : Z) :
  related h st ->
  sim (fun h' td => related h' (BfsState td (reach_count st) (visit_id st)))
    (Store.set2 h (Store.total_distances refs) i j v)
    (set2 (total_distances st) i j v).
Proof.
  intros (Hlen & Hext & HT & HR & HV). rewrite <- HT.
  destruct arrays_separate as ((HndT & _ & _) & HTo & HRo & HVo).
  destruct arrays_new as (HnewT & _ & _).
  eapply sim_weaken; [by apply write_sim |].
  intros h' td (Hview & Hlen' & Hext' & Hother). simpl.
  split; [done |]. split; [done |]. split; [done |]. split.
  - rewrite Hother; [done |]. intros l Hl. by apply HRo.
  - rewrite Hother; [done |]. intros l Hl. by apply HVo.
Qed.

Lemma write_reach (h : list (list Z)) (st : bfs_state) (i j v : Z) :
  related h st ->
  sim (fun h' rc => related h' (BfsState (total_distances st) rc (visit_id st)))
    (Store.set2 h (Store.reach_count refs) i j v)
    (set2 (reach_count st) i j v).
Proof.
  intros (Hlen & Hext & HT & HR & HV). rewrite <- HR.
  destruct arrays_separate as ((_ & HndR & _) & HTo & HRo & HVo).
  destruct arrays_new as (_ & HnewR & _).
  eapply sim_weaken; [by apply write_sim |].
  intros h' rc (Hview & Hlen' & Hext' & Hother). simpl.
  split; [done |]. split; [done |]. split; [| split; [done |]].
  - rewrite Hother; [done |]. intros l Hl. by apply HTo.
  - rewrite Hother; [done |]. intros l Hl. by apply HVo.
Qed.

Lemma write_visit (h : list (list Z)) (st : bfs_state) (i j v : Z) :
  related h st ->
  sim (fun h' visit =>
         related h' (BfsState (total_distances st) (reach_count st) visit))
    (Store.set2 h (Store.visit_id refs) i j v)
    (set2 (visit_id st) i j v).
Proof.
  intros (Hlen & Hext & HT & HR & HV). rewrite <- HV.
  destruct arrays_separate as ((_ & _ & HndV) & HTo & HRo & HVo).
  destruct arrays_new as (_ & _ & HnewV).
  eapply sim_weaken; [by apply write_sim |].
  intros h' visit (Hview & Hlen' & Hext' & Hother). simpl.
  split; [done |]. split; [done |]. split; [| split; [| done]].
  - rewrite Hother; [done |]. intros l Hl. by apply HTo.
  - rewrite Hother; [done |]. intros l Hl. by apply HRo.
Qed.

Lemma sim_accumulate (h : list (list Z)) (st : bfs_state) (row col dist : Z) :
  related h st ->
  sim (fun h' acc => related h' (BfsState (fst acc) (snd acc) (visit_id st)))
    (Store.accumulate grid refs row col dist h)
    (accumulate (view h0 grid) row col dist st).
Proof.
  intros Hrel. unfold Store.accumulate, accumulate.
  rewrite get2_view, (related_grid h st Hrel).
  destruct (get2 (view h0 grid) row col) as [g | |]; simpl; [| done | done].
  destruct (g =? 0); [| by destruct st].
  rewrite get2_view.
  destruct Hrel as (Hlen & Hext & HT & HR & HV). rewrite HT.
  destruct (get2 (total_distances st) row col) as [t | |]; simpl; [| done | done].
  eapply sim_bind; [apply write_total; by repeat split |].
  intros h1 td Hrel1. simpl in Hrel1.
  rewrite get2_view.
  destruct Hrel1 as (Hlen1 & Hext1 & HT1 & HR1 & HV1). simpl in *. rewrite HR1.
  destruct (get2 (reach_count st) row col) as [r | |]; simpl; [| done | done].
  eapply sim_bind.
  - apply (write_reach h1 (BfsState td (reach_count st) (visit_id st))).
    by repeat split.
  - intros h2 rc Hrel2. exact Hrel2.
Qed.

(** The store and the queue against [visit_id] and the queue, the other
    two arrays being [td] and [rc]. *)
Definition related_queue (td rc : matrix) (hq : list (list Z) * list entry)
    (vq : matrix * list entry) : Prop :=
  snd hq = snd vq /\ related (fst hq) (BfsState td rc (fst vq)).

Lemma sim_visit_neighbor (td rc : matrix) (m n cur row col dist : Z) (d : Z * Z)
    (hq : list (list Z) * list entry) (vq : matrix * list entry) :
  related_queue td rc hq vq ->
  sim (related_queue td rc)
    (Store.visit_neighbor grid m n cur refs row col dist d hq)
    (visit_neighbor (view h0 grid) m n cur row col dist d vq).
Proof.
  intros [Hq Hrel]. unfold Store.visit_neighbor, visit_neighbor.
  destruct ((0 <=? row + fst d) && (row + fst d <? m) &&
            (0 <=? col + snd d) && (col + snd d <? n)); [| by split].
  rewrite get2_view, (related_grid _ _ Hrel).
  destruct (get2 (view h0 grid) (row + fst d) (col + snd d)) as [g | |];
    simpl; [| done | done].
  destruct ((g =? 0) || (g =? 1)); [| by split].
  rewrite get2_view.
  pose proof Hrel as (_ & _ & _ & _ & HV). simpl in HV. rewrite HV.
  destruct (get2 (fst vq) (row + fst d) (col + snd d)) as [v | |];
    simpl; [| done | done].
  destruct (negb (v =? cur)); [| by split].
  eapply sim_bind.
  - apply (write_visit (fst hq) (BfsState td rc (fst vq))). exact Hrel.
  - intros h' visit Hrel'. simpl in Hrel'. split; simpl; [by rewrite Hq | done].
Qed.

Lemma sim_bfs_while (fuel : nat) (m n cur : Z) :
  forall (h : list (list Z)) (st : bfs_state) (queue : list entry),
  related h st ->
  sim related
    (Store.bfs_while fuel grid m n cur refs h queue)
    (bfs_while fuel (view h0 grid) m n cur st queue).
Proof.
  induction fuel as [| fuel IH]; intros h st queue Hrel; [done |].
  destruct queue as [| [[row col] dist] rest]; [done |].
  cbn [Store.bfs_while bfs_while].
  eapply sim_bind; [by apply sim_accumulate |].
  intros h1 acc Hrel1.
  eapply sim_bind.
  - apply (sim_for_each (related_queue (fst acc) (snd acc))).
    + intros d hq vq Hhq. by apply sim_visit_neighbor.
    + by split.
  - intros hq vq [Hq Hrel2]. rewrite Hq. by apply IH.
Qed.

Lemma sim_bfs_house (m n : nat) (c : cell) (hs : list (list Z) * Z)
    (ss : bfs_state * Z) :
  snd hs = snd ss -> related (fst hs) (fst ss) ->
  sim (fun hs' ss' => snd hs' = snd ss' /\ related (fst hs') (fst ss'))
    (Store.bfs_house grid m n refs c hs)
    (bfs_house (view h0 grid) m n c ss).
Proof.
  intros Hcur Hrel. unfold Store.bfs_house, bfs_house. rewrite Hcur.
  eapply sim_bind; [by apply write_visit |].
  intros h visit Hrel1.
  eapply sim_bind; [by apply sim_bfs_while |].
  intros h' st' Hrel'. by split.
Qed.
End Separation.


Lemma view_app (h x : list (list Z)) (a : list nat) :
  (forall l, l ∈ a -> (l < length h)%nat) -> view (h ++ x) a = view h a.
Proof.
  intros Hvalid. apply view_ext. intros l Hl. apply lookup_app_l. by apply Hvalid.
Qed.

(** The rows a fresh array refers to are rows of zeros. *)
Lemma view_zeros (h : list (list Z)) (m n : nat) :
  view (fst (Store.zeros h m n)) (snd (Store.zeros h m n)) = zeros m n.
Proof.
  unfold Store.zeros, zeros, view. simpl. apply list_eq. intros k.
  rewrite list_lookup_fmap.
  destruct (decide (k < m)%nat) as [Hk | Hk].
  - rewrite lookup_seq_lt; [| done]. simpl. unfold Store.deref.
    rewrite lookup_app_r; [| lia].
    replace (length h + k - length h)%nat with k by lia.
    by rewrite !lookup_replicate_2.
  - rewrite lookup_seq_ge; [| lia]. simpl. symmetry.
    apply lookup_ge_None. rewrite length_replicate. lia.
Qed.

Lemma length_zeros (h : list (list Z)) (m n : nat) :
  length (fst (Store.zeros h m n)) = (length h + m)%nat.
Proof. unfold Store.zeros. simpl. by rewrite length_app, length_replicate. Qed.

Lemma elem_of_zeros (h : list (list Z)) (m n l : nat) :
  l ∈ snd (Store.zeros h m n) <-> (length h <= l < length h + m)%nat.
Proof. unfold Store.zeros. simpl. rewrite elem_of_seq. lia. Qed.

Lemma length_view (h : list (list Z)) (a : list nat) :
  length (view h a) = length a.
Proof. unfold view. apply length_fmap. Qed.

Lemma extends_refl (h : list (list Z)) : extends h h.
Proof. by intros l _. Qed.

Lemma extends_trans (h1 h2 h3 : list (list Z)) :
  extends h1 h2 -> extends h2 h3 -> extends h1 h3.
Proof.
  intros H12 H23 l Hl. rewrite H23, H12; [done | done |].
  apply lookup_lt_is_Some. rewrite H12; [| done]. by apply lookup_lt_is_Some.
Qed.

Lemma extends_zeros (h : list (list Z)) (m n : nat) :
  extends h (fst (Store.zeros h m n)).
Proof. intros l Hl. unfold Store.zeros. simpl. by apply lookup_app_l. Qed.

Lemma view_zeros_old (h : list (list Z)) (m n : nat) (a : list nat) :
  (forall l, l ∈ a -> (l < length h)%nat) ->
  view (fst (Store.zeros h m n)) a = view h a.
Proof. intros Hvalid. unfold Store.zeros. simpl. by apply view_app. Qed.

Lemma extends_length (h h' : list (list Z)) :
  extends h h' -> (length h <= length h')%nat.
Proof.
  intros Hext. destruct (decide (length h <= length h')%nat) as [| Hlt]; [done |].
  assert (Hl : (length h' < length h)%nat) by lia.
  apply Hext in Hl. rewrite (lookup_ge_None_2 h' (length h')) in Hl; [| done].
  symmetry in Hl. apply lookup_ge_None in Hl. lia.
Qed.

Lemma extends_view (h h' : list (list Z)) (a : list nat) :
  extends h h' -> (forall l, l ∈ a -> (l < length h)%nat) -> view h' a = view h a.
Proof. intros Hext Hvalid. apply view_ext. intros l Hl. by apply Hext, Hvalid. Qed.

(** The scanner over a store computes what it computes over the contents
    of the grid. *)
Lemma fast_view (h : list (list Z)) (grid : list nat) (houses : list cell) :
  Store._fast_total_distance h grid houses
  = _fast_total_distance (view h grid) houses.
Proof.
  unfold Store._fast_total_distance, _fast_total_distance.
  unfold view at 1. rewrite getitem_fmap.
  destruct (getitem grid 0) as [l0 | |]; cbn [bind]; [| done | done].
  unfold view at 1. rewrite length_fmap. f_equal.
  apply for_each_ext. intros i md. apply for_each_ext. intros j md'.
  by rewrite get2_view.
Qed.

(** The traversal over a store computes what it computes over the
    contents of the grid, and leaves every object of the store as it
    was. *)
Lemma sim_bfs_total_distance (h : list (list Z)) (grid : list nat)
    (houses : list cell) :
  (forall l, l ∈ grid -> (l < length h)%nat) ->
  sim (fun r v => snd r = v /\ extends h (fst r))
    (Store._bfs_total_distance h grid houses)
    (_bfs_total_distance (view h grid) houses).
Proof.
  intros Hgrid. unfold Store._bfs_total_distance, _bfs_total_distance.
  unfold view at 1. rewrite getitem_fmap.
  destruct (getitem grid 0) as [l0 | |]; cbn [bind]; [| done | done].
  rewrite length_view.
  set (m := length grid). set (n := length (Store.deref h l0)).
  set (total := Store.zeros h m n).
  set (reach := Store.zeros (fst total) m n).
  set (visit := Store.zeros (fst reach) m n).
  set (refs := Store.Arrays (snd total) (snd reach) (snd visit)).
  assert (Hlen1 : length (fst total) = (length h + m)%nat)
    by apply length_zeros.
  assert (Hlen2 : length (fst reach) = (length h + m + m)%nat).
  { unfold reach. by rewrite length_zeros, Hlen1. }
  assert (Hlen3 : length (fst visit) = (length h + m + m + m)%nat).
  { unfold visit. by rewrite length_zeros, Hlen2. }
  assert (HT : forall l, l ∈ snd total <-> (length h <= l < length h + m)%nat).
  { intros l. apply elem_of_zeros. }
  assert (HR : forall l, l ∈ snd reach <-> (length h + m <= l < length h + m + m)%nat).
  { intros l. unfold reach. rewrite elem_of_zeros, Hlen1. lia. }
  assert (HV : forall l, l ∈ snd visit <->
                 (length h + m + m <= l < length h + m + m + m)%nat).
  { intros l. unfold visit. rewrite elem_of_zeros, Hlen2. lia. }
  assert (Hnodup : NoDup (Store.total_distances refs ++ Store.reach_count refs ++
                          Store.visit_id refs)).
  { simpl. apply NoDup_app. split; [apply NoDup_seq |]. split.
    - intros l Hl%HT [Hin | Hin]%elem_of_app; [apply HR in Hin | apply HV in Hin]; lia.
    - apply NoDup_app. split; [apply NoDup_seq |]. split; [| apply NoDup_seq].
      intros l Hl%HR Hin%HV. lia. }
  assert (Hfresh : forall l,
            l ∈ Store.total_distances refs ++ Store.reach_count refs ++
                Store.visit_id refs ->
            (length h <= l < length (fst visit))%nat).
  { intros l Hl. rewrite Hlen3.
    cbn [Store.total_distances Store.reach_count Store.visit_id refs] in Hl.
    rewrite !elem_of_app, HT, HR, HV in Hl. lia. }
  assert (Hrel : related h refs (length (fst visit)) (fst visit)
                   (BfsState (zeros m n) (zeros m n) (zeros m n))).
  { split; [done |]. split; [| split; [| split]];
      cbn [Store.total_distances Store.reach_count Store.visit_id refs
           total_distances reach_count visit_id].
    - eapply extends_trans; [apply extends_zeros |].
      eapply extends_trans; apply extends_zeros.
    - unfold visit. rewrite view_zeros_old; [| intros l Hl%HT; lia].
      unfold reach. rewrite view_zeros_old; [| intros l Hl%HT; lia].
      apply view_zeros.
    - unfold visit. rewrite view_zeros_old; [| intros l Hl%HR; lia].
      apply view_zeros.
    - apply view_zeros. }
  eapply sim_bind.
  - apply (sim_for_each
             (fun hs ss => snd hs = snd ss /\
                related h refs (length (fst visit)) (fst hs) (fst ss))).
    + intros c hs ss [Hcur Hrel']. by apply sim_bfs_house.
    + by split.
  - intros [hf cur] [st cur'] [_ Hrelf]. simpl in Hrelf.
    pose proof (related_grid h grid refs (length (fst visit)) Hgrid hf st Hrelf)
      as Hview.
    destruct Hrelf as (_ & Hext & HTf & HRf & _). cbn [fst snd].
    rewrite (for_each_ext (range m) _
               (fun i md =>
                  for_each (range n) (fun j md =>
                    let* g := get2 (view h grid) i j in
                    if g =? 0 then
                      let* r := get2 (reach_count st) i j in
                      if r =? Z.of_nat (length houses) then
                        let* t := get2 (total_distances st) i j in
                        Ok (min_inf md t)
                      else Ok md
                    else Ok md) md)).
    2: { intros i md. apply for_each_ext. intros j md'.
         rewrite !get2_view, Hview. by rewrite HTf, HRf. }
    destruct (for_each (range m) _ None) as [md | |]; simpl; [| done | done].
    by split.
Qed.


(** The dispatcher over a store computes what it computes over the
    contents of the grid, and leaves every object of the store as it
    was. *)
Lemma sim_min_total_distance (h : list (list Z)) (grid : list nat) :
  (forall l, l ∈ grid -> (l < length h)%nat) ->
  sim (fun r v => snd r = v /\ extends h (fst r))
    (Store.min_total_distance h grid) (min_total_distance (view h grid)).
Proof.
  intros Hgrid. destruct grid as [| l0 rest].
  { simpl. split; [done | apply extends_refl]. }
  unfold Store.min_total_distance.
  destruct (Store.deref h l0) as [| v row0] eqn:Hrow.
  { unfold view. simpl. rewrite Hrow. simpl. split; [done | apply extends_refl]. }
  assert (HG : view h (l0 :: rest) = (v :: row0) :: view h rest).
  { unfold view. simpl. by rewrite Hrow. }
  rewrite HG. unfold min_total_distance. cbv beta iota zeta. rewrite <- HG.
  rewrite length_view.
  set (grid := l0 :: rest) in *.
  rewrite (for_each_ext (range (length grid)) _
             (fun i hs =>
                for_each (range (length (v :: row0)))
                  (fun j hs =>
                     let* g := get2 (view h grid) i j in
                     Ok (if g =? 1 then hs ++ [(i, j)] else hs)) hs)).
  2: { intros i hs. apply for_each_ext. intros j hs'. by rewrite get2_view. }
  destruct (for_each (range (length grid)) _ []) as [houses | |];
    cbn [bind]; [| done | done].
  destruct houses as [| c cs].
  { split; [done | apply extends_refl]. }
  rewrite (any_of_ext _ _
             (fun c => let* g := get2 (view h grid) (fst c) (snd c) in
                       Ok (negb ((g =? 0) || (g =? 1))))).
  2: { intros c'. by rewrite get2_view. }
  destruct (any_of _ _) as [[|] | |]; cbn [bind negb]; [| | done | done].
  - by apply sim_bfs_total_distance.
  - rewrite fast_view.
    destruct (_fast_total_distance (view h grid) (c :: cs)); simpl; [| done | done].
    split; [done | apply extends_refl].
Qed.

Lemma sim_Ok_l {A B : Type} (R : A -> B -> Prop) (a : A) (rb : result B) :
  sim R (Ok a) rb -> exists b, rb = Ok b /\ R a b.
Proof. destruct rb; simpl; [eauto | done | done]. Qed.

Lemma sim_Ok_r {A B : Type} (R : A -> B -> Prop) (ra : result A) (b : B) :
  sim R ra (Ok b) -> exists a, ra = Ok a /\ R a b.
Proof. destruct ra; simpl; [eauto | done | done]. Qed.

(** A call that returns leaves every object of the store unchanged, the
    grid among them, and a second call returns the same value. *)
Lemma call_frame (h : list (list Z)) (grid : list nat) (h' : list (list Z)) (v : Z) :
  (forall l, l ∈ grid -> (l < length h)%nat) ->
  Store.min_total_distance h grid = Ok (h', v) ->
  extends h h' /\ view h' grid = view h grid /\
  min_total_distance (view h grid) = Ok v /\
  exists h'', Store.min_total_distance h' grid = Ok (h'', v).
Proof.
  intros Hgrid Hcall.
  pose proof (sim_min_total_distance h grid Hgrid) as Hsim.
  rewrite Hcall in Hsim. apply sim_Ok_l in Hsim as (v' & Hvalue & Hv & Hext).
  simpl in Hv, Hext. subst v'.
  assert (Hview : view h' grid = view h grid) by by apply extends_view.
  split; [done |]. split; [done |]. split; [done |].
  assert (Hgrid' : forall l, l ∈ grid -> (l < length h')%nat).
  { intros l Hl. apply Hgrid in Hl. apply extends_length in Hext. lia. }
  pose proof (sim_min_total_distance h' grid Hgrid') as Hsim'.
  rewrite Hview, Hvalue in Hsim'.
  apply sim_Ok_r in Hsim' as ([h'' v''] & Hcall' & Hv' & _). simpl in Hv'.
  subst v''. by exists h''.
Qed.


(** * The properties of the specification *)

(** C1. For a rectangular grid and a non-empty list of house coordinates
    of the grid, [_bfs_total_distance] returns the minimum, over the empty
    cells that every house reaches by unit steps through cells that are not
    obstacles, of the sum over the houses of the shortest-path edge count
    to the cell, and [-1] when no empty cell is reached by all houses. *)
Theorem bfs_total_distance_minimum (grid : matrix) (houses : list cell) :
  rectangular grid -> houses <> [] -> Forall (in_grid grid) houses ->
  exists v, _bfs_total_distance grid houses = Ok v /\ bfs_spec grid houses v.
Proof.
  intros Hrect Hne Hhouses.
  assert (Hgrid : grid <> []).
  { destruct houses as [| h hs]; [done |].
    apply Forall_cons in Hhouses as [Hh _]. by eapply in_grid_nonempty. }
  destruct (bfs_total_distance_run grid houses Hrect Hgrid Hhouses)
    as (st & Hrun & Htally).
  eexists. split; [exact Hrun |]. by apply bfs_scan_spec.
Qed.

Lemma bfs_total_distance_minimum_witness :
  exists v,
    _bfs_total_distance [[1; 0; 2; 0; 1]; [0; 0; 0; 0; 0]; [0; 0; 1; 0; 0]]
      [(0, 0); (0, 4); (2, 2)] = Ok v /\
    bfs_spec [[1; 0; 2; 0; 1]; [0; 0; 0; 0; 0]; [0; 0; 1; 0; 0]]
      [(0, 0); (0, 4); (2, 2)] v.
Proof.
  apply bfs_total_distance_minimum.
  - repeat constructor.
  - discriminate.
  - repeat constructor; simpl; lia.
Defined.

(** C2. On a rectangular grid holding only the values [0] and [1], and for
    every list of house coordinates of the grid, [_fast_total_distance] and
    [_bfs_total_distance] give exactly the same result; the result is a
    value as soon as the grid has a row. *)
Theorem fast_equals_bfs (grid : matrix) (houses : list cell) :
  rectangular grid -> obstacle_free grid -> Forall (in_grid grid) houses ->
  _fast_total_distance grid houses = _bfs_total_distance grid houses /\
  (grid <> [] -> exists v, _bfs_total_distance grid houses = Ok v).
Proof.
  intros Hrect Hfree Hhouses. split; [by apply fast_bfs_agree |].
  intros Hgrid.
  destruct (bfs_total_distance_run grid houses Hrect Hgrid Hhouses) as (st & -> & _).
  by eexists.
Qed.

Lemma fast_equals_bfs_witness :
  _fast_total_distance [[1; 0; 0; 1]; [0; 0; 0; 0]; [0; 0; 0; 0]; [1; 0; 0; 1]]
    [(0, 0); (0, 3); (3, 0); (3, 3)]
  = _bfs_total_distance [[1; 0; 0; 1]; [0; 0; 0; 0]; [0; 0; 0; 0]; [1; 0; 0; 1]]
      [(0, 0); (0, 3); (3, 0); (3, 3)] /\
  ([[1; 0; 0; 1]; [0; 0; 0; 0]; [0; 0; 0; 0]; [1; 0; 0; 1]] <> [] ->
   exists v,
     _bfs_total_distance [[1; 0; 0; 1]; [0; 0; 0; 0]; [0; 0; 0; 0]; [1; 0; 0; 1]]
       [(0, 0); (0, 3); (3, 0); (3, 3)] = Ok v).
Proof.
  apply fast_equals_bfs.
  - repeat constructor.
  - repeat first [apply Forall_nil_2 | apply Forall_cons_2 | by left | by right].
  - repeat constructor; simpl; lia.
Defined.

(** C3, as the code has it. For a rectangular grid with at least one row
    and every list of house coordinates, [_fast_total_distance] returns the
    minimum over the empty cells of the sum over the houses of
    [|house.row - cell.row| + |house.col - cell.col|], and [-1] when the
    grid has no empty cell. *)
Theorem fast_total_distance_minimum (grid : matrix) (houses : list cell) :
  rectangular grid -> grid <> [] ->
  exists v, _fast_total_distance grid houses = Ok v /\ fast_spec grid houses v.
Proof.
  intros Hrect Hgrid. exists (fast_scan grid houses).
  split; [by apply fast_total_distance_scan | apply fast_scan_spec].
Qed.

Lemma fast_total_distance_minimum_witness :
  exists v,
    _fast_total_distance [[1; 0; 1]; [0; 0; 0]; [1; 0; 1]]
      [(0, 0); (0, 2); (2, 0); (2, 2)] = Ok v /\
    fast_spec [[1; 0; 1]; [0; 0; 0]; [1; 0; 1]] [(0, 0); (0, 2); (2, 0); (2, 2)] v.
Proof.
  apply fast_total_distance_minimum.
  - repeat constructor.
  - discriminate.
Defined.

(** C3, as stated, fails on the grid without rows: it is rectangular and
    has no empty cell, and the call raises [IndexError] at [grid[0]]
    instead of returning [-1]. *)
Lemma fast_total_distance_no_rows :
  rectangular [] /\
  _fast_total_distance [] [] = IndexError /\
  ~ (exists v, _fast_total_distance [] [] = Ok v /\ fast_spec [] [] v).
Proof.
  split; [constructor |]. split; [reflexivity |].
  intros (v & Hrun & _). discriminate.
Qed.

(** C4. On a rectangular grid [min_total_distance] returns [-1] when the
    grid has no row or an empty first row; otherwise [-1] when no cell has
    value [1]; otherwise, with [houses] the row-major list of the cells of
    value [1], the result of [_fast_total_distance grid houses] when every
    cell is [0] or [1] and of [_bfs_total_distance grid houses] when some
    cell is neither; in every case it returns a value. *)
Theorem min_total_distance_cases (grid : matrix) :
  rectangular grid ->
  (grid = [] \/ head grid = Some [] -> min_total_distance grid = Ok (-1)) /\
  (grid <> [] -> head grid <> Some [] ->
     (houses_of grid = [] -> min_total_distance grid = Ok (-1)) /\
     (houses_of grid <> [] -> obstacle_free grid ->
        min_total_distance grid = _fast_total_distance grid (houses_of grid)) /\
     (houses_of grid <> [] -> ~ obstacle_free grid ->
        min_total_distance grid = _bfs_total_distance grid (houses_of grid))) /\
  (exists v, min_total_distance grid = Ok v).
Proof.
  intros Hrect. split; [| split; [| by apply min_total_distance_total]].
  - intros Hempty. rewrite min_total_distance_dispatch; [| done].
    by rewrite decide_True.
  - intros Hgrid Hhead. rewrite min_total_distance_dispatch; [| done].
    rewrite decide_False; [| tauto]. split; [| split].
    + intros Hnone. by rewrite decide_True.
    + intros Hsome Hfree. rewrite decide_False; [| done].
      apply has_obstacles_false in Hfree; [| done]. by rewrite Hfree.
    + intros Hsome Hobst. rewrite decide_False; [| done].
      destruct (has_obstacles grid) eqn:Hflag; [done |].
      exfalso. by apply Hobst, has_obstacles_false.
Qed.

Lemma min_total_distance_cases_witness :
  ([[1; 0; 2; 0; 1]; [0; 0; 0; 0; 0]; [0; 0; 1; 0; 0]] = [] \/
   head [[1; 0; 2; 0; 1]; [0; 0; 0; 0; 0]; [0; 0; 1; 0; 0]] = Some [] ->
   min_total_distance [[1; 0; 2; 0; 1]; [0; 0; 0; 0; 0]; [0; 0; 1; 0; 0]]
   = Ok (-1)) /\
  ([[1; 0; 2; 0; 1]; [0; 0; 0; 0; 0]; [0; 0; 1; 0; 0]] <> [] ->
   head [[1; 0; 2; 0; 1]; [0; 0; 0; 0; 0]; [0; 0; 1; 0; 0]] <> Some [] ->
     (houses_of [[1; 0; 2; 0; 1]; [0; 0; 0; 0; 0]; [0; 0; 1; 0; 0]] = [] ->
      min_total_distance [[1; 0; 2; 0; 1]; [0; 0; 0; 0; 0]; [0; 0; 1; 0; 0]]
      = Ok (-1)) /\
     (houses_of [[1; 0; 2; 0; 1]; [0; 0; 0; 0; 0]; [0; 0; 1; 0; 0]] <> [] ->
      obstacle_free [[1; 0; 2; 0; 1]; [0; 0; 0; 0; 0]; [0; 0; 1; 0; 0]] ->
        min_total_distance [[1; 0; 2; 0; 1]; [0; 0; 0; 0; 0]; [0; 0; 1; 0; 0]]
        = _fast_total_distance [[1; 0; 2; 0; 1]; [0; 0; 0; 0; 0]; [0; 0; 1; 0; 0]]
            (houses_of [[1; 0; 2; 0; 1]; [0; 0; 0; 0; 0]; [0; 0; 1; 0; 0]])) /\
     (houses_of [[1; 0; 2; 0; 1]; [0; 0; 0; 0; 0]; [0; 0; 1; 0; 0]] <> [] ->
      ~ obstacle_free [[1; 0; 2; 0; 1]; [0; 0; 0; 0; 0]; [0; 0; 1; 0; 0]] ->
        min_total_distance [[1; 0; 2; 0; 1]; [0; 0; 0; 0; 0]; [0; 0; 1; 0; 0]]
        = _bfs_total_distance [[1; 0; 2; 0; 1]; [0; 0; 0; 0; 0]; [0; 0; 1; 0; 0]]
            (houses_of [[1; 0; 2; 0; 1]; [0; 0; 0; 0; 0]; [0; 0; 1; 0; 0]]))) /\
  (exists v,
     min_total_distance [[1; 0; 2; 0; 1]; [0; 0; 0; 0; 0]; [0; 0; 1; 0; 0]] = Ok v).
Proof.
  apply min_total_distance_cases. repeat constructor.
Defined.

(** C5. On the grid [[1,0,2,0,1],[0,0,0,0,0],[0,0,1,0,0]]
    [min_total_distance] returns exactly [7]. *)
Theorem worked_example :
  min_total_distance [[1; 0; 2; 0; 1]; [0; 0; 0; 0; 0]; [0; 0; 1; 0; 0]] = Ok 7.
Proof. vm_compute. reflexivity. Qed.

(** C6, as the code has it. Let [grid] be rectangular and obstacle-free and
    let one of its empty cells be given an obstacle value. Then
    [min_total_distance] returns a value on both grids, and the value on
    the new grid is the sentinel [-1] or is at least the value on
    [grid]. *)
Theorem obstacle_never_improves (grid : matrix) (c : cell) (o : Z) :
  rectangular grid -> obstacle_free grid ->
  in_grid grid c -> cell_at grid c = 0 -> o <> 0 -> o <> 1 ->
  exists a b,
    min_total_distance grid = Ok a /\
    min_total_distance (upd2 grid c o) = Ok b /\
    (b = -1 \/ a <= b).
Proof. apply obstacle_monotone. Qed.

Lemma obstacle_never_improves_witness :
  exists a b,
    min_total_distance [[1; 0; 0]] = Ok a /\
    min_total_distance (upd2 [[1; 0; 0]] (0, 2) 2) = Ok b /\
    (b = -1 \/ a <= b).
Proof.
  apply obstacle_never_improves.
  - repeat constructor.
  - repeat first [apply Forall_nil_2 | apply Forall_cons_2 | by left | by right].
  - unfold in_grid, inb, width; simpl; lia.
  - reflexivity.
  - lia.
  - lia.
Defined.

(** C6, as stated, fails when the obstacle takes the last empty cell: the
    result drops from [1] to the sentinel [-1]. *)
Lemma obstacle_on_last_empty_cell :
  rectangular [[1; 0]] /\ obstacle_free [[1; 0]] /\
  in_grid [[1; 0]] (0, 1) /\ cell_at [[1; 0]] (0, 1) = 0 /\
  upd2 [[1; 0]] (0, 1) 2 = [[1; 2]] /\
  min_total_distance [[1; 0]] = Ok 1 /\
  min_total_distance [[1; 2]] = Ok (-1) /\
  ~ (1 <= -1).
Proof.
  split; [repeat constructor |].
  split; [repeat first [apply Forall_nil_2 | apply Forall_cons_2 | by left | by right] |].
  split; [unfold in_grid, inb, width; simpl; lia |].
  repeat split; try reflexivity. lia.
Qed.

(** C7. [min_total_distance] returns the same result on a grid and on the
    grid with every value other than [0] and [1] replaced by [2]. *)
Theorem obstacle_values_uniform (grid : matrix) :
  min_total_distance (normalize grid) = min_total_distance grid.
Proof. apply min_total_distance_normalize. Qed.

(** C9. On a rectangular grid [min_total_distance] returns a value, and a
    value other than the sentinel [-1] is at least the number of houses of
    the grid, hence positive. *)
Theorem result_counts_houses (grid : matrix) :
  rectangular grid ->
  exists v, min_total_distance grid = Ok v /\
    (v <> -1 -> Z.of_nat (length (houses_of grid)) <= v /\ 0 < v).
Proof.
  intros Hrect. destruct (min_total_distance_total grid Hrect) as [v Hv].
  exists v. split; [done |]. by apply result_at_least_houses.
Qed.

Lemma result_counts_houses_witness :
  exists v,
    min_total_distance [[1; 0; 2; 0; 1]; [0; 0; 0; 0; 0]; [0; 0; 1; 0; 0]] = Ok v /\
    (v <> -1 ->
     Z.of_nat (length (houses_of [[1; 0; 2; 0; 1]; [0; 0; 0; 0; 0]; [0; 0; 1; 0; 0]]))
     <= v /\ 0 < v).
Proof.
  apply result_counts_houses. repeat constructor.
Defined.

(** C10. Called with an empty list of houses on a rectangular grid that
    has a cell of value [0], [_fast_total_distance] and
    [_bfs_total_distance] both return [0], not the sentinel. *)
Theorem empty_house_list_gives_zero (grid : matrix) :
  rectangular grid -> (exists c, in_grid grid c /\ cell_at grid c = 0) ->
  _fast_total_distance grid [] = Ok 0 /\ _bfs_total_distance grid [] = Ok 0.
Proof.
  intros Hrect (c & Hc & Hempty).
  assert (Hgrid : grid <> []) by by eapply in_grid_nonempty.
  split.
  - rewrite fast_total_distance_scan; [| done | done]. f_equal.
    destruct (fast_scan_spec grid []) as [[_ Hnone] | [(x & _ & _ & Hsum) _]].
    + exfalso. by apply (Hnone c (manhattan_sum [] c)).
    + exact Hsum.
  - destruct (bfs_total_distance_run grid [] Hrect Hgrid) as (st & -> & Htally);
      [constructor |]. f_equal.
    destruct (bfs_scan_spec grid [] st Htally)
      as [[_ Hnone] | [(x & _ & ks & Hks & Hsum) _]].
    + exfalso. apply (Hnone c). split; [done |]. split; [done |].
      intros h Hh. by apply elem_of_nil in Hh.
    + apply Forall2_nil_inv_l in Hks. by subst ks.
Qed.

Lemma empty_house_list_gives_zero_witness :
  _fast_total_distance [[0; 0; 0]; [0; 0; 0]; [0; 0; 0]] [] = Ok 0 /\
  _bfs_total_distance [[0; 0; 0]; [0; 0; 0]; [0; 0; 0]] [] = Ok 0.
Proof.
  apply empty_house_list_gives_zero.
  - repeat constructor.
  - exists (1, 1). split; [unfold in_grid, inb, width; simpl; lia | reflexivity].
Defined.

(** C8. A call to [min_total_distance] that returns leaves the contents of
    the grid it was handed unchanged, with every other list that existed
    at the call, and a second call on the same grid then returns the same
    value; on a rectangular grid the call returns. *)
Theorem grid_left_unchanged (h : list (list Z)) (grid : list nat) :
  (forall l, l ∈ grid -> (l < length h)%nat) ->
  (forall h' v, Store.min_total_distance h grid = Ok (h', v) ->
     extends h h' /\ view h' grid = view h grid /\
     exists h'', Store.min_total_distance h' grid = Ok (h'', v)) /\
  (rectangular (view h grid) ->
     exists h' v, Store.min_total_distance h grid = Ok (h', v)).
Proof.
  intros Hgrid. split.
  - intros h' v Hcall.
    destruct (call_frame h grid h' v Hgrid Hcall) as (Hext & Hview & _ & Hagain).
    done.
  - intros Hrect. destruct (min_total_distance_total _ Hrect) as [v Hv].
    pose proof (sim_min_total_distance h grid Hgrid) as Hsim.
    rewrite Hv in Hsim. apply sim_Ok_r in Hsim as ([h' v'] & Hcall & _).
    by exists h', v'.
Qed.

Lemma grid_left_unchanged_witness :
  (forall h' v,
     Store.min_total_distance
       [[1; 0; 2; 0; 1]; [0; 0; 0; 0; 0]; [0; 0; 1; 0; 0]] [0; 1; 2]%nat
     = Ok (h', v) ->
     extends [[1; 0; 2; 0; 1]; [0; 0; 0; 0; 0]; [0; 0; 1; 0; 0]] h' /\
     view h' [0; 1; 2]%nat
     = view [[1; 0; 2; 0; 1]; [0; 0; 0; 0; 0]; [0; 0; 1; 0; 0]] [0; 1; 2]%nat /\
     exists h'', Store.min_total_distance h' [0; 1; 2]%nat = Ok (h'', v)) /\
  (rectangular
     (view [[1; 0; 2; 0; 1]; [0; 0; 0; 0; 0]; [0; 0; 1; 0; 0]] [0; 1; 2]%nat) ->
   exists h' v,
     Store.min_total_distance
       [[1; 0; 2; 0; 1]; [0; 0; 0; 0; 0]; [0; 0; 1; 0; 0]] [0; 1; 2]%nat
     = Ok (h', v)).
Proof.
  apply grid_left_unchanged.
  intros l Hl. repeat (apply elem_of_cons in Hl as [-> | Hl]); simpl; try lia.
  by apply elem_of_nil in Hl.
Defined.


(** * Further properties of the code *)

(** ** The dispatcher end to end *)

Lemma cells_no_columns (m : nat) : cells m 0 = [].
Proof. apply nil_length_inv. rewrite length_cells. lia. Qed.

Lemma houses_of_degenerate (grid : matrix) :
  grid = [] \/ head grid = Some [] -> houses_of grid = [].
Proof.
  unfold houses_of, width. intros [-> | ->]; simpl; [done |].
  by rewrite cells_no_columns.
Qed.

(** Whichever algorithm the dispatcher picks, a grid with houses gets the
    answer of the traversal's statement. *)
Lemma min_total_distance_spec (grid : matrix) :
  rectangular grid ->
  exists v, min_total_distance grid = Ok v /\
    ((houses_of grid = [] /\ v = -1) \/
     (houses_of grid <> [] /\ bfs_spec grid (houses_of grid) v)).
Proof.
  intros Hrect. rewrite min_total_distance_dispatch; [| done].
  destruct (decide (grid = [] \/ head grid = Some [])) as [Hdeg | Hgrid].
  { exists (-1). split; [done |]. left. split; [| done].
    by apply houses_of_degenerate. }
  destruct (decide (houses_of grid = [])) as [Hnone | Hsome].
  { exists (-1). split; [done |]. by left. }
  assert (Hne : grid <> []) by tauto.
  destruct (bfs_total_distance_run grid (houses_of grid) Hrect Hne
              (houses_of_in_grid grid)) as (st & Hrun & Htally).
  exists (bfs_scan grid (Z.of_nat (length (houses_of grid))) st).
  split; [| right; split; [done | by apply bfs_scan_spec]].
  destruct (has_obstacles grid) eqn:Hflag; [done |].
  rewrite fast_bfs_agree; [done | done | | apply houses_of_in_grid].
  by apply has_obstacles_false.
Qed.

Lemma sum_of_nat_nonneg (ks : list nat) : 0 <= sum (Z.of_nat <$> ks).
Proof.
  induction ks as [| k ks IH]; [done |]. rewrite fmap_cons, sum_cons. lia.
Qed.

(** The statement of the traversal fixes the result. *)
Lemma bfs_spec_unique (grid : matrix) (houses : list cell) (v v' : Z) :
  bfs_spec grid houses v -> bfs_spec grid houses v' -> v = v'.
Proof.
  intros [[-> Hnone] | [(c & Hc & Hv) Hleast]]
         [[-> Hnone'] | [(c' & Hc' & Hv') Hleast']].
  - done.
  - exfalso. by apply (Hnone c').
  - exfalso. by apply (Hnone' c).
  - apply Z.le_antisymm; [by apply (Hleast c') | by apply (Hleast' c)].
Qed.

Lemma bfs_spec_sentinel (grid : matrix) (houses : list cell) (v : Z) :
  bfs_spec grid houses v ->
  (v = -1 <-> forall c, ~ meeting_cell grid houses c).
Proof.
  intros [[-> Hnone] | [(c & Hc & ks & _ & ->) _]]; [done |].
  pose proof (sum_of_nat_nonneg ks). split; [lia |].
  intros Hnone. exfalso. by apply (Hnone c).
Qed.

(** The dispatcher returns the sentinel exactly when the grid has no house
    or no empty cell that every house reaches. *)
Lemma min_total_distance_sentinel (grid : matrix) :
  rectangular grid ->
  min_total_distance grid = Ok (-1) <->
  houses_of grid = [] \/ forall c, ~ meeting_cell grid (houses_of grid) c.
Proof.
  intros Hrect.
  destruct (min_total_distance_spec grid Hrect)
    as (v & -> & [[Hnone ->] | [Hsome Hspec]]).
  - split; [by left | done].
  - pose proof (bfs_spec_sentinel _ _ _ Hspec) as Hiff. split.
    + intros [= ->]. right. by apply Hiff.
    + intros [? | Hnone]; [done |]. f_equal. by apply Hiff.
Qed.

(** ** The scanner against the traversal on grids with obstacles *)

Lemma manhattan_sum_nonneg (houses : list cell) (c : cell) :
  0 <= manhattan_sum houses c.
Proof.
  unfold manhattan_sum. induction houses as [| h hs IH]; [done |].
  simpl map. rewrite sum_cons. unfold manhattan at 1. lia.
Qed.

(** The scanner ignores obstacles, so what it returns never exceeds what
    the traversal returns, and it finds a cell whenever the traversal
    does. *)
Lemma fast_below_bfs (grid : matrix) (houses : list cell) :
  rectangular grid -> grid <> [] -> Forall (in_grid grid) houses ->
  exists u v,
    _fast_total_distance grid houses = Ok u /\
    _bfs_total_distance grid houses = Ok v /\
    (v <> -1 -> 0 <= u <= v).
Proof.
  intros Hrect Hne Hhouses.
  destruct (bfs_total_distance_run grid houses Hrect Hne Hhouses)
    as (st & Hrun & Htally).
  eexists _, _. split; [by apply fast_total_distance_scan |].
  split; [exact Hrun |]. intros Hv.
  destruct (bfs_spec_manhattan _ _ _ (bfs_scan_spec _ _ st Htally) Hv)
    as (c & Hc & Hempty & Hsum).
  destruct (fast_scan_spec grid houses)
    as [[_ Hnone] | [(x & _ & _ & Hx) Hleast]].
  - exfalso. by apply (Hnone c (manhattan_sum houses c)).
  - split; [rewrite Hx; apply manhattan_sum_nonneg |].
    etrans; [| exact Hsum]. by apply (Hleast c).
Qed.

(** ** The order of the houses *)

Lemma sum_perm (l k : list Z) : l ≡ₚ k -> sum l = sum k.
Proof.
  induction 1 as [| x l k _ IH | x y l | l k j _ IH1 _ IH2].
  - done.
  - by rewrite !sum_cons, IH.
  - rewrite !sum_cons. lia.
  - by rewrite IH1.
Qed.

Lemma fast_total_distance_perm (grid : matrix) (houses houses' : list cell) :
  houses ≡ₚ houses' ->
  _fast_total_distance grid houses = _fast_total_distance grid houses'.
Proof.
  intros Hperm. unfold _fast_total_distance.
  destruct (getitem grid 0) as [row0 | |]; cbn [bind]; [| done | done].
  f_equal. apply for_each_ext. intros i md. apply for_each_ext. intros j md'.
  destruct (get2 grid i j) as [g | |]; cbn [bind]; [| done | done].
  destruct (g =? 0); [| done]. do 2 f_equal.
  apply sum_perm. by apply Permutation_map.
Qed.

Lemma Forall2_perm_l {A B : Type} (R : A -> B -> Prop) (l l' : list A)
    (k : list B) :
  l ≡ₚ l' -> Forall2 R l k -> exists k', k ≡ₚ k' /\ Forall2 R l' k'.
Proof.
  intros Hperm. revert k.
  induction Hperm as [| x l l' _ IH | x y l | l1 l2 l3 _ IH1 _ IH2]; intros k Hk.
  - exists k. by split.
  - inversion Hk as [| ? z ? k0 Hz Hk0]; subst.
    destruct (IH k0 Hk0) as (k' & Hperm' & Hk').
    exists (z :: k'). split; [by constructor | by constructor].
  - inversion Hk as [| ? z ? k0 Hz Hk0]; subst.
    inversion Hk0 as [| ? w ? k1 Hw Hk1]; subst.
    exists (w :: z :: k1). split; [apply perm_swap | by repeat constructor].
  - destruct (IH1 k Hk) as (k2 & Hperm2 & Hk2).
    destruct (IH2 k2 Hk2) as (k3 & Hperm3 & Hk3).
    exists k3. split; [by etrans | done].
Qed.

Lemma bfs_spec_perm (grid : matrix) (houses houses' : list cell) (v : Z) :
  houses ≡ₚ houses' -> bfs_spec grid houses v -> bfs_spec grid houses' v.
Proof.
  intros Hperm.
  assert (Hmeet : forall c, meeting_cell grid houses c <-> meeting_cell grid houses' c).
  { intros c. unfold meeting_cell.
    split; intros (Hc & Hempty & Hreach); (split; [done |]); (split; [done |]);
      intros h Hh; apply Hreach; [by rewrite Hperm | by rewrite <- Hperm]. }
  assert (Htotal : forall c u, total_distance grid houses c u <->
                               total_distance grid houses' c u).
  { intros c u. split; intros (ks & Hks & ->).
    - destruct (Forall2_perm_l _ _ _ _ Hperm Hks) as (ks' & Hp & Hks').
      exists ks'. split; [done |]. apply sum_perm. by apply fmap_Permutation.
    - symmetry in Hperm.
      destruct (Forall2_perm_l _ _ _ _ Hperm Hks) as (ks' & Hp & Hks').
      exists ks'. split; [done |]. apply sum_perm. by apply fmap_Permutation. }
  intros [[-> Hnone] | [(c & Hc & Hv) Hleast]].
  - left. split; [done |]. intros c Hc. by apply (Hnone c), Hmeet.
  - right. split.
    + exists c. split; [by apply Hmeet | by apply Htotal].
    + intros c' u Hc' Hu. apply (Hleast c'); [by apply Hmeet | by apply Htotal].
Qed.

Lemma bfs_total_distance_perm (grid : matrix) (houses houses' : list cell) :
  rectangular grid -> Forall (in_grid grid) houses -> houses ≡ₚ houses' ->
  _bfs_total_distance grid houses = _bfs_total_distance grid houses'.
Proof.
  intros Hrect Hhouses Hperm.
  destruct (decide (grid = [])) as [-> | Hne]; [done |].
  assert (Hhouses' : Forall (in_grid grid) houses') by by rewrite <- Hperm.
  destruct (bfs_total_distance_run grid houses Hrect Hne Hhouses)
    as (st & -> & Htally).
  destruct (bfs_total_distance_run grid houses' Hrect Hne Hhouses')
    as (st' & -> & Htally').
  f_equal. apply (bfs_spec_unique grid houses').
  - apply (bfs_spec_perm grid houses); [done |]. by apply bfs_scan_spec.
  - by apply bfs_scan_spec.
Qed.

(** ** House coordinates that are no indices *)

Lemma py_index_None {A : Type} (l : list A) (i : Z) :
  ~ (- Z.of_nat (length l) <= i < Z.of_nat (length l)) -> py_index l i = None.
Proof.
  intros Hi. unfold py_index.
  destruct (Z.leb_spec 0 i), (Z.ltb_spec i (Z.of_nat (length l))),
    (Z.leb_spec (- Z.of_nat (length l)) i), (Z.ltb_spec i 0); simpl; try done; lia.
Qed.

Lemma py_index_Some_lt {A : Type} (l : list A) (i : Z) (k : nat) :
  py_index l i = Some k -> (k < length l)%nat.
Proof.
  unfold py_index.
  destruct (Z.leb_spec 0 i), (Z.ltb_spec i (Z.of_nat (length l))),
    (Z.leb_spec (- Z.of_nat (length l)) i), (Z.ltb_spec i 0); simpl;
    intros [= <-]; lia.
Qed.

(** An assignment outside the index range of the array raises. *)
Lemma set2_out_of_range (m n : nat) (a : matrix) (i j v : Z) :
  shape m n a ->
  ~ (- Z.of_nat m <= i < Z.of_nat m) \/ ~ (- Z.of_nat n <= j < Z.of_nat n) ->
  set2 a i j v = IndexError.
Proof.
  intros Hshape Hout. unfold set2, getitem.
  destruct (py_index a i) as [k |] eqn:Hk; [| done].
  apply py_index_Some_lt in Hk as Hlt.
  destruct (shape_row m n a k Hshape) as (row & Hrow & Hlen);
    [destruct Hshape; lia |].
  rewrite Hrow. cbn [bind]. unfold setitem.
  rewrite py_index_None; [done |]. rewrite Hlen.
  destruct Hout as [Hi | Hj]; [| done].
  exfalso. apply Hi. destruct Hshape as [<- _].
  destruct (decide (- Z.of_nat (length a) <= i < Z.of_nat (length a)));
    [done |]. by rewrite py_index_None in Hk.
Qed.

(** The traversal raises at the first house that is no index pair of the
    grid, when the houses before it are cells of the grid. *)
Lemma bfs_total_distance_out_of_range (grid : matrix) (before after : list cell)
    (h : cell) :
  rectangular grid -> grid <> [] -> Forall (in_grid grid) before ->
  ~ (- Z.of_nat (length grid) <= fst h < Z.of_nat (length grid)) \/
  ~ (- Z.of_nat (width grid) <= snd h < Z.of_nat (width grid)) ->
  _bfs_total_distance grid (before ++ h :: after) = IndexError.
Proof.
  intros Hrect Hne Hbefore Hout. unfold _bfs_total_distance.
  rewrite getitem_first; [| done]. cbn [bind]. fold (width grid).
  rewrite for_each_app.
  destruct (houses_loop grid before Hrect Hbefore
              (BfsState (zeros (length grid) (width grid))
                 (zeros (length grid) (width grid))
                 (zeros (length grid) (width grid))) 1)
    as (st & -> & (_ & _ & Hvisit) & _).
  { repeat split; apply shape_zeros. }
  { intros x _. simpl. rewrite cell_at_zeros. lia. }
  cbn [bind for_each]. unfold bfs_house at 1. cbn [fst snd].
  by rewrite (set2_out_of_range _ _ _ _ _ _ Hvisit Hout).
Qed.

(** ** Obstacles on any grid *)

Lemma walk_upd2 (grid : matrix) (c : cell) (o : Z) (a b : cell) (k : nat) :
  rectangular grid -> in_grid grid c -> o <> 0 -> o <> 1 ->
  walk (upd2 grid c o) a b k -> walk grid a b k.
Proof.
  intros Hrect Hc H0 H1. induction 1 as [| b x k Hwalk IH Hadj [Hx Hopen]].
  - constructor.
  - apply (walk_step grid a b x k); [done | done |].
    rewrite in_grid_upd2 in Hx. split; [done |].
    destruct (decide (x = c)) as [-> | Hne].
    + rewrite (cell_at_upd2_eq _ _ grid c o (rectangular_shape grid Hrect) Hc)
        in Hopen. lia.
    + rewrite cell_at_upd2_ne in Hopen;
        [done | apply Hc | apply Hc | apply Hx | apply Hx | congruence].
Qed.

(** Every house has a shortest distance to a meeting cell. *)
Lemma meeting_cell_total (grid : matrix) (houses : list cell) (c : cell) :
  rectangular grid -> Forall (in_grid grid) houses ->
  meeting_cell grid houses c -> exists u, total_distance grid houses c u.
Proof.
  intros Hrect Hhouses (Hc & Hempty & Hreach).
  destruct (bfs_total_distance_run grid houses Hrect
              (in_grid_nonempty grid c Hc) Hhouses) as (st & _ & Htally).
  destruct (Htally c Hc Hempty) as (os & Hos & _).
  eexists. exists (omap id os). split; [| done].
  apply outcomes_all; [done |]. by eapply outcomes_reachable.
Qed.

Lemma sum_shortest_below (grid : matrix) (c : cell) (hs : list cell)
    (ks ks' : list nat) :
  Forall2 (fun h k => shortest grid h c k) hs ks ->
  Forall2 (fun h k => walk grid h c k) hs ks' ->
  sum (Z.of_nat <$> ks) <= sum (Z.of_nat <$> ks').
Proof.
  intros Hks. revert ks'.
  induction Hks as [| h k hs ks [_ Hmin] _ IH]; intros ks' Hks'.
  - by inversion Hks'.
  - inversion Hks' as [| ? k' ? ks0 Hk' Hks0]; subst.
    rewrite !fmap_cons, !sum_cons. apply Hmin in Hk'.
    specialize (IH ks0 Hks0). lia.
Qed.

(** On every rectangular grid, turning an empty cell into an obstacle
    gives the sentinel or a result that is not smaller. *)
Lemma obstacle_monotone_any (grid : matrix) (c : cell) (o : Z) :
  rectangular grid -> in_grid grid c -> cell_at grid c = 0 -> o <> 0 -> o <> 1 ->
  exists a b,
    min_total_distance grid = Ok a /\
    min_total_distance (upd2 grid c o) = Ok b /\
    (b = -1 \/ (0 < a /\ a <= b)).
Proof.
  intros Hrect Hc Hempty H0 H1.
  pose proof (rectangular_upd2 grid c o Hrect) as Hrect'.
  destruct (min_total_distance_spec grid Hrect) as (a & Ha & Hcase).
  destruct (min_total_distance_spec _ Hrect') as (b & Hb & Hcase').
  rewrite houses_of_upd2 in Hcase'; try done.
  exists a, b. split; [done |]. split; [done |].
  destruct Hcase' as [[_ ->] | [Hsome Hspec']]; [by left |].
  destruct Hcase as [[? _] | [_ Hspec]]; [done |].
  destruct Hspec' as [[-> _] | [(x & (Hx & Hxempty & Hreach) & ks' & Hks' & ->) _]];
    [by left |]. right.
  rewrite in_grid_upd2 in Hx.
  assert (Hxc : x <> c).
  { intros ->.
    rewrite (cell_at_upd2_eq _ _ grid c o (rectangular_shape grid Hrect) Hc)
      in Hxempty. done. }
  rewrite cell_at_upd2_ne in Hxempty;
    [| apply Hc | apply Hc | apply Hx | apply Hx | congruence].
  assert (Hmeet : meeting_cell grid (houses_of grid) x).
  { split; [done |]. split; [done |]. intros h Hh.
    destruct (Hreach h Hh) as [k Hk]. exists k. by apply (walk_upd2 grid c o). }
  destruct (meeting_cell_total grid (houses_of grid) x Hrect
              (houses_of_in_grid grid) Hmeet) as (u & ks & Hks & ->).
  assert (Hle : sum (Z.of_nat <$> ks) <= sum (Z.of_nat <$> ks')).
  { eapply sum_shortest_below; [exact Hks |].
    eapply Forall2_impl; [exact Hks' |]. intros h k [Hk _].
    by apply (walk_upd2 grid c o). }
  assert (Ha' : a <= sum (Z.of_nat <$> ks)).
  { destruct Hspec as [[_ Hnone] | [_ Hleast]]; [by destruct (Hnone x) |].
    apply (Hleast x); [done |]. by exists ks. }
  assert (Hpos : a <> -1).
  { intros ->. destruct Hspec as [[_ Hnone] | [(y & _ & ks0 & _ & Hsum) _]];
      [by apply (Hnone x) |]. pose proof (sum_of_nat_nonneg ks0). lia. }
  destruct (result_at_least_houses grid a Hrect Ha Hpos). lia.
Qed.

(** ** A single house *)

(** A lone house next to an empty cell is one step from its meeting
    cell. *)
Lemma lone_house_neighbour (grid : matrix) (h c : cell) :
  rectangular grid -> houses_of grid = [h] ->
  adjacent h c -> in_grid grid c -> cell_at grid c = 0 ->
  min_total_distance grid = Ok 1.
Proof.
  intros Hrect Hhouses Hadj Hc Hempty.
  destruct (min_total_distance_spec grid Hrect) as (v & Hv & Hcase).
  rewrite Hv. f_equal. rewrite Hhouses in Hcase.
  destruct Hcase as [[? _] | [_ Hspec]]; [done |].
  assert (Hopen : open_cell grid c) by (split; [done | by left]).
  assert (Hwalk : walk grid h c 1).
  { apply (walk_step grid h h c 0); [constructor | done | done]. }
  assert (Hne : h <> c).
  { intros ->. assert (Hh : c ∈ houses_of grid) by (rewrite Hhouses; left).
    apply elem_of_houses_of in Hh as [_ Hh]. lia. }
  assert (Hmeet : meeting_cell grid [h] c).
  { split; [done |]. split; [done |].
    intros h' ->%list_elem_of_singleton. by exists 1%nat. }
  assert (Hone : total_distance grid [h] c 1).
  { exists [1%nat]. split; [| done]. constructor; [| constructor].
    split; [done |]. intros j Hj. by eapply walk_zero_iff. }
  assert (Hle : v <= 1).
  { destruct Hspec as [[_ Hnone] | [_ Hleast]]; [by destruct (Hnone c) |].
    by apply (Hleast c). }
  assert (Hsent : v <> -1).
  { intros ->. apply bfs_spec_sentinel in Hspec as [Hnone _].
    by apply (Hnone eq_refl c). }
  destruct (result_at_least_houses grid v Hrect Hv Hsent). lia.
Qed.

(** ** The benchmark runner *)

Lemma house_list_houses_of (grid : matrix) :
  rectangular grid -> house_list grid = Ok (houses_of grid).
Proof.
  intros Hrect. unfold house_list.
  destruct (decide (grid = [])) as [-> | Hne]; [done |].
  rewrite (for_each_ext (range (length grid)) _
             (fun i hs =>
                for_each (range (width grid))
                  (fun j hs =>
                     let* g := get2 grid i j in
                     Ok (if g =? 1 then hs ++ [(i, j)] else hs)) hs)).
  2: { intros i hs. by rewrite getitem_first. }
  rewrite (scan_cells (length grid) (width grid)
             (fun i j hs =>
                let* g := get2 grid i j in
                Ok (if g =? 1 then hs ++ [(i, j)] else hs))
             (fun hs c => if cell_at grid c =? 1 then hs ++ [c] else hs)).
  - by rewrite collect_step, app_nil_l.
  - intros c hs Hc.
    rewrite (get2_inb _ _ grid c (rectangular_shape grid Hrect) Hc).
    simpl. by destruct c.
Qed.

(** A loop whose body ends the same way whatever the state. *)
Lemma for_each_constant {A S : Type} (xs : list A) (body : A -> S -> result S)
    (r : result S) (s : S) :
  xs <> [] -> (forall x s, body x s = r) -> for_each xs body s = r.
Proof.
  intros Hne Hbody. revert s. induction xs as [| x xs IH]; intros s; [done |].
  simpl. rewrite Hbody. destruct r as [s' | |]; simpl; [| done | done].
  destruct xs as [| y ys]; [done |]. by apply IH.
Qed.

Lemma range_nonempty (n : Z) : 1 <= n -> range (Z.to_nat n) <> [].
Proof.
  intros Hn Hnil. apply (f_equal length) in Hnil.
  rewrite length_range in Hnil. simpl in Hnil. lia.
Qed.

(** With at least one run the outcome is that of a single run. *)
Lemma benchmark_algorithm_run (grid : matrix) (algorithm_name : string)
    (num_runs : Z) (r : result (option Z)) :
  1 <= num_runs -> (forall res, benchmark_run grid algorithm_name res = r) ->
  benchmark_algorithm grid algorithm_name num_runs =
    match r with
    | Ok res => Returned res
    | IndexError => RaisedIndexError
    | OutOfFuel => RanOutOfFuel
    end.
Proof.
  intros Hn Hrun. unfold benchmark_algorithm.
  rewrite (for_each_constant _ _ r); [| by apply range_nonempty | by intros].
  destruct r; [| done | done].
  destruct (Z.leb_spec num_runs 0); [lia | done].
Qed.

(** What one run of each algorithm returns on a rectangular grid. *)
Lemma benchmark_run_main (grid : matrix) (res : option Z) :
  benchmark_run grid "main" res
  = let* v := min_total_distance grid in Ok (Some v).
Proof. reflexivity. Qed.

Lemma benchmark_run_bfs (grid : matrix) (res : option Z) :
  rectangular grid ->
  benchmark_run grid "bfs" res
  = let* v := min_total_distance grid in Ok (Some v).
Proof.
  intros Hrect. unfold benchmark_run. simpl String.eqb. cbv iota.
  rewrite house_list_houses_of; [| done]. cbn [bind].
  rewrite min_total_distance_dispatch; [| done].
  destruct (decide (grid = [] \/ head grid = Some [])) as [Hdeg | Hgrid].
  { by rewrite (houses_of_degenerate grid Hdeg). }
  destruct (decide (houses_of grid = [])) as [-> | Hsome]; [done |].
  destruct (houses_of grid) as [| h hs] eqn:Hhouses; [done |].
  destruct (has_obstacles grid) eqn:Hflag; [done |].
  rewrite <- Hhouses.
  rewrite fast_bfs_agree; [done | done | | apply houses_of_in_grid].
  by apply has_obstacles_false.
Qed.

Lemma benchmark_run_fast (grid : matrix) (res : option Z) :
  rectangular grid -> obstacle_free grid ->
  benchmark_run grid "fast" res
  = let* v := min_total_distance grid in Ok (Some v).
Proof.
  intros Hrect Hfree. unfold benchmark_run. simpl String.eqb. cbv iota.
  rewrite house_list_houses_of; [| done]. cbn [bind].
  rewrite min_total_distance_dispatch; [| done].
  destruct (decide (grid = [] \/ head grid = Some [])) as [Hdeg | Hgrid].
  { by rewrite (houses_of_degenerate grid Hdeg). }
  destruct (decide (houses_of grid = [])) as [-> | Hsome]; [done |].
  destruct (houses_of grid) as [| h hs] eqn:Hhouses; [done |].
  apply has_obstacles_false in Hfree; [| done]. by rewrite Hfree.
Qed.

Lemma benchmark_run_other (grid : matrix) (algorithm_name : string)
    (res : option Z) :
  algorithm_name <> "main"%string -> algorithm_name <> "fast"%string ->
  algorithm_name <> "bfs"%string ->
  benchmark_run grid algorithm_name res = Ok res.
Proof.
  intros Hmain Hfast Hbfs. unfold benchmark_run.
  apply String.eqb_neq in Hmain, Hfast, Hbfs. by rewrite Hmain, Hfast, Hbfs.
Qed.

(** ** Rows of different lengths *)

(** A loop raises [IndexError] when one of its iterations does and the
    others return or raise [IndexError]. *)
Lemma for_each_raises {A S : Type} (xs : list A) (body : A -> S -> result S)
    (x0 : A) (s0 : S) :
  x0 ∈ xs -> (forall s, body x0 s = IndexError) ->
  (forall x s, body x s <> OutOfFuel) ->
  for_each xs body s0 = IndexError.
Proof.
  intros Hin Hraise Htotal. revert s0.
  induction xs as [| x xs IH]; intros s0; [by apply elem_of_nil in Hin |].
  simpl. destruct (body x s0) as [s1 | |] eqn:Hbody; simpl.
  - apply elem_of_cons in Hin as [-> | Hin]; [| by apply IH].
    by rewrite Hraise in Hbody.
  - done.
  - by destruct (Htotal x s0).
Qed.

Lemma getitem_no_fuel {A : Type} (l : list A) (i : Z) : getitem l i <> OutOfFuel.
Proof.
  unfold getitem. destruct (py_index l i) as [k |]; [| done].
  by destruct (l !! k).
Qed.

Lemma get2_no_fuel (a : matrix) (i j : Z) : get2 a i j <> OutOfFuel.
Proof.
  unfold get2. destruct (getitem a i) as [row | |] eqn:Hrow; simpl.
  - apply getitem_no_fuel.
  - done.
  - by destruct (getitem_no_fuel a i).
Qed.

Lemma for_each_no_fuel {A S : Type} (xs : list A) (body : A -> S -> result S)
    (s0 : S) :
  (forall x s, body x s <> OutOfFuel) -> for_each xs body s0 <> OutOfFuel.
Proof.
  intros Htotal. revert s0. induction xs as [| x xs IH]; intros s0; [done |].
  simpl. destruct (body x s0) as [s1 | |] eqn:Hbody; simpl; [apply IH | done |].
  by destruct (Htotal x s0).
Qed.

(** A row shorter than a non-empty first row makes the dispatcher raise
    [IndexError] while it collects the houses. *)
Lemma short_row_raises (grid : matrix) (i : nat) (row : list Z) :
  grid !! i = Some row -> (length row < width grid)%nat ->
  min_total_distance grid = IndexError.
Proof.
  intros Hrow Hshort. destruct grid as [| [| v row0] rest].
  - done.
  - unfold width in Hshort. simpl in Hshort. lia.
  - unfold min_total_distance. cbv beta iota zeta.
    set (grid := (v :: row0) :: rest) in *.
    change (length (v :: row0)) with (width grid).
    set (body := fun (i : Z) (hs : list cell) =>
           for_each (range (width grid))
             (fun j hs =>
                let* g := get2 grid i j in
                Ok (if g =? 1 then hs ++ [(i, j)] else hs)) hs).
    assert (Hinner : forall i j (hs : list cell),
              (let* g := get2 grid i j in
               Ok (if g =? 1 then hs ++ [(i, j)] else hs)) <> OutOfFuel).
    { intros i' j hs. pose proof (get2_no_fuel grid i' j).
      by destruct (get2 grid i' j). }
    rewrite (for_each_raises (range (length grid)) body (Z.of_nat i)); [done | | |].
    + apply elem_of_range. apply lookup_lt_Some in Hrow. lia.
    + intros hs. unfold body.
      apply (for_each_raises _ _ (Z.of_nat (length row))).
      * apply elem_of_range. lia.
      * intros hs'. unfold get2.
        rewrite (getitem_inb grid (Z.of_nat i) row); [| lia | by rewrite Nat2Z.id].
        cbn [bind]. unfold getitem. rewrite py_index_None; [done | lia].
      * intros j hs'. apply Hinner.
    + intros i' hs. unfold body. apply for_each_no_fuel. intros j hs'. apply Hinner.
Qed.

(** ** Grids that differ by a symmetry *)

Lemma NoDup_cells (m n : nat) : NoDup (cells m n).
Proof.
  unfold cells. apply NoDup_bind; [| | apply NoDup_range].
  - intros i1 i2 c _ _ (j1 & ->%list_elem_of_singleton & _)%list_elem_of_bind
      (j2 & [= -> _]%list_elem_of_singleton & _)%list_elem_of_bind. done.
  - intros i _. apply NoDup_bind; [| | apply NoDup_range].
    + intros j1 j2 c _ _ ->%list_elem_of_singleton [= ->]%list_elem_of_singleton.
      done.
    + intros j _. apply NoDup_singleton.
Qed.

Lemma NoDup_houses_of (grid : matrix) : NoDup (houses_of grid).
Proof. unfold houses_of. apply NoDup_filter, NoDup_cells. Qed.

Section Symmetry.
(** Two rectangular grids and a bijection of the cells that carries one
    onto the other and keeps unit steps. *)
Variables G G' : matrix.
Variables f f' : cell -> cell.
Hypothesis Hrect : rectangular G.
Hypothesis Hrect' : rectangular G'.
Hypothesis Hff' : forall c, f (f' c) = c.
Hypothesis Hf'f : forall c, f' (f c) = c.
Hypothesis Hin : forall c, in_grid G' (f c) <-> in_grid G c.
Hypothesis Hval : forall c, in_grid G c -> cell_at G' (f c) = cell_at G c.
Hypothesis Hadj : forall a b, adjacent a b -> adjacent (f a) (f b).
Hypothesis Hadj' : forall a b, adjacent a b -> adjacent (f' a) (f' b).

Lemma open_symmetric (c : cell) : open_cell G c <-> open_cell G' (f c).
Proof.
  unfold open_cell. split.
  - intros [Hc Hv]. split; [by apply Hin |]. by rewrite Hval.
  - intros [Hc Hv]. apply Hin in Hc. split; [done |]. by rewrite <- Hval.
Qed.

Lemma walk_symmetric (a b : cell) (k : nat) :
  walk G a b k <-> walk G' (f a) (f b) k.
Proof.
  split.
  - induction 1 as [| b c k Hwalk IH Hstep Hopen]; [constructor |].
    apply (walk_step G' (f a) (f b)); [done | by apply Hadj |].
    by apply open_symmetric.
  - assert (Hback : forall a' b', walk G' a' b' k -> walk G (f' a') (f' b') k).
    { intros a' b'. induction 1 as [| b' c' k Hwalk IH Hstep Hopen]; [constructor |].
      apply (walk_step G (f' a') (f' b')); [done | by apply Hadj' |].
      apply open_symmetric. by rewrite Hff'. }
    intros Hwalk. apply Hback in Hwalk. by rewrite !Hf'f in Hwalk.
Qed.

Lemma shortest_symmetric (a b : cell) (k : nat) :
  shortest G a b k <-> shortest G' (f a) (f b) k.
Proof.
  unfold shortest. rewrite walk_symmetric.
  split; intros [Hwalk Hmin]; (split; [done |]); intros j Hj; apply Hmin;
    by apply walk_symmetric.
Qed.

Lemma meeting_symmetric (hs : list cell) (c : cell) :
  meeting_cell G hs c <-> meeting_cell G' (f <$> hs) (f c).
Proof.
  unfold meeting_cell, reachable. split.
  - intros (Hc & Hempty & Hreach). split; [by apply Hin |].
    split; [by rewrite Hval |].
    intros h' (h & -> & Hh)%list_elem_of_fmap.
    destruct (Hreach h Hh) as [k Hk]. exists k. by apply walk_symmetric.
  - intros (Hc & Hempty & Hreach). apply Hin in Hc. split; [done |].
    split; [by rewrite <- Hval |].
    intros h Hh. destruct (Hreach (f h)) as [k Hk].
    + apply list_elem_of_fmap. by exists h.
    + exists k. by apply walk_symmetric.
Qed.

Lemma total_symmetric (hs : list cell) (c : cell) (u : Z) :
  total_distance G hs c u <-> total_distance G' (f <$> hs) (f c) u.
Proof.
  unfold total_distance. split; intros (ks & Hks & ->); exists ks; (split; [| done]).
  - apply Forall2_fmap_l. eapply Forall2_impl; [exact Hks |].
    intros h k Hk. by apply shortest_symmetric.
  - apply Forall2_fmap_l in Hks. eapply Forall2_impl; [exact Hks |].
    intros h k Hk. by apply shortest_symmetric.
Qed.

Lemma bfs_spec_symmetric (hs : list cell) (v : Z) :
  bfs_spec G hs v -> bfs_spec G' (f <$> hs) v.
Proof.
  intros [[-> Hnone] | [(c & Hc & Hv) Hleast]].
  - left. split; [done |]. intros c' Hc'. apply (Hnone (f' c')).
    apply meeting_symmetric. by rewrite Hff'.
  - right. split.
    + exists (f c). split; [by apply meeting_symmetric | by apply total_symmetric].
    + intros c' u Hc' Hu. apply (Hleast (f' c')).
      * apply meeting_symmetric. by rewrite Hff'.
      * apply total_symmetric. by rewrite Hff'.
Qed.

Lemma houses_symmetric : houses_of G' ≡ₚ f <$> houses_of G.
Proof.
  apply NoDup_Permutation.
  - apply NoDup_houses_of.
  - apply NoDup_fmap_2_strong; [| apply NoDup_houses_of].
    intros x y _ _ Hxy. by rewrite <- (Hf'f x), <- (Hf'f y), Hxy.
  - intros x. rewrite list_elem_of_fmap, elem_of_houses_of. split.
    + intros [Hx Hv]. exists (f' x). split; [by rewrite Hff' |].
      apply elem_of_houses_of. rewrite <- (Hff' x) in Hx, Hv.
      apply Hin in Hx. split; [done |]. by rewrite <- Hval.
    + intros (y & -> & [Hy Hv]%elem_of_houses_of).
      split; [by apply Hin |]. by rewrite Hval.
Qed.

(** The dispatcher returns the same on both grids. *)
Lemma min_total_distance_symmetric :
  min_total_distance G' = min_total_distance G.
Proof.
  destruct (min_total_distance_spec G Hrect) as (v & -> & Hcase).
  destruct (min_total_distance_spec G' Hrect') as (v' & -> & Hcase').
  f_equal. pose proof houses_symmetric as Hperm.
  destruct Hcase as [[Hnone ->] | [Hsome Hspec]].
  - rewrite Hnone in Hperm. apply Permutation_nil_r in Hperm.
    destruct Hcase' as [[_ ->] | [? _]]; done.
  - destruct Hcase' as [[Hnone' _] | [_ Hspec']].
    + rewrite Hnone' in Hperm. symmetry in Hperm.
      apply Permutation_nil_r, fmap_nil_inv in Hperm. done.
    + apply (bfs_spec_unique G' (houses_of G')); [done |].
      apply (bfs_spec_perm G' (f <$> houses_of G)); [done |].
      by apply bfs_spec_symmetric.
Qed.
End Symmetry.

Lemma adjacent_intro (a b : cell) :
  b = (fst a, snd a + 1) \/ b = (fst a + 1, snd a) \/
  b = (fst a, snd a - 1) \/ b = (fst a - 1, snd a) ->
  adjacent a b.
Proof.
  intros [-> | [-> | [-> | ->]]].
  - exists (0, 1). split; [in_list |]. simpl. f_equal; lia.
  - exists (1, 0). split; [in_list |]. simpl. f_equal; lia.
  - exists (0, -1). split; [in_list |]. simpl. f_equal; lia.
  - exists (-1, 0). split; [in_list |]. simpl. f_equal; lia.
Qed.

(** The grid with its rows in reverse order, and the cell a cell moves
    to. *)
Definition flip_rows (grid : matrix) : matrix := reverse grid.

Definition flip_row (grid : matrix) (c : cell) : cell :=
  (Z.of_nat (length grid) - 1 - fst c, snd c).

(** The grid with every row reversed. *)
Definition flip_columns (grid : matrix) : matrix := reverse <$> grid.

Definition flip_column (grid : matrix) (c : cell) : cell :=
  (fst c, Z.of_nat (width grid) - 1 - snd c).

Lemma rectangular_row (grid : matrix) (row : list Z) :
  rectangular grid -> row ∈ grid -> length row = width grid.
Proof. intros Hrect Hrow. unfold rectangular in Hrect. by eapply Forall_forall in Hrect. Qed.

Lemma width_flip_rows (grid : matrix) :
  rectangular grid -> width (flip_rows grid) = width grid.
Proof.
  intros Hrect. unfold flip_rows, width at 1. rewrite head_reverse.
  destruct (last grid) as [row |] eqn:Hlast; simpl.
  - apply rectangular_row; [done |]. apply last_Some in Hlast as [l' ->].
    apply elem_of_app. right. left.
  - apply last_None in Hlast. by subst.
Qed.

Lemma rectangular_flip_rows (grid : matrix) :
  rectangular grid -> rectangular (flip_rows grid).
Proof.
  intros Hrect. unfold rectangular. fold (width (flip_rows grid)).
  rewrite width_flip_rows; [| done]. unfold flip_rows. by apply Forall_reverse.
Qed.

Lemma cell_at_flip_rows (grid : matrix) (c : cell) :
  in_grid grid c -> cell_at (flip_rows grid) (flip_row grid c) = cell_at grid c.
Proof.
  intros [Hi Hj]. unfold cell_at, flip_rows, flip_row. simpl.
  rewrite reverse_lookup; [| lia].
  replace (length grid - S (Z.to_nat (Z.of_nat (length grid) - 1 - fst c)))%nat
    with (Z.to_nat (fst c)) by lia.
  done.
Qed.

Lemma width_flip_columns (grid : matrix) :
  width (flip_columns grid) = width grid.
Proof.
  unfold width, flip_columns. destruct grid as [| row0 rest]; [done |].
  simpl. apply length_reverse.
Qed.

Lemma rectangular_flip_columns (grid : matrix) :
  rectangular grid -> rectangular (flip_columns grid).
Proof.
  intros Hrect. unfold rectangular. fold (width (flip_columns grid)).
  rewrite width_flip_columns. unfold flip_columns. apply Forall_fmap.
  eapply Forall_impl; [exact Hrect |]. intros row Hrow. simpl.
  by rewrite length_reverse.
Qed.

Lemma cell_at_flip_columns (grid : matrix) (c : cell) :
  rectangular grid -> in_grid grid c ->
  cell_at (flip_columns grid) (flip_column grid c) = cell_at grid c.
Proof.
  intros Hrect [Hi Hj]. unfold cell_at, flip_columns, flip_column. simpl.
  rewrite list_lookup_fmap.
  destruct (grid !! Z.to_nat (fst c)) as [row |] eqn:Hrow; [| done]. simpl.
  assert (Hlen : length row = width grid).
  { apply rectangular_row; [done |]. by eapply list_elem_of_lookup_2. }
  rewrite reverse_lookup; [| lia].
  replace (length row - S (Z.to_nat (Z.of_nat (width grid) - 1 - snd c)))%nat
    with (Z.to_nat (snd c)) by lia.
  done.
Qed.

(** Reversing the order of the rows does not change the result. *)
Lemma min_total_distance_flip_rows (grid : matrix) :
  rectangular grid ->
  min_total_distance (flip_rows grid) = min_total_distance grid.
Proof.
  intros Hrect.
  apply (min_total_distance_symmetric grid (flip_rows grid)
           (flip_row grid) (flip_row grid)).
  - done.
  - by apply rectangular_flip_rows.
  - intros [i j]. unfold flip_row. simpl. f_equal. lia.
  - intros [i j]. unfold flip_row. simpl. f_equal. lia.
  - intros c. unfold in_grid, inb.
    rewrite width_flip_rows; [| done]. unfold flip_rows, flip_row.
    rewrite length_reverse. simpl. lia.
  - apply cell_at_flip_rows.
  - intros a b Hab. apply adjacent_intro. unfold flip_row.
    apply adjacent_cases in Hab as [-> | [-> | [-> | ->]]]; simpl.
    + left. f_equal; lia.
    + right; right; right. f_equal; lia.
    + right; right; left. f_equal; lia.
    + right; left. f_equal; lia.
  - intros a b Hab. apply adjacent_intro. unfold flip_row.
    apply adjacent_cases in Hab as [-> | [-> | [-> | ->]]]; simpl.
    + left. f_equal; lia.
    + right; right; right. f_equal; lia.
    + right; right; left. f_equal; lia.
    + right; left. f_equal; lia.
Qed.

(** Reversing every row does not change the result. *)
Lemma min_total_distance_flip_columns (grid : matrix) :
  rectangular grid ->
  min_total_distance (flip_columns grid) = min_total_distance grid.
Proof.
  intros Hrect.
  apply (min_total_distance_symmetric grid (flip_columns grid)
           (flip_column grid) (flip_column grid)).
  - done.
  - by apply rectangular_flip_columns.
  - intros [i j]. unfold flip_column. simpl. f_equal. lia.
  - intros [i j]. unfold flip_column. simpl. f_equal. lia.
  - intros c. unfold in_grid, inb. rewrite width_flip_columns.
    unfold flip_columns, flip_column. rewrite length_fmap. simpl. lia.
  - intros c. by apply cell_at_flip_columns.
  - intros a b Hab. apply adjacent_intro. unfold flip_column.
    apply adjacent_cases in Hab as [-> | [-> | [-> | ->]]]; simpl.
    + right; right; left. f_equal; lia.
    + right; left. f_equal; lia.
    + left. f_equal; lia.
    + right; right; right. f_equal; lia.
  - intros a b Hab. apply adjacent_intro. unfold flip_column.
    apply adjacent_cases in Hab as [-> | [-> | [-> | ->]]]; simpl.
    + right; right; left. f_equal; lia.
    + right; left. f_equal; lia.
    + left. f_equal; lia.
    + right; right; right. f_equal; lia.
Qed.

(** The grid with rows and columns exchanged. *)
Definition column (grid : matrix) (j : nat) : list Z :=
  (fun row => default 0 (row !! j)) <$> grid.

Definition transpose (grid : matrix) : matrix :=
  column grid <$> seq 0 (width grid).

Definition swap (c : cell) : cell := (snd c, fst c).

Lemma length_transpose (grid : matrix) : length (transpose grid) = width grid.
Proof. unfold transpose. by rewrite length_fmap, length_seq. Qed.

Lemma width_transpose (grid : matrix) :
  (0 < width grid)%nat -> width (transpose grid) = length grid.
Proof.
  intros Hpos. unfold transpose, width at 1.
  destruct (width grid) as [| n]; [lia |]. simpl.
  unfold column. by rewrite length_fmap.
Qed.

Lemma rectangular_transpose (grid : matrix) : rectangular (transpose grid).
Proof.
  unfold rectangular. fold (width (transpose grid)).
  destruct (width grid) as [| n] eqn:Hn.
  - unfold transpose. rewrite Hn. constructor.
  - rewrite width_transpose; [| lia]. unfold transpose.
    apply Forall_fmap, Forall_forall. intros j _. simpl.
    unfold column. by rewrite length_fmap.
Qed.

Lemma in_grid_transpose (grid : matrix) (c : cell) :
  in_grid (transpose grid) (swap c) <-> in_grid grid c.
Proof.
  unfold in_grid, inb, swap. rewrite length_transpose. simpl.
  destruct (width grid) as [| n] eqn:Hn; [lia |].
  rewrite width_transpose; lia.
Qed.

Lemma cell_at_transpose (grid : matrix) (c : cell) :
  in_grid grid c -> cell_at (transpose grid) (swap c) = cell_at grid c.
Proof.
  intros [Hi Hj]. unfold cell_at, transpose, swap. simpl.
  rewrite list_lookup_fmap, lookup_seq_lt; [| lia]. simpl.
  unfold column. rewrite list_lookup_fmap.
  by destruct (grid !! Z.to_nat (fst c)).
Qed.

Lemma adjacent_swap (a b : cell) : adjacent a b -> adjacent (swap a) (swap b).
Proof.
  intros Hab. apply adjacent_intro. unfold swap.
  apply adjacent_cases in Hab as [-> | [-> | [-> | ->]]]; simpl; tauto.
Qed.

(** Exchanging rows and columns does not change the result. *)
Lemma min_total_distance_transpose (grid : matrix) :
  rectangular grid ->
  min_total_distance (transpose grid) = min_total_distance grid.
Proof.
  intros Hrect.
  apply (min_total_distance_symmetric grid (transpose grid) swap swap).
  - done.
  - apply rectangular_transpose.
  - by intros [i j].
  - by intros [i j].
  - apply in_grid_transpose.
  - apply cell_at_transpose.
  - apply adjacent_swap.
  - apply adjacent_swap.
Qed.

Example transpose_worked :
  transpose [[1; 0; 2; 0; 1]; [0; 0; 0; 0; 0]; [0; 0; 1; 0; 0]]
  = [[1; 0; 0]; [0; 0; 0]; [2; 0; 1]; [0; 0; 0]; [1; 0; 0]].
Proof. reflexivity. Qed.


(** * Further properties, stated *)

(** X1. On a rectangular grid [min_total_distance] returns [-1] when the
    grid has no house, and otherwise the minimum over the empty cells every
    house reaches of the sum of the shortest-path edge counts from the
    houses, [-1] without such a cell, whichever algorithm it delegates
    to. *)
Theorem dispatcher_returns_optimum (grid : matrix) :
  rectangular grid ->
  exists v, min_total_distance grid = Ok v /\
    ((houses_of grid = [] /\ v = -1) \/
     (houses_of grid <> [] /\ bfs_spec grid (houses_of grid) v)).
Proof. apply min_total_distance_spec. Qed.

Lemma dispatcher_returns_optimum_witness :
  exists v,
    min_total_distance [[1; 0; 1]; [0; 0; 0]; [1; 0; 1]] = Ok v /\
    ((houses_of [[1; 0; 1]; [0; 0; 0]; [1; 0; 1]] = [] /\ v = -1) \/
     (houses_of [[1; 0; 1]; [0; 0; 0]; [1; 0; 1]] <> [] /\
      bfs_spec [[1; 0; 1]; [0; 0; 0]; [1; 0; 1]]
        (houses_of [[1; 0; 1]; [0; 0; 0]; [1; 0; 1]]) v)).
Proof. apply dispatcher_returns_optimum. repeat constructor. Defined.

(** X2. On a rectangular grid [min_total_distance] returns the sentinel
    [-1] exactly when the grid has no house or no empty cell that every
    house reaches. *)
Theorem sentinel_exactly_without_meeting_cell (grid : matrix) :
  rectangular grid ->
  min_total_distance grid = Ok (-1) <->
  houses_of grid = [] \/ forall c, ~ meeting_cell grid (houses_of grid) c.
Proof. apply min_total_distance_sentinel. Qed.

Lemma sentinel_exactly_without_meeting_cell_witness :
  min_total_distance [[1; 2; 1]; [2; 0; 2]; [1; 2; 1]] = Ok (-1) <->
  houses_of [[1; 2; 1]; [2; 0; 2]; [1; 2; 1]] = [] \/
  forall c,
    ~ meeting_cell [[1; 2; 1]; [2; 0; 2]; [1; 2; 1]]
        (houses_of [[1; 2; 1]; [2; 0; 2]; [1; 2; 1]]) c.
Proof. apply sentinel_exactly_without_meeting_cell. repeat constructor. Defined.

(** X3. On a rectangular grid with a row, obstacles allowed, and for house
    coordinates of the grid, both algorithms return a value, and when the
    traversal finds a meeting cell the scanner's value is non-negative and
    at most the traversal's. *)
Theorem scanner_never_exceeds_traversal (grid : matrix) (houses : list cell) :
  rectangular grid -> grid <> [] -> Forall (in_grid grid) houses ->
  exists u v,
    _fast_total_distance grid houses = Ok u /\
    _bfs_total_distance grid houses = Ok v /\
    (v <> -1 -> 0 <= u <= v).
Proof. apply fast_below_bfs. Qed.

Lemma scanner_never_exceeds_traversal_witness :
  exists u v,
    _fast_total_distance [[1; 2; 0]; [0; 0; 0]] [(0, 0)] = Ok u /\
    _bfs_total_distance [[1; 2; 0]; [0; 0; 0]] [(0, 0)] = Ok v /\
    (v <> -1 -> 0 <= u <= v).
Proof.
  apply scanner_never_exceeds_traversal.
  - repeat constructor.
  - discriminate.
  - repeat constructor; simpl; lia.
Defined.

(** X4. [_fast_total_distance] does not depend on the order of the list of
    houses: on every grid, two lists that are permutations of each other
    give the same outcome. *)
Theorem scanner_ignores_house_order (grid : matrix) (houses houses' : list cell) :
  houses ≡ₚ houses' ->
  _fast_total_distance grid houses = _fast_total_distance grid houses'.
Proof. apply fast_total_distance_perm. Qed.

Lemma scanner_ignores_house_order_witness :
  _fast_total_distance [[1; 0; 1]] [(0, 0); (0, 2)]
  = _fast_total_distance [[1; 0; 1]] [(0, 2); (0, 0)].
Proof. apply scanner_ignores_house_order. apply perm_swap. Defined.

(** X5. [_bfs_total_distance] does not depend on the order in which the
    houses are traversed: on a rectangular grid, two lists of cells of the
    grid that are permutations of each other give the same outcome. *)
Theorem traversal_ignores_house_order (grid : matrix) (houses houses' : list cell) :
  rectangular grid -> Forall (in_grid grid) houses -> houses ≡ₚ houses' ->
  _bfs_total_distance grid houses = _bfs_total_distance grid houses'.
Proof. apply bfs_total_distance_perm. Qed.

Lemma traversal_ignores_house_order_witness :
  _bfs_total_distance [[1; 0; 2]; [0; 0; 1]] [(0, 0); (1, 2)]
  = _bfs_total_distance [[1; 0; 2]; [0; 0; 1]] [(1, 2); (0, 0)].
Proof.
  apply traversal_ignores_house_order.
  - repeat constructor.
  - repeat constructor; simpl; lia.
  - apply perm_swap.
Defined.

(** X6. [_bfs_total_distance] does not validate house coordinates: on a
    rectangular grid with a row, a house whose row is outside
    [-len(grid) <= row < len(grid)] or whose column is outside
    [-len(grid[0]) <= col < len(grid[0])] makes the call raise
    [IndexError], when the houses listed before it are cells of the
    grid. *)
Theorem traversal_raises_outside_index_range (grid : matrix)
    (before after : list cell) (h : cell) :
  rectangular grid -> grid <> [] -> Forall (in_grid grid) before ->
  ~ (- Z.of_nat (length grid) <= fst h < Z.of_nat (length grid)) \/
  ~ (- Z.of_nat (width grid) <= snd h < Z.of_nat (width grid)) ->
  _bfs_total_distance grid (before ++ h :: after) = IndexError.
Proof. apply bfs_total_distance_out_of_range. Qed.

Lemma traversal_raises_outside_index_range_witness :
  _bfs_total_distance [[1; 0]; [0; 0]] ([(0, 0)] ++ (0, 2) :: []) = IndexError.
Proof.
  apply traversal_raises_outside_index_range.
  - repeat constructor.
  - discriminate.
  - repeat constructor; simpl; lia.
  - right. unfold width. simpl. lia.
Defined.

(** X7. On every rectangular grid, with or without obstacles, giving an
    empty cell an obstacle value makes [min_total_distance] return the
    sentinel [-1] or a value that is at least the (positive) value
    returned before. *)
Theorem obstacle_never_improves_any_grid (grid : matrix) (c : cell) (o : Z) :
  rectangular grid -> in_grid grid c -> cell_at grid c = 0 -> o <> 0 -> o <> 1 ->
  exists a b,
    min_total_distance grid = Ok a /\
    min_total_distance (upd2 grid c o) = Ok b /\
    (b = -1 \/ (0 < a /\ a <= b)).
Proof. apply obstacle_monotone_any. Qed.

Lemma obstacle_never_improves_any_grid_witness :
  exists a b,
    min_total_distance [[1; 0; 2]; [0; 0; 0]; [2; 0; 1]] = Ok a /\
    min_total_distance (upd2 [[1; 0; 2]; [0; 0; 0]; [2; 0; 1]] (1, 1) 2) = Ok b /\
    (b = -1 \/ (0 < a /\ a <= b)).
Proof.
  apply obstacle_never_improves_any_grid.
  - repeat constructor.
  - unfold in_grid, inb, width; simpl; lia.
  - reflexivity.
  - lia.
  - lia.
Defined.

(** X8. On a rectangular grid whose only house has an empty cell next to
    it, [min_total_distance] returns [1]. *)
Theorem lone_house_next_to_empty_cell (grid : matrix) (h c : cell) :
  rectangular grid -> houses_of grid = [h] ->
  adjacent h c -> in_grid grid c -> cell_at grid c = 0 ->
  min_total_distance grid = Ok 1.
Proof. apply lone_house_neighbour. Qed.

Lemma lone_house_next_to_empty_cell_witness :
  min_total_distance [[2; 2; 2]; [2; 1; 0]; [2; 2; 2]] = Ok 1.
Proof.
  apply (lone_house_next_to_empty_cell _ (1, 1) (1, 2)).
  - repeat constructor.
  - reflexivity.
  - exists (0, 1). split; [in_list | reflexivity].
  - unfold in_grid, inb, width; simpl; lia.
  - reflexivity.
Defined.

(** X9. A grid with a row shorter than its first row makes
    [min_total_distance] raise [IndexError]. *)
Theorem short_row_raises_index_error (grid : matrix) (i : nat) (row : list Z) :
  grid !! i = Some row -> (length row < width grid)%nat ->
  min_total_distance grid = IndexError.
Proof. apply short_row_raises. Qed.

Lemma short_row_raises_index_error_witness :
  min_total_distance [[0; 1]; [0]] = IndexError.
Proof.
  apply (short_row_raises_index_error _ 1%nat [0]).
  - reflexivity.
  - unfold width. simpl. lia.
Defined.

(** X10. With at least one run on a rectangular grid,
    [benchmark_algorithm(grid, "bfs", num_runs)] reports the same result as
    [benchmark_algorithm(grid, "main", num_runs)], and that result is an
    integer. *)
Theorem benchmark_bfs_agrees_with_main (grid : matrix) (num_runs : Z) :
  rectangular grid -> 1 <= num_runs ->
  benchmark_algorithm grid "bfs" num_runs
  = benchmark_algorithm grid "main" num_runs /\
  exists v, benchmark_algorithm grid "main" num_runs = Returned (Some v).
Proof.
  intros Hrect Hn.
  rewrite (benchmark_algorithm_run grid "bfs" num_runs
             (let* v := min_total_distance grid in Ok (Some v)));
    [| done | intros; by apply benchmark_run_bfs].
  rewrite (benchmark_algorithm_run grid "main" num_runs
             (let* v := min_total_distance grid in Ok (Some v)));
    [| done | intros; by apply benchmark_run_main].
  split; [done |].
  destruct (min_total_distance_total grid Hrect) as [v ->]. by exists v.
Qed.

Lemma benchmark_bfs_agrees_with_main_witness :
  benchmark_algorithm [[1; 0; 2]; [0; 0; 1]] "bfs" 5
  = benchmark_algorithm [[1; 0; 2]; [0; 0; 1]] "main" 5 /\
  exists v, benchmark_algorithm [[1; 0; 2]; [0; 0; 1]] "main" 5 = Returned (Some v).
Proof.
  apply benchmark_bfs_agrees_with_main.
  - repeat constructor.
  - lia.
Defined.

(** X11. With at least one run on a rectangular grid holding only [0] and
    [1], [benchmark_algorithm(grid, "fast", num_runs)] reports the same
    result as [benchmark_algorithm(grid, "main", num_runs)]. *)
Theorem benchmark_fast_agrees_with_main (grid : matrix) (num_runs : Z) :
  rectangular grid -> obstacle_free grid -> 1 <= num_runs ->
  benchmark_algorithm grid "fast" num_runs
  = benchmark_algorithm grid "main" num_runs.
Proof.
  intros Hrect Hfree Hn.
  rewrite (benchmark_algorithm_run grid "fast" num_runs
             (let* v := min_total_distance grid in Ok (Some v)));
    [| done | intros; by apply benchmark_run_fast].
  by rewrite (benchmark_algorithm_run grid "main" num_runs
                (let* v := min_total_distance grid in Ok (Some v)));
    [| | intros; apply benchmark_run_main].
Qed.

Lemma benchmark_fast_agrees_with_main_witness :
  benchmark_algorithm [[1; 0; 0]; [0; 0; 1]] "fast" 5
  = benchmark_algorithm [[1; 0; 0]; [0; 0; 1]] "main" 5.
Proof.
  apply benchmark_fast_agrees_with_main.
  - repeat constructor.
  - repeat first [apply Forall_nil_2 | apply Forall_cons_2 | by left | by right].
  - lia.
Defined.

(** X12. With at least one run, [benchmark_algorithm] with a name other
    than "main", "fast" and "bfs" reports the result [None] on every grid:
    it calls none of the algorithms and raises nothing. *)
Theorem benchmark_unknown_name (grid : matrix) (algorithm_name : string)
    (num_runs : Z) :
  algorithm_name <> "main"%string -> algorithm_name <> "fast"%string ->
  algorithm_name <> "bfs"%string -> 1 <= num_runs ->
  benchmark_algorithm grid algorithm_name num_runs = Returned None.
Proof.
  intros Hmain Hfast Hbfs Hn. unfold benchmark_algorithm.
  rewrite (for_each_pure _ _ (fun res _ => res));
    [| intros; by apply benchmark_run_other].
  assert (Hfold : forall (xs : list Z) (res : option Z),
            foldl (fun res _ => res) res xs = res).
  { induction xs as [| x xs IH]; intros res; [done | apply IH]. }
  rewrite Hfold. destruct (Z.leb_spec num_runs 0); [lia | done].
Qed.

Lemma benchmark_unknown_name_witness :
  benchmark_algorithm [[0; 1]; [0]] "dfs" 3 = Returned None.
Proof. apply benchmark_unknown_name; [done | done | done | lia]. Defined.

(** X13. On a rectangular grid [min_total_distance] returns the same when
    the order of the rows is reversed, and when every row is reversed. *)
Theorem result_unchanged_by_reflection (grid : matrix) :
  rectangular grid ->
  min_total_distance (flip_rows grid) = min_total_distance grid /\
  min_total_distance (flip_columns grid) = min_total_distance grid.
Proof.
  intros Hrect. split.
  - by apply min_total_distance_flip_rows.
  - by apply min_total_distance_flip_columns.
Qed.

Lemma result_unchanged_by_reflection_witness :
  min_total_distance (flip_rows [[1; 0; 2]; [0; 0; 1]])
  = min_total_distance [[1; 0; 2]; [0; 0; 1]] /\
  min_total_distance (flip_columns [[1; 0; 2]; [0; 0; 1]])
  = min_total_distance [[1; 0; 2]; [0; 0; 1]].
Proof. apply result_unchanged_by_reflection. repeat constructor. Defined.

(** X14. On a rectangular grid [min_total_distance] returns the same when
    rows and columns are exchanged. *)
Theorem result_unchanged_by_transposition (grid : matrix) :
  rectangular grid ->
  min_total_distance (transpose grid) = min_total_distance grid.
Proof. apply min_total_distance_transpose. Qed.

Lemma result_unchanged_by_transposition_witness :
  min_total_distance (transpose [[1; 0; 2]; [0; 0; 1]])
  = min_total_distance [[1; 0; 2]; [0; 0; 1]].
Proof. apply result_unchanged_by_transposition. repeat constructor. Defined.
